(** * Cosmic Morphodynamics (CMH.py): the numerical core, embedded and verified

    The Python module integrates a two-field reaction-diffusion-advection
    model on a periodic N x N grid.  This development embeds

      - [laplacian]               (CMH.py, lines 54-64)
      - [get_power_spectrum]      (lines 67-74)
      - [build_keplerian_coords]  (lines 77-106)
      - [initialize_fields]       (lines 109-130)
      - [update], the closure of [simulate] (lines 178-199)
      - the setup of [simulate] (lines 173-174) and runs of several frames

    together with the fragment of numpy they rely on: 2-D arrays as lists of
    rows, [np.roll], broadcasting elementwise arithmetic with its
    [ValueError], basic slices and in-place [+=].

    Arithmetic is kept abstract in the first part (class [Arith]) so that the
    structural theorems hold for whatever the element type does; it is then
    instantiated twice: with the real numbers (module [Exact]) for the
    statements made "in exact arithmetic", and with IEEE-754 binary32 arrays
    and binary64 scalars (module [F32]), which is what the script runs on. *)

From Stdlib Require Import List ZArith Lia Bool Arith PeanoNat.
From Stdlib Require Import QArith Reals Lra SpecFloat.
Import ListNotations.

Set Implicit Arguments.
Local Open Scope nat_scope.

(* ================================================================== *)
(** * Part I: definitions *)
(* ================================================================== *)

(** ** Exceptions and outcomes *)

(** The two faults the modelled numpy/scipy fragment can raise. *)
Inductive exn : Type :=
| ValueError    (* operands could not be broadcast together *)
| RuntimeError. (* invalid shape for coordinate array *)

Inductive result (A : Type) : Type :=
| Ok (a : A)
| Raise (e : exn).

Arguments Ok {A} a.
Arguments Raise {A} e.

Definition rbind {A B} (m : result A) (f : A -> result B) : result B :=
  match m with
  | Ok a => f a
  | Raise e => Raise e
  end.

Declare Scope np_scope.
Delimit Scope np_scope with np.

Notation "x <~ m ; k" := (rbind m (fun x => k))
  (at level 61, m at next level, right associativity) : np_scope.

(** ** Python integers: slices *)

(** [slice(a, b).indices(n)] clamps one bound: a negative bound counts
    from the end of the axis. *)
Definition slice_bound (n : nat) (k : Z) : nat :=
  if (k <? 0)%Z then Z.to_nat (Z.max (k + Z.of_nat n) 0)
  else Z.to_nat (Z.min k (Z.of_nat n)).

(** Whether index [i] of an axis of length [n] is selected by
    [slice(a, b)]. *)
Definition in_slice (n : nat) (a b : Z) (i : nat) : bool :=
  (slice_bound n a <=? i) && (i <? slice_bound n b).

(** Index arithmetic modulo the axis length (periodic topology). *)
Definition wrap (n : nat) (k : Z) : nat := Z.to_nat (k mod Z.of_nat n).

(** ** numpy arrays of rank 2 *)

Module Np.

(** A 2-D array is the list of its rows. *)
Definition grid (A : Type) : Type := list (list A).

Definition ncols {A} (z : grid A) : nat :=
  match z with
  | [] => 0
  | row :: _ => length row
  end.

Definition shape {A} (z : grid A) : nat * nat := (length z, ncols z).

(** [has_shape n m z]: [z] is an [n x m] array (all rows have length [m]). *)
Definition has_shape {A} (n m : nat) (z : grid A) : Prop :=
  length z = n /\ Forall (fun row => length row = m) z.

(** [z[i, j]], with a default for indices out of range (never used on
    indices a numpy program may access). *)
Definition cell {A} (d : A) (z : grid A) (i j : nat) : A :=
  nth j (nth i z []) d.

(** [np.full((n, m), v)]. *)
Definition full {A} (n m : nat) (v : A) : grid A := repeat (repeat v m) n.

(** Map with the position of each element. *)
Fixpoint imap_from {A B} (k : nat) (f : nat -> A -> B) (l : list A) : list B :=
  match l with
  | [] => []
  | x :: t => f k x :: imap_from (S k) f t
  end.

Definition imap {A B} (f : nat -> A -> B) (l : list A) : list B :=
  imap_from 0 f l.

(** [z[a:b, a:b] = v] (the same slice on both axes). *)
Definition set_block {A} (z : grid A) (a b : Z) (v : A) : grid A :=
  imap (fun i row =>
          if in_slice (length z) a b i
          then imap (fun j x => if in_slice (length row) a b j then v else x) row
          else row) z.

(** [np.roll] along one axis of length [n]: the shift is reduced modulo
    [n], the last [shift] entries come first. *)
Definition roll1 {A} (l : list A) (shift : Z) : list A :=
  match l with
  | [] => []
  | _ :: _ =>
      let n := length l in
      let k := Z.to_nat (shift mod Z.of_nat n) in
      skipn (n - k) l ++ firstn (n - k) l
  end.

Inductive axis : Type := axis0 | axis1.

(** [np.roll(z, shift, axis)]; a fresh array, [z] is not touched. *)
Definition roll {A} (z : grid A) (shift : Z) (ax : axis) : grid A :=
  match ax with
  | axis0 => roll1 z shift
  | axis1 => map (fun row => roll1 row shift) z
  end.

(** Sequencing a list of outcomes. *)
Fixpoint sequence {A} (l : list (result A)) : result (list A) :=
  match l with
  | [] => Ok []
  | m :: t =>
      match m with
      | Ok a => match sequence t with
                | Ok r => Ok (a :: r)
                | Raise e => Raise e
                end
      | Raise e => Raise e
      end
  end.

Fixpoint zip_with {A B C} (f : A -> B -> C) (xs : list A) (ys : list B) : list C :=
  match xs, ys with
  | x :: xs', y :: ys' => f x y :: zip_with f xs' ys'
  | _, _ => []
  end.

(** Broadcasting along one axis: equal lengths pair up, an axis of length
    one is stretched, anything else is a [ValueError]. *)
Definition broadcast1 {A B C} (f : A -> B -> result C)
    (xs : list A) (ys : list B) : result (list C) :=
  if length xs =? length ys then sequence (zip_with f xs ys)
  else match xs, ys with
       | [x], _ => sequence (map (f x) ys)
       | _, [y] => sequence (map (fun x => f x y) xs)
       | _, _ => Raise ValueError
       end.

(** Elementwise binary operation on two 2-D arrays, with broadcasting. *)
Definition ew {A B C} (f : A -> B -> C) (a : grid A) (b : grid B) : result (grid C) :=
  broadcast1 (broadcast1 (fun x y => Ok (f x y))) a b.

(** Array-with-scalar operation (the scalar always broadcasts). *)
Definition ew1 {A B} (f : A -> B) (a : grid A) : grid B := map (map f) a.

(** In-place [a op= b]: the broadcast result must have the shape of [a]. *)
Definition inplace {A B} (f : A -> B -> A) (a : grid A) (b : grid B) : result (grid A) :=
  (c <~ ew f a b;
   if (length c =? length a) && (ncols c =? ncols a) then Ok c
   else Raise ValueError)%np.

End Np.

Import Np.

(** ** Arithmetic of the script *)

(** The script mixes two number types: Python floats (module constants and
    literals) and [np.float32] array elements.  A Python float meeting a
    [float32] array is first converted to [float32] ([cast]); the only
    operation the script performs between two Python floats is
    [FEED + KILL]. *)
Class Arith : Type := {
  pyfloat : Type;
  f32 : Type;
  lit : Q -> pyfloat;                        (* a decimal literal *)
  py_add : pyfloat -> pyfloat -> pyfloat;
  cast : pyfloat -> f32;
  add : f32 -> f32 -> f32;
  sub : f32 -> f32 -> f32;
  mul : f32 -> f32 -> f32
}.

(** ** The module-level constants, as a configuration record *)

Module Config.

Record params {AR : Arith} : Type := {
  N : nat;
  DT : pyfloat;
  DIFF_G : pyfloat;
  DIFF_R : pyfloat;
  FEED : pyfloat;
  KILL : pyfloat;
  ETA : pyfloat;
  ROTATION_STRENGTH : pyfloat;
  STEPS_PER_FRAME : nat;
  NUM_FRAMES : nat
}.

(** The values written in CMH.py, lines 29-48. *)
Definition default {AR : Arith} : params := {|
  N := 200;
  DT := lit 1;
  DIFF_G := lit (16 # 100);
  DIFF_R := lit (8 # 100);
  FEED := lit (40 # 1000);
  KILL := lit (60 # 1000);
  ETA := lit 1;
  ROTATION_STRENGTH := lit (5 # 100);
  STEPS_PER_FRAME := 8;
  NUM_FRAMES := 256
|}.

End Config.

Section Kernel.

Context {AR : Arith}.

(** [scipy.ndimage.map_coordinates(z, coords, order=1, mode="wrap")] is
    library code; the kernel takes it as a parameter.  The coordinate
    array [np.array([y_warp, x_warp])] is the pair of its two planes. *)
Record coords : Type := { row_src : grid f32; col_src : grid f32 }.

Variable map_coordinates : grid f32 -> coords -> result (grid f32).

Definition zero : f32 := cast (lit 0).

(** Cell access on [float32] arrays. *)
Definition at_ (z : grid f32) (i j : nat) : f32 := cell zero z i j.

(** CMH.py, lines 54-64. *)
Definition laplacian (z : grid f32) : result (grid f32) :=
  (s1 <~ ew add (roll z 1 axis0) (roll z (-1) axis0);
   s2 <~ ew add s1 (roll z 1 axis1);
   s3 <~ ew add s2 (roll z (-1) axis1);
   ew sub s3 (ew1 (mul (cast (lit 4))) z))%np.

(** CMH.py, lines 109-130.  [u] is the sample returned by
    [np.random.random((n, n))]. *)
Definition initialize_fields (n : nat) (seed_radius : Z) (noise_level : pyfloat)
    (u : grid pyfloat) : result (grid f32 * grid f32) :=
  let g := full n n (cast (lit 1)) in
  let r := full n n (cast (lit 0)) in
  let center := (Z.of_nat n / 2)%Z in
  let lo := (center - seed_radius)%Z in
  let hi := (center + seed_radius)%Z in
  let g := set_block g lo hi (cast (lit (1 # 2))) in
  let r := set_block r lo hi (cast (lit (1 # 4))) in
  let noise := ew1 (fun x => mul x (cast noise_level)) (ew1 cast u) in
  (r <~ inplace add r noise;
   Ok (g, r))%np.

(** *** The closure state of [simulate] *)

(** [update] reads and rebinds the two [nonlocal] variables [g] and [r]. *)
Record fields : Type := { g : grid f32; r : grid f32 }.

(** State and exceptions: an exception leaves the state as it was when it
    was raised. *)
Definition M (A : Type) : Type := fields -> result A * fields.

Definition ret {A} (a : A) : M A := fun s => (Ok a, s).

Definition bind {A B} (m : M A) (f : A -> M B) : M B :=
  fun s => match m s with
           | (Ok a, s') => f a s'
           | (Raise e, s') => (Raise e, s')
           end.

Definition lift {A} (m : result A) : M A := fun s => (m, s).

Definition get_g : M (grid f32) := fun s => (Ok (g s), s).
Definition get_r : M (grid f32) := fun s => (Ok (r s), s).
Definition set_g (z : grid f32) : M unit := fun s => (Ok tt, {| g := z; r := r s |}).
Definition set_r (z : grid f32) : M unit := fun s => (Ok tt, {| g := g s; r := z |}).

Notation "x <- m ;; k" := (bind m (fun x => k))
  (at level 61, m at next level, right associativity).
Notation "m ;; k" := (bind m (fun _ => k))
  (at level 61, right associativity).

(** [for _ in range(n): body]. *)
Fixpoint for_range (n : nat) (body : M unit) : M unit :=
  match n with
  | O => ret tt
  | S k => body ;; for_range k body
  end.

(** CMH.py, lines 181-184: the advection pass. *)
Definition advection (cs : option coords) : M unit :=
  match cs with
  | Some c =>
      z <- get_g ;; z' <- lift (map_coordinates z c) ;; set_g z' ;;
      z <- get_r ;; z' <- lift (map_coordinates z c) ;; set_r z'
  | None => ret tt
  end.

(** CMH.py, lines 188-199: the body of the sub-step loop. *)
Definition reaction_step (p : Config.params) : M unit :=
  g0 <- get_g ;;
  r0 <- get_r ;;
  lap_g <- lift (laplacian g0) ;;
  lap_r <- lift (laplacian r0) ;;
  gr2 <- lift (rr <~ ew mul r0 r0;
               ew mul (ew1 (mul (cast (Config.ETA p))) g0) rr)%np ;;
  delta_g <- lift
    (a <~ ew sub (ew1 (mul (cast (Config.DIFF_G p))) lap_g) gr2;
     b <~ ew add a (ew1 (mul (cast (Config.FEED p)))
                         (ew1 (sub (cast (lit 1))) g0));
     Ok (ew1 (fun x => mul x (cast (Config.DT p))) b))%np ;;
  delta_r <- lift
    (a <~ ew add (ew1 (mul (cast (Config.DIFF_R p))) lap_r) gr2;
     b <~ ew sub a (ew1 (mul (cast (py_add (Config.FEED p) (Config.KILL p)))) r0);
     Ok (ew1 (fun x => mul x (cast (Config.DT p))) b))%np ;;
  g1 <- lift (inplace add g0 delta_g) ;;
  set_g g1 ;;
  r1 <- lift (inplace add r0 delta_r) ;;
  set_r r1.

(** CMH.py, lines 178-199.  The two [set_array] calls that follow the loop
    hand the result to the renderer and are not part of the core. *)
Definition update (p : Config.params) (cs : option coords) : M unit :=
  advection cs ;;
  for_range (Config.STEPS_PER_FRAME p) (reaction_step p).

End Kernel.

Arguments row_src {AR} c.
Arguments col_src {AR} c.
Arguments g {AR} f.
Arguments r {AR} f.

(** ** Instance: exact real arithmetic *)

(** Every number is a real, no operation rounds.  This is the arithmetic
    the statements "in exact arithmetic" are about; it is also where the
    functions that need square roots, trigonometry and logarithms are
    embedded. *)
Module Exact.

Local Open Scope R_scope.

#[export] Instance reals : Arith := {|
  pyfloat := R;
  f32 := R;
  lit := Q2R;
  py_add := Rplus;
  cast := fun x => x;
  add := Rplus;
  sub := Rminus;
  mul := Rmult
|}.

(** [np.arange(n, dtype=np.float32)]. *)
Definition arange (n : nat) : list R := map INR (seq 0 n).

(** [np.meshgrid(a, b, indexing="ij")]. *)
Definition meshgrid_ij (a b : list R) : grid R * grid R :=
  (map (fun v => map (fun _ => v) b) a, map (fun _ => b) a).

(** CMH.py, lines 77-106. *)
Definition build_keplerian_coords (n : nat) (rotation_strength : R)
    : result coords :=
  let '(y, x) := meshgrid_ij (arange n) (arange n) in
  let center := IZR (Z.of_nat n / 2) in
  let dx := ew1 (fun v => v - center) x in
  let dy := ew1 (fun v => v - center) y in
  (xx <~ ew Rmult dx dx;
   yy <~ ew Rmult dy dy;
   rr <~ ew Rplus xx yy;
   let r := ew1 sqrt rr in
   let r := ew1 (fun v => if Req_dec_T v 0 then 1 else v) r in
   let theta := ew1 (fun v => rotation_strength * (1 / v)) r in
   let cos_t := ew1 cos theta in
   let sin_t := ew1 sin theta in
   xc <~ ew Rmult dx cos_t;
   ys <~ ew Rmult dy sin_t;
   xw <~ ew Rminus xc ys;
   let x_warp := ew1 (fun v => v + center) xw in
   xs <~ ew Rmult dx sin_t;
   yc <~ ew Rmult dy cos_t;
   yw <~ ew Rplus xs yc;
   let y_warp := ew1 (fun v => v + center) yw in
   Ok {| row_src := y_warp; col_src := x_warp |})%np.

(** Modelled from the spec: [scipy.ndimage.map_coordinates] is library
    code, absent from the repository.  Spec 4.4: "for every destination
    cell, bilinearly interpolate Z at the fractional source coordinate from
    the map, with source coordinates wrapped periodically (sampling past an
    edge wraps to the opposite edge)". *)
Definition bilinear (z : grid R) (y x : R) : R :=
  let n := length z in
  let m := ncols z in
  let i0 := Zfloor y in
  let j0 := Zfloor x in
  let fy := y - IZR i0 in
  let fx := x - IZR j0 in
  (1 - fy) * (1 - fx) * cell 0 z (wrap n i0) (wrap m j0)
  + (1 - fy) * fx * cell 0 z (wrap n i0) (wrap m (j0 + 1))
  + fy * (1 - fx) * cell 0 z (wrap n (i0 + 1)) (wrap m j0)
  + fy * fx * cell 0 z (wrap n (i0 + 1)) (wrap m (j0 + 1)).

(** One output cell per cell of the map. *)
Definition map_coordinates (z : grid R) (c : coords) : result (grid R) :=
  Ok (zip_with (zip_with (bilinear z)) (row_src c) (col_src c)).

(** Sum of a list of reals. *)
Definition sum_list (l : list R) : R := fold_right Rplus 0 l.

(** Modelled from the spec: [np.fft.fft2] is library code.  Spec 4.7: "the
    2D discrete Fourier transform"; entry [(k, l)] is the sum over the
    cells [(a, b)] of [z[a,b] * exp(-2 pi i (k a / n + l b / m))], kept as
    the pair of its real and imaginary parts. *)
Definition dft_angle (n m k l a b : nat) : R :=
  2 * PI * (INR k * INR a / INR n + INR l * INR b / INR m).

Definition fft2 (z : grid R) : grid (R * R) :=
  let n := length z in
  let m := ncols z in
  map (fun k =>
    map (fun l =>
      (sum_list (imap (fun a row =>
         sum_list (imap (fun b v => v * cos (dft_angle n m k l a b)) row)) z),
       sum_list (imap (fun a row =>
         sum_list (imap (fun b v => - (v * sin (dft_angle n m k l a b))) row)) z)))
      (seq 0 m))
    (seq 0 n).

(** [np.fft.fftshift]: every axis is rolled by half its length. *)
Definition fftshift {A} (z : grid A) : grid A :=
  roll (roll z (Z.of_nat (length z) / 2) axis0) (Z.of_nat (ncols z) / 2) axis1.

(** [np.abs] of a complex number. *)
Definition cabs (c : R * R) : R := sqrt (fst c * fst c + snd c * snd c).

(** CMH.py, lines 67-74. *)
Definition get_power_spectrum (image : grid R) : grid R :=
  let f := fft2 image in
  let fshift := fftshift f in
  ew1 (fun c => ln (cabs c + Q2R (1 # 1000000000))) fshift.

(** The sum of an array over the whole grid. *)
Definition total (z : grid R) : R := sum_list (map sum_list z).

End Exact.

(** ** Instance: IEEE-754 arithmetic, as the script runs it *)

(** Python floats are binary64, array elements binary32; every operation
    rounds to nearest, ties to even.  The operations are those of the
    Standard Library's specification of IEEE-754 floats. *)
Module F32.

Definition prec64 : Z := 53.
Definition emax64 : Z := 1024.
Definition prec32 : Z := 24.
Definition emax32 : Z := 128.

(** An integer as a binary64 (exact for the small integers used here). *)
Definition b64_of_Z (m : Z) : spec_float :=
  binary_normalize prec64 emax64 m 0 false.

(** The decimal literal [p/q]: the binary64 nearest to the quotient. *)
Definition b64_lit (q : Q) : spec_float :=
  SFdiv prec64 emax64 (b64_of_Z (Qnum q)) (b64_of_Z (Zpos (Qden q))).

(** Conversion of a binary64 to binary32. *)
Definition b32_of_b64 (x : spec_float) : spec_float :=
  match x with
  | S754_finite s m e => binary_round prec32 emax32 s m e
  | _ => x
  end.

#[export] Instance ieee : Arith := {|
  pyfloat := spec_float;
  f32 := spec_float;
  lit := b64_lit;
  py_add := SFadd prec64 emax64;
  cast := b32_of_b64;
  add := SFadd prec32 emax32;
  sub := SFsub prec32 emax32;
  mul := SFmul prec32 emax32
|}.

(** Strict comparison of two binary32 numbers. *)
Definition lt32 (x y : spec_float) : bool := SFltb x y.

(** What a [float32] image of a [np.random.random] sample can be: a
    non-negative finite number. *)
Definition sample32 (x : spec_float) : bool :=
  match x with
  | S754_zero false => true
  | S754_finite false _ _ => true
  | _ => false
  end.

End F32.

(** ** Vocabulary of the statements *)

(** numpy's broadcasting rule on one axis, and on the shape of a 2-D array
    (an array without rows has shape [(0, 0)] here). *)
Definition bcast_dim (a b : nat) : option nat :=
  if a =? b then Some a
  else if a =? 1 then Some b
  else if b =? 1 then Some a
  else None.

Definition bcast_shape (s1 s2 : nat * nat) : option (nat * nat) :=
  match bcast_dim (fst s1) (fst s2) with
  | None => None
  | Some 0 => Some (0, 0)
  | Some (S k) =>
      match bcast_dim (snd s1) (snd s2) with
      | None => None
      | Some m => Some (S k, m)
      end
  end.

(** A shape with no row has no column either. *)
Definition normal (s : nat * nat) : Prop := fst s = 0 -> snd s = 0.

(** [z] is a rectangular array. *)
Definition rect {A} (z : grid A) : Prop := has_shape (length z) (ncols z) z.

(** The seed block of an axis of length [n]. *)
Definition in_seed (n : nat) (seed_radius : Z) (i : nat) : bool :=
  in_slice n (Z.of_nat n / 2 - seed_radius) (Z.of_nat n / 2 + seed_radius) i.

Section Stencil.

Context {AR : Arith}.

(** The five-point stencil at cell [(i, j)] of an [n x m] array, read off
    the array [z] itself, in the order in which the script adds the terms. *)
Definition stencil (n m : nat) (z : grid f32) (i j : nat) : f32 :=
  sub (add (add (add (at_ z (wrap n (Z.of_nat i - 1)) j)
                     (at_ z (wrap n (Z.of_nat i + 1)) j))
                (at_ z i (wrap m (Z.of_nat j - 1))))
           (at_ z i (wrap m (Z.of_nat j + 1))))
      (mul (cast (lit 4)) (at_ z i j)).

End Stencil.

Section StepVocabulary.

Context {AR : Arith}.

Variable map_coordinates : grid f32 -> coords -> result (grid f32).
Variable p : Config.params.

(** The coupling term and the two increments at one cell, all read off
    one and the same pair of arrays [(G, R)]. *)
Definition gr2_at (G R : grid f32) (i j : nat) : f32 :=
  mul (mul (cast (Config.ETA p)) (at_ G i j)) (mul (at_ R i j) (at_ R i j)).

Definition delta_G_at (n : nat) (G R : grid f32) (i j : nat) : f32 :=
  mul (add (sub (mul (cast (Config.DIFF_G p)) (stencil n n G i j))
                (gr2_at G R i j))
           (mul (cast (Config.FEED p)) (sub (cast (lit 1)) (at_ G i j))))
      (cast (Config.DT p)).

Definition delta_R_at (n : nat) (G R : grid f32) (i j : nat) : f32 :=
  mul (sub (add (mul (cast (Config.DIFF_R p)) (stencil n n R i j))
                (gr2_at G R i j))
           (mul (cast (py_add (Config.FEED p) (Config.KILL p))) (at_ R i j)))
      (cast (Config.DT p)).

(** One synchronous reaction sub-step on [n x n] fields: every cell of the
    new pair is the old cell plus its increment, the increments being
    computed from the old pair only. *)
Definition substep (n : nat) (s s' : fields) : Prop :=
  has_shape n n (g s') /\ has_shape n n (r s') /\
  forall i j, i < n -> j < n ->
    at_ (g s') i j = add (at_ (g s) i j) (delta_G_at n (g s) (r s) i j) /\
    at_ (r s') i j = add (at_ (r s) i j) (delta_R_at n (g s) (r s) i j).

(** [k] sub-steps in sequence. *)
Inductive substeps (n : nat) : nat -> fields -> fields -> Prop :=
| substeps_O : forall s, substeps n 0 s s
| substeps_S : forall k s s1 s2,
    substep n s s1 -> substeps n k s1 s2 -> substeps n (S k) s s2.

(** One advection pass: nothing when advection is disabled, otherwise
    each field is resampled once through the map. *)
Definition advected (cs : option coords) (s s0 : fields) : Prop :=
  match cs with
  | None => s0 = s
  | Some c =>
      map_coordinates (g s) c = Ok (g s0) /\
      map_coordinates (r s) c = Ok (r s0)
  end.

(** Both fields are constant on the square window of half-width [w]
    around cell [(c, c)]. *)
Definition uniform_on (c w : nat) (s : fields) (a b : f32) : Prop :=
  forall i j, c - w <= i <= c + w -> c - w <= j <= c + w ->
    at_ (g s) i j = a /\ at_ (r s) i j = b.

(** The sub-step at a cell whose four neighbours hold the same pair of
    values [(a, b)] as the cell itself. *)
Definition cell_step (ab : f32 * f32) : f32 * f32 :=
  let '(a, b) := ab in
  let lap x := sub (add (add (add x x) x) x) (mul (cast (lit 4)) x) in
  let gr2 := mul (mul (cast (Config.ETA p)) a) (mul b b) in
  (add a (mul (add (sub (mul (cast (Config.DIFF_G p)) (lap a)) gr2)
                   (mul (cast (Config.FEED p)) (sub (cast (lit 1)) a)))
              (cast (Config.DT p))),
   add b (mul (sub (add (mul (cast (Config.DIFF_R p)) (lap b)) gr2)
                   (mul (cast (py_add (Config.FEED p) (Config.KILL p))) b))
              (cast (Config.DT p)))).

End StepVocabulary.

(** ** Vocabulary and sample inputs of the statements in exact arithmetic *)

Module ExactSpec.

Import Exact.
Local Open Scope R_scope.

(** What the noise term of a cell can be. *)
Definition noise_term (noise_level e : R) : Prop :=
  0 <= e /\ (0 < noise_level -> e < noise_level) /\ (noise_level = 0 -> e = 0).

(** The sample of all zeros, on a 3 x 3 grid. *)
Definition u33 : grid R := full 3 3 0.

(** Displacement of cell index [k] from the centre [n // 2]. *)
Definition offset (n k : nat) : R := INR k - IZR (Z.of_nat n / 2).

(** The angle by which [build_keplerian_coords] rotates cell [(i, j)]:
    [rotation_strength / r], with [r = 1] substituted at the centre. *)
Definition warp_angle (n : nat) (rotation_strength : R) (i j : nat) : R :=
  let dx := offset n j in
  let dy := offset n i in
  let r := sqrt (dx * dx + dy * dy) in
  rotation_strength * (1 / (if Req_dec_T r 0 then 1 else r)).

(** Euclidean distance of the point [(y, x)] from the centre of the grid. *)
Definition dist_center (n : nat) (y x : R) : R :=
  let c := IZR (Z.of_nat n / 2) in
  sqrt ((y - c) * (y - c) + (x - c) * (x - c)).

(** The two parts of one Fourier coefficient. *)
Definition dft_re (n : nat) (z : grid R) (k l : nat) : R :=
  sum_list (imap (fun a row =>
    sum_list (imap (fun b v => v * cos (dft_angle n n k l a b)) row)) z).

Definition dft_im (n : nat) (z : grid R) (k l : nat) : R :=
  sum_list (imap (fun a row =>
    sum_list (imap (fun b v => - (v * sin (dft_angle n n k l a b))) row)) z).

(** Index of the Fourier coefficient shown at position [i] after the shift. *)
Definition freq (n i : nat) : nat := wrap n (Z.of_nat i - Z.of_nat n / 2).

(** Point reflection of an index through the centre [n // 2], on the
    periodic axis. *)
Definition reflect (n i : nat) : nat :=
  wrap n (2 * (Z.of_nat n / 2) - Z.of_nat i).

End ExactSpec.

(** ** Concrete inputs used by the examples *)

Module Inputs.

(** An integer as a binary32. *)
Definition f32_of_Z (k : Z) : spec_float :=
  binary_normalize F32.prec32 F32.emax32 k 0 false.

(** A 2 x 2 binary32 array. *)
Definition z22 : grid (@f32 F32.ieee) :=
  [[f32_of_Z 1; f32_of_Z 2]; [f32_of_Z 3; f32_of_Z 4]].

(** A 3 x 3 binary32 array of zeros. *)
Definition z33 : grid (@f32 F32.ieee) := full 3 3 (f32_of_Z 0).

(** A 200 x 200 sample of zeros (binary64). *)
Definition u200 : grid (@pyfloat F32.ieee) := full 200 200 (lit 0).


(** A 2 x 2 real array. *)
Definition r22 : grid (@f32 Exact.reals) := [[1%R; 2%R]; [3%R; 4%R]].

(** The default constants with the reaction switched off:
    [feed = kill = 0] and [eta = 0]. *)
Definition diffusion_only : Config.params (AR := Exact.reals) :=
  @Config.Build_params Exact.reals
    2                     (* N *)
    1%R                   (* DT *)
    (Q2R (16 # 100))      (* DIFF_G *)
    (Q2R (8 # 100))       (* DIFF_R *)
    0%R                   (* FEED *)
    0%R                   (* KILL *)
    0%R                   (* ETA *)
    (PI / 2)%R            (* ROTATION_STRENGTH *)
    8                     (* STEPS_PER_FRAME *)
    256.                  (* NUM_FRAMES *)

(** A gas field with one depleted cell, and an empty radiation field. *)
Definition g_dent : grid (@f32 Exact.reals) := [[0%R; 1%R]; [1%R; 1%R]].

Definition r_zero : grid (@f32 Exact.reals) := [[0%R; 0%R]; [0%R; 0%R]].

(** A 3 x 3 real array of zeros. *)
Definition r33 : grid (@f32 Exact.reals) := full 3 3 0%R.

(** A 1 x 1 array, in binary32 and over the reals. *)
Definition z11 : grid (@f32 F32.ieee) := [[f32_of_Z 5]].

Definition r11 : grid (@f32 Exact.reals) := [[5%R]].

(** A 1 x 1 advection map that reads cell [(0, 0)]. *)
Definition map11 : @coords Exact.reals :=
  @Build_coords Exact.reals [[0%R]] [[0%R]].

(** A 3 x 3 real array without any symmetry. *)
Definition r33_skew : grid (@f32 Exact.reals) :=
  [[1%R; 2%R; 3%R]; [4%R; 5%R; 6%R]; [7%R; 8%R; 10%R]].

End Inputs.

(** ** Broadcasting, as an array *)

(** numpy's stretching of an axis of length one to length [n]; an axis
    that already has length [n] is left as it is. *)
Definition stretch1 {A} (n : nat) (l : list A) : list A :=
  match l with
  | [x] => repeat x n
  | _ => l
  end.

(** [np.broadcast_to(z, (n, m))], for an array each of whose axes has
    the length asked for, or length one. *)
Definition broadcast_to {A} (n m : nat) (z : grid A) : grid A :=
  stretch1 n (map (stretch1 m) z).

Section MismatchVocabulary.

Context {AR : Arith}.

Variable p : Config.params.

(** The increment of [G] at one cell of an [n x m] array, as
    [delta_G_at] gives it on a square one. *)
Definition delta_G_on (n m : nat) (G R : grid f32) (i j : nat) : f32 :=
  mul (add (sub (mul (cast (Config.DIFF_G p)) (stencil n m G i j))
                (gr2_at p G R i j))
           (mul (cast (Config.FEED p)) (sub (cast (lit 1)) (at_ G i j))))
      (cast (Config.DT p)).

(** What the script relies on from [scipy.ndimage.map_coordinates]: given
    a non-empty 2-D array and an [n x n] map, it returns one value per cell
    of the map, whatever the shape of the array. *)
Definition resamples_onto_map
    (map_coordinates : grid f32 -> coords -> result (grid f32)) : Prop :=
  forall (z : grid f32) (c : coords) (a b n : nat),
    0 < a -> 0 < b -> 0 < n -> has_shape a b z ->
    has_shape n n (row_src c) -> has_shape n n (col_src c) ->
    exists z', map_coordinates z c = Ok z' /\ has_shape n n z'.

End MismatchVocabulary.

(** ** States with a symmetry, and whole runs *)

(** The cell of [z] that [np.roll(z, s, axis)] puts at position [(i, j)]
    of an [n x m] array. *)
Definition rolled_index (n m : nat) (s : Z) (ax : axis) (i j : nat) : nat * nat :=
  match ax with
  | axis0 => (wrap n (Z.of_nat i - s), j)
  | axis1 => (i, wrap m (Z.of_nat j - s))
  end.

Section SymmetricStates.

Context {AR : Arith}.

(** The state in which both fields are constant over an [n x n] grid. *)
Definition homogeneous (n : nat) (ab : f32 * f32) : fields :=
  {| g := full n n (fst ab); r := full n n (snd ab) |}.

(** Both fields rolled alike. *)
Definition roll_fields (s : Z) (ax : axis) (st : fields) : fields :=
  {| g := roll (g st) s ax; r := roll (r st) s ax |}.

(** The advection map, when there is one, has one source coordinate per
    cell of an [n x n] grid. *)
Definition map_fits (n : nat) (cs : option coords) : Prop :=
  match cs with
  | None => True
  | Some c => has_shape n n (row_src c) /\ has_shape n n (col_src c)
  end.

End SymmetricStates.

Module Run.

Import Exact.

(** CMH.py, lines 173-174: what [simulate] builds before the animation
    starts.  [initialize_fields(N)] runs with its default seed radius 10
    and noise level 0.05, [u] being the random sample it draws; the map is
    built only when [with_advection] holds, and is [None] otherwise. *)
Definition simulate_setup (p : Config.params (AR := reals))
    (with_advection : bool) (u : grid R) : result (fields * option coords) :=
  (gr <~ initialize_fields (Config.N p) 10 (Q2R (5 # 100)) u;
   cs <~ (if with_advection
          then (c <~ build_keplerian_coords (Config.N p)
                       (Config.ROTATION_STRENGTH p);
                Ok (Some c))
          else Ok None);
   Ok ({| g := fst gr; r := snd gr |}, cs))%np.

(** CMH.py, lines 178-203, the two [set_array] calls apart: one call of
    [update] by the animation advances the fields, then computes what it
    hands to the renderer, the field [G] and its power spectrum. *)
Definition frame (p : Config.params (AR := reals)) (cs : option coords)
    : M (grid R * grid R) :=
  bind (update map_coordinates p cs) (fun _ =>
  bind get_g (fun z =>
  ret (z, get_power_spectrum z))).

(** The animation calls [update] once per frame it draws, on the state the
    previous call left: [frames] calls in a row. *)
Definition run_frames (p : Config.params (AR := reals)) (cs : option coords)
    (frames : nat) : M unit :=
  for_range frames (bind (frame p cs) (fun _ => ret tt)).

End Run.

(* ================================================================== *)
(** * Part II: theorems *)
(* ================================================================== *)

(** ** Lists and the numpy fragment *)

Lemma Ok_inj {X : Type} (a b : X) : Ok a = Ok b -> a = b.
Proof. now intros [= ->]. Qed.

Lemma sequence_map_Ok {X : Type} (l : list X) : sequence (map Ok l) = Ok l.
Proof.
  induction l as [|a l IH]; simpl; [reflexivity|]. now rewrite IH.
Qed.

Lemma roll1_length {A} (l : list A) (s : Z) : length (roll1 l s) = length l.
Proof.
  destruct l as [|a t]; [reflexivity|].
  unfold roll1. rewrite length_app, length_skipn, length_firstn. lia.
Qed.

Lemma wrap_lt (n : nat) (k : Z) : 0 < n -> wrap n k < n.
Proof.
  intros Hn. unfold wrap.
  pose proof (Z.mod_pos_bound k (Z.of_nat n) ltac:(lia)). lia.
Qed.

Lemma wrap_small (n i : nat) : i < n -> wrap n (Z.of_nat i) = i.
Proof.
  intros Hi. unfold wrap. rewrite Z.mod_small by lia. lia.
Qed.

(** Entry [i] of a rolled axis is entry [i - shift] of the input, modulo
    the length. *)
Lemma nth_roll1 {A} (l : list A) (s : Z) (i : nat) (d : A) :
  i < length l ->
  nth i (roll1 l s) d = nth (wrap (length l) (Z.of_nat i - s)) l d.
Proof.
  intros Hi. destruct l as [|a t]; [simpl in Hi; lia|].
  unfold roll1, wrap.
  set (l := a :: t) in *. set (n := length l) in *.
  assert (Hn : (0 < Z.of_nat n)%Z) by lia.
  pose proof (Z.mod_pos_bound s (Z.of_nat n) Hn) as Hk.
  pose proof (Z.div_mod s (Z.of_nat n) ltac:(lia)) as Hs.
  set (k := (s mod Z.of_nat n)%Z) in *.
  destruct (Nat.lt_ge_cases i (Z.to_nat k)) as [Hlt|Hge].
  - rewrite app_nth1 by (rewrite length_skipn; fold n; lia).
    rewrite nth_skipn. f_equal.
    replace (Z.of_nat i - s)%Z
      with ((Z.of_nat i - k + Z.of_nat n) + (- (s / Z.of_nat n) - 1) * Z.of_nat n)%Z
      by lia.
    rewrite Z.mod_add by lia. rewrite Z.mod_small by lia. lia.
  - rewrite app_nth2 by (rewrite length_skipn; fold n; lia).
    rewrite length_skipn. fold n.
    rewrite nth_firstn.
    replace (i - (n - (n - Z.to_nat k)) <? n - Z.to_nat k) with true
      by (symmetry; apply Nat.ltb_lt; lia).
    f_equal.
    replace (Z.of_nat i - s)%Z
      with ((Z.of_nat i - k) + (- (s / Z.of_nat n)) * Z.of_nat n)%Z by lia.
    rewrite Z.mod_add by lia. rewrite Z.mod_small by lia. lia.
Qed.

Lemma zip_with_length {A B C} (f : A -> B -> C) (xs : list A) (ys : list B) :
  length xs = length ys -> length (zip_with f xs ys) = length xs.
Proof.
  revert ys. induction xs as [|x xs IH]; intros [|y ys]; simpl; intros H;
    try reflexivity; try discriminate.
  f_equal. apply IH. lia.
Qed.

Lemma nth_zip_with {A B C} (f : A -> B -> C) (xs : list A) (ys : list B)
    (i : nat) (dx : A) (dy : B) (dz : C) :
  length xs = length ys -> i < length xs ->
  nth i (zip_with f xs ys) dz = f (nth i xs dx) (nth i ys dy).
Proof.
  revert ys i. induction xs as [|x xs IH]; intros [|y ys] i; simpl; intros H Hi;
    try lia.
  destruct i as [|i]; [reflexivity|]. apply IH; lia.
Qed.

Lemma zip_with_Ok {A B C} (f : A -> B -> C) (xs : list A) (ys : list B) :
  zip_with (fun x y => Ok (f x y)) xs ys = map Ok (zip_with f xs ys).
Proof.
  revert ys. induction xs as [|x xs IH]; intros [|y ys]; simpl; try reflexivity.
  now rewrite IH.
Qed.

(** Two rows of the same length combine without broadcasting. *)
Lemma broadcast1_row {A B C} (f : A -> B -> C) (xs : list A) (ys : list B) :
  length xs = length ys ->
  broadcast1 (fun x y => Ok (f x y)) xs ys = Ok (zip_with f xs ys).
Proof.
  intros H. unfold broadcast1. rewrite H, Nat.eqb_refl.
  now rewrite zip_with_Ok, sequence_map_Ok.
Qed.

Lemma sequence_rows {A B C} (f : A -> B -> C) (a : grid A) (b : grid B) (m : nat) :
  length a = length b ->
  Forall (fun row => length row = m) a ->
  Forall (fun row => length row = m) b ->
  sequence (zip_with (broadcast1 (fun x y => Ok (f x y))) a b)
  = Ok (zip_with (zip_with f) a b).
Proof.
  revert b. induction a as [|ra a IH]; intros [|rb b]; simpl; intros H Ha Hb;
    try reflexivity; try discriminate.
  inversion Ha; subst. inversion Hb; subst.
  rewrite broadcast1_row by congruence.
  rewrite IH by (auto; lia). reflexivity.
Qed.

(** On two arrays of the same shape, an elementwise operation succeeds and
    pairs the cells up. *)
Lemma ew_same_shape {A B C} (f : A -> B -> C) (a : grid A) (b : grid B) (n m : nat) :
  has_shape n m a -> has_shape n m b ->
  ew f a b = Ok (zip_with (zip_with f) a b).
Proof.
  intros [Ha1 Ha2] [Hb1 Hb2]. unfold ew, broadcast1 at 1.
  replace (length a =? length b) with true
    by (symmetry; apply Nat.eqb_eq; congruence).
  apply sequence_rows with (m := m); auto; congruence.
Qed.

Lemma zip_with_shape {A B C} (f : A -> B -> C) (a : grid A) (b : grid B) (n m : nat) :
  has_shape n m a -> has_shape n m b ->
  has_shape n m (zip_with (zip_with f) a b).
Proof.
  intros [Ha1 Ha2] [Hb1 Hb2]. split.
  - rewrite zip_with_length; congruence.
  - clear Ha1 Hb1. revert b Hb2.
    induction a as [|ra a IH]; intros [|rb b] Hb2; simpl; try constructor.
    + inversion Ha2; subst. inversion Hb2; subst.
      rewrite zip_with_length; congruence.
    + inversion Ha2; subst. inversion Hb2; subst. apply IH; auto.
Qed.

Lemma has_shape_row {A} (n m : nat) (z : grid A) (i : nat) :
  has_shape n m z -> i < n -> length (nth i z []) = m.
Proof.
  intros [H1 H2] Hi. rewrite Forall_forall in H2. apply H2, nth_In. lia.
Qed.

Lemma roll_shape {A} (n m : nat) (z : grid A) (s : Z) (ax : axis) :
  has_shape n m z -> has_shape n m (roll z s ax).
Proof.
  intros [H1 H2]. destruct ax; simpl; split.
  - now rewrite roll1_length.
  - rewrite Forall_forall in *. intros row Hrow.
    destruct (In_nth _ _ [] Hrow) as (i & Hi & <-).
    rewrite roll1_length in Hi. rewrite nth_roll1 by exact Hi.
    apply H2, nth_In, wrap_lt. lia.
  - now rewrite length_map.
  - rewrite Forall_forall in *. intros row Hrow.
    apply in_map_iff in Hrow. destruct Hrow as (row' & <- & Hin).
    rewrite roll1_length. now apply H2.
Qed.

Lemma cell_roll0 {A} (d : A) (n m : nat) (z : grid A) (s : Z) (i j : nat) :
  has_shape n m z -> i < n ->
  cell d (roll z s axis0) i j = cell d z (wrap n (Z.of_nat i - s)) j.
Proof.
  intros [H1 H2] Hi. unfold cell. simpl.
  rewrite nth_roll1 by lia. now rewrite H1.
Qed.

Lemma cell_roll1 {A} (d : A) (n m : nat) (z : grid A) (s : Z) (i j : nat) :
  has_shape n m z -> i < n -> j < m ->
  cell d (roll z s axis1) i j = cell d z i (wrap m (Z.of_nat j - s)).
Proof.
  intros Hz Hi Hj. unfold cell. simpl.
  change (@nil A) with ((fun row : list A => roll1 row s) []) at 1.
  rewrite map_nth.
  pose proof (has_shape_row Hz Hi) as Hrow.
  rewrite nth_roll1 by lia. now rewrite Hrow.
Qed.

Lemma cell_zip_with {A B C} (f : A -> B -> C) (da : A) (db : B) (dc : C)
    (n m : nat) (a : grid A) (b : grid B) (i j : nat) :
  has_shape n m a -> has_shape n m b -> i < n -> j < m ->
  cell dc (zip_with (zip_with f) a b) i j = f (cell da a i j) (cell db b i j).
Proof.
  intros Ha Hb Hi Hj. unfold cell.
  pose proof (has_shape_row Ha Hi) as Ra.
  pose proof (has_shape_row Hb Hi) as Rb.
  destruct Ha as [Ha1 Ha2], Hb as [Hb1 Hb2].
  rewrite (nth_zip_with (zip_with f) a b [] [] []) by lia.
  apply nth_zip_with; lia.
Qed.

Lemma ew1_shape {A B} (f : A -> B) (n m : nat) (a : grid A) :
  has_shape n m a -> has_shape n m (ew1 f a).
Proof.
  intros [H1 H2]. unfold ew1. split.
  - now rewrite length_map.
  - rewrite Forall_forall in *. intros row Hrow.
    apply in_map_iff in Hrow. destruct Hrow as (row' & <- & Hin).
    rewrite length_map. now apply H2.
Qed.

Lemma cell_ew1 {A B} (f : A -> B) (da : A) (db : B) (n m : nat)
    (a : grid A) (i j : nat) :
  has_shape n m a -> i < n -> j < m ->
  cell db (ew1 f a) i j = f (cell da a i j).
Proof.
  intros Ha Hi Hj. unfold cell, ew1.
  pose proof (has_shape_row Ha Hi) as Ra. destruct Ha as [Ha1 Ha2].
  rewrite (nth_indep _ [] (map f [])) by (rewrite length_map; lia).
  rewrite map_nth.
  rewrite (nth_indep _ db (f da)) by (rewrite length_map; lia).
  now rewrite map_nth.
Qed.

(** Two arrays of one shape with the same cells are the same array. *)
Lemma grid_ext {A} (d : A) (n m : nat) (a b : grid A) :
  has_shape n m a -> has_shape n m b ->
  (forall i j, i < n -> j < m -> cell d a i j = cell d b i j) ->
  a = b.
Proof.
  intros Ha Hb H.
  apply (nth_ext a b [] []); [destruct Ha, Hb; congruence|].
  intros i Hi. assert (Hin : i < n) by (destruct Ha; lia).
  apply (nth_ext _ _ d d).
  - now rewrite (has_shape_row Ha Hin), (has_shape_row Hb Hin).
  - intros j Hj. rewrite (has_shape_row Ha Hin) in Hj. now apply H.
Qed.

(** *** Indexed maps, blocks and constant arrays *)

Lemma imap_from_length {A B} (f : nat -> A -> B) (l : list A) (k : nat) :
  length (imap_from k f l) = length l.
Proof.
  revert k. induction l as [|x l IH]; intros k; simpl; [reflexivity|].
  now rewrite IH.
Qed.

Lemma nth_imap_from {A B} (f : nat -> A -> B) (l : list A) (k i : nat)
    (da : A) (db : B) :
  i < length l ->
  nth i (imap_from k f l) db = f (k + i) (nth i l da).
Proof.
  revert k i. induction l as [|x l IH]; intros k i Hi; simpl in *; [lia|].
  destruct i as [|i].
  - now rewrite Nat.add_0_r.
  - rewrite (IH (S k) i) by lia. f_equal. lia.
Qed.

Lemma nth_imap {A B} (f : nat -> A -> B) (l : list A) (i : nat)
    (da : A) (db : B) :
  i < length l -> nth i (imap f l) db = f i (nth i l da).
Proof.
  intros Hi. unfold imap. now rewrite (nth_imap_from f l 0 da db Hi).
Qed.

Lemma full_shape {A} (n m : nat) (v : A) : has_shape n m (full n m v).
Proof.
  unfold full. split; [apply repeat_length|].
  apply Forall_forall. intros row Hrow.
  apply repeat_spec in Hrow. subst row. apply repeat_length.
Qed.

Lemma cell_full {A} (d v : A) (n m i j : nat) :
  i < n -> j < m -> cell d (full n m v) i j = v.
Proof.
  intros Hi Hj. unfold cell, full.
  rewrite (nth_indep _ [] (repeat v m)) by (rewrite repeat_length; lia).
  rewrite nth_repeat. rewrite (nth_indep _ d v) by (rewrite repeat_length; lia).
  apply nth_repeat.
Qed.

Lemma set_block_shape {A} (n m : nat) (z : grid A) (a b : Z) (v : A) :
  has_shape n m z -> has_shape n m (set_block z a b v).
Proof.
  intros Hz. pose proof Hz as [H1 H2]. unfold set_block. split.
  - unfold imap. now rewrite imap_from_length.
  - apply Forall_forall. intros row Hrow.
    destruct (In_nth _ _ [] Hrow) as (i & Hi & <-).
    unfold imap in Hi. rewrite imap_from_length in Hi.
    rewrite (nth_imap _ z [] [] Hi).
    assert (Hr : length (nth i z []) = m) by (apply (has_shape_row Hz); lia).
    destruct (in_slice (length z) a b i); [|exact Hr].
    unfold imap. now rewrite imap_from_length.
Qed.

(** The cells of [z] after [z[a:b, a:b] = v]. *)
Lemma cell_set_block {A} (d : A) (n m : nat) (z : grid A) (a b : Z) (v : A)
    (i j : nat) :
  has_shape n m z -> i < n -> j < m ->
  cell d (set_block z a b v) i j =
  if in_slice n a b i && in_slice m a b j then v else cell d z i j.
Proof.
  intros Hz Hi Hj. pose proof Hz as [H1 H2]. unfold cell, set_block.
  assert (Hi' : i < length z) by lia.
  rewrite (nth_imap _ z [] [] Hi').
  pose proof (has_shape_row Hz Hi) as Hr.
  rewrite H1, Hr.
  destruct (in_slice n a b i); simpl; [|reflexivity].
  assert (Hj' : j < length (nth i z [])) by lia.
  rewrite (nth_imap _ _ d d Hj'). reflexivity.
Qed.

(** A slice with bounds inside the axis selects the indices between them. *)
Lemma in_slice_inside (n : nat) (a b : Z) (i : nat) :
  (0 <= a)%Z -> (a <= b)%Z -> (b <= Z.of_nat n)%Z ->
  in_slice n a b i = true <-> (a <= Z.of_nat i < b)%Z.
Proof.
  intros Ha Hab Hb. unfold in_slice, slice_bound.
  replace (a <? 0)%Z with false by (symmetry; apply Z.ltb_ge; lia).
  replace (b <? 0)%Z with false by (symmetry; apply Z.ltb_ge; lia).
  rewrite andb_true_iff, Nat.leb_le, Nat.ltb_lt. lia.
Qed.

Lemma nth_map_lt {A B} (f : A -> B) (l : list A) (i : nat) (da : A) (db : B) :
  i < length l -> nth i (map f l) db = f (nth i l da).
Proof.
  intros Hi. rewrite (nth_indep _ db (f da)) by (rewrite length_map; lia).
  apply map_nth.
Qed.

Lemma ncols_shape {A} (n m : nat) (z : grid A) :
  has_shape n m z -> 0 < n -> ncols z = m.
Proof.
  intros [H1 H2] Hn. destruct z as [|row z]; simpl in *; [lia|].
  now inversion H2.
Qed.

(** *** Broadcasting on arrays of any shape *)

Lemma sequence_map_all_ok {X Y} (h : X -> result Y) (P : Y -> Prop) (l : list X) :
  (forall x, In x l -> exists y, h x = Ok y /\ P y) ->
  exists ys, sequence (map h l) = Ok ys /\ length ys = length l /\ Forall P ys.
Proof.
  induction l as [|x l IH]; intros H; simpl.
  - exists []. repeat split. constructor.
  - destruct (H x (or_introl eq_refl)) as (y & -> & Py).
    destruct IH as (ys & -> & Hl & HP); [intros x' Hx'; apply H; now right|].
    exists (y :: ys). simpl. repeat split; [lia|now constructor].
Qed.

Lemma sequence_map_all_raise {X Y} (h : X -> result Y) (e : exn) (l : list X) :
  l <> [] -> (forall x, In x l -> h x = Raise e) ->
  sequence (map h l) = Raise e.
Proof.
  destruct l as [|x l]; [congruence|]. intros _ H. simpl.
  now rewrite (H x (or_introl eq_refl)).
Qed.

Lemma zip_with_combine {X Y W} (h : X -> Y -> W) (xs : list X) (ys : list Y) :
  zip_with h xs ys = map (fun q => h (fst q) (snd q)) (combine xs ys).
Proof.
  revert ys. induction xs as [|x xs IH]; intros [|y ys]; simpl; try reflexivity.
  now rewrite IH.
Qed.

(** One axis: two rows combine according to [bcast_dim]. *)
Lemma broadcast1_row_spec {A B C} (f : A -> B -> C) (xs : list A) (ys : list B) :
  match bcast_dim (length xs) (length ys) with
  | Some k => exists l, broadcast1 (fun x y => Ok (f x y)) xs ys = Ok l /\ length l = k
  | None => broadcast1 (fun x y => Ok (f x y)) xs ys = Raise ValueError
  end.
Proof.
  unfold bcast_dim, broadcast1.
  destruct (length xs =? length ys) eqn:E.
  - apply Nat.eqb_eq in E. rewrite zip_with_Ok, sequence_map_Ok.
    eexists. split; [reflexivity|]. now apply zip_with_length.
  - apply Nat.eqb_neq in E.
    destruct xs as [|x [|x' xs]]; simpl length in *.
    + destruct ys as [|y [|y' ys]]; simpl in *; try lia.
      * eexists. split; reflexivity.
      * reflexivity.
    + simpl. rewrite <- (map_map (f x) Ok), sequence_map_Ok.
      eexists. split; [reflexivity|]. now rewrite length_map.
    + destruct ys as [|y [|y' ys]]; simpl (length _) in *; simpl (_ =? _).
      * reflexivity.
      * rewrite <- (map_map (fun x => f x y) Ok), sequence_map_Ok.
        eexists. split; [reflexivity|]. now rewrite length_map.
      * reflexivity.
Qed.

Lemma has_shape_rect {A} (n m : nat) (z : grid A) :
  has_shape (S n) m z -> rect z /\ shape z = (S n, m).
Proof.
  intros Hz. pose proof (ncols_shape Hz ltac:(lia)) as Hm.
  pose proof Hz as [Hl _]. unfold rect, shape. rewrite Hl, Hm. now split.
Qed.

Lemma rect_nil {A} : rect (@nil (list A)) /\ shape (@nil (list A)) = (0, 0).
Proof. split; [split; [reflexivity|constructor]|reflexivity]. Qed.

(** A list of row operations that all behave alike. *)
Lemma rows_outcome {X C} (h : X -> result (list C)) (l : list X) (mo : option nat) :
  (forall x, In x l ->
     match mo with
     | Some m => exists y, h x = Ok y /\ length y = m
     | None => h x = Raise ValueError
     end) ->
  match length l with
  | 0 => sequence (map h l) = Ok []
  | S k =>
      match mo with
      | Some m => exists c, sequence (map h l) = Ok c /\ has_shape (S k) m c
      | None => sequence (map h l) = Raise ValueError
      end
  end.
Proof.
  intros H. destruct l as [|x t]; [reflexivity|].
  set (l := x :: t) in *.
  assert (Hne : l <> []) by discriminate.
  change (length l) with (S (length t)).
  destruct mo as [m|].
  - destruct (@sequence_map_all_ok X (list C) h (fun y => length y = m) l H)
      as (ys & E & Hl & HP).
    exists ys. split; [exact E|]. split; [|exact HP].
    rewrite Hl. reflexivity.
  - now apply sequence_map_all_raise.
Qed.

(** Elementwise operations on rectangular arrays follow [bcast_shape]. *)
Lemma ew_shape {A B C} (f : A -> B -> C) (a : grid A) (b : grid B) :
  rect a -> rect b ->
  match bcast_shape (shape a) (shape b) with
  | Some sh => exists c, ew f a b = Ok c /\ rect c /\ shape c = sh
  | None => ew f a b = Raise ValueError
  end.
Proof.
  intros [_ Ha] [_ Hb]. rewrite Forall_forall in Ha, Hb.
  set (rowop := broadcast1 (fun x y => Ok (f x y))).
  assert (Hrow : forall ra rb, In ra a -> In rb b ->
            match bcast_dim (ncols a) (ncols b) with
            | Some m => exists y, rowop ra rb = Ok y /\ length y = m
            | None => rowop ra rb = Raise ValueError
            end).
  { intros ra rb Hra Hrb.
    pose proof (broadcast1_row_spec f ra rb) as H.
    now rewrite (Ha ra Hra), (Hb rb Hrb) in H. }
  assert (Fin : forall (l : list (list C)) k m,
            has_shape (S k) m l -> exists c, Ok l = Ok c /\ rect c /\ shape c = (S k, m)).
  { intros l k m Hl. exists l. split; [reflexivity|]. now apply has_shape_rect. }
  unfold ew, bcast_shape, shape, bcast_dim at 1. cbn [fst snd]. fold rowop.
  unfold broadcast1.
  destruct (length a =? length b) eqn:E.
  - apply Nat.eqb_eq in E. rewrite zip_with_combine.
    pose proof (@rows_outcome _ C (fun q => rowop (fst q) (snd q)) (combine a b)
                  (bcast_dim (ncols a) (ncols b))) as H.
    rewrite length_combine, <- E, Nat.min_id in H.
    destruct (length a) as [|k].
    + rewrite H; [|intros [ra rb] Hin; apply Hrow;
                    [eapply in_combine_l|eapply in_combine_r]; eassumption].
      exists []. split; [reflexivity|]. apply rect_nil.
    + specialize (H ltac:(intros [ra rb] Hin; apply Hrow;
                    [eapply in_combine_l|eapply in_combine_r]; eassumption)).
      destruct (bcast_dim (ncols a) (ncols b)) as [m|]; [|exact H].
      destruct H as (c & -> & Hc). now apply Fin.
  - apply Nat.eqb_neq in E.
    destruct a as [|x [|x' a']].
    + (* a has no row *)
      destruct b as [|y [|y' b']]; simpl in E; try lia.
      * simpl. pose proof (@rows_outcome _ C (fun ra : list A => rowop ra y) []
                             (bcast_dim 0 (length y))) as H.
        exists []. split; [reflexivity|]. apply rect_nil.
      * reflexivity.
    + (* a has one row *)
      pose proof (@rows_outcome _ C (rowop x) b
                    (bcast_dim (ncols [x]) (ncols b))) as H.
      specialize (H ltac:(intros rb Hin; apply Hrow; [now left|exact Hin])).
      simpl (length [x]) in *. simpl (1 =? 1).
      destruct (length b) as [|k].
      * rewrite H. exists []. split; [reflexivity|]. apply rect_nil.
      * destruct (bcast_dim (ncols [x]) (ncols b)) as [m|]; [|exact H].
        destruct H as (c & -> & Hc). now apply Fin.
    + (* a has at least two rows *)
      destruct b as [|y [|y' b']]; simpl (length _) in *; simpl (_ =? _).
      * reflexivity.
      * pose proof (@rows_outcome _ C (fun ra => rowop ra y) (x :: x' :: a')
                      (bcast_dim (ncols (x :: x' :: a')) (ncols [y]))) as H.
        specialize (H ltac:(intros ra Hin; apply Hrow; [exact Hin|now left])).
        simpl (length _) in H.
        destruct (bcast_dim (ncols (x :: x' :: a')) (ncols [y])) as [m|];
          [|exact H].
        destruct H as (c & -> & Hc). now apply Fin.
      * reflexivity.
Qed.

(** *** Arithmetic of shapes *)

Ltac eqb_cases :=
  repeat match goal with
         | |- context [?x =? ?y] => destruct (Nat.eqb_spec x y); subst
         | H : context [?x =? ?y] |- _ => destruct (Nat.eqb_spec x y); subst
         end.

Lemma bcast_dim_absorb (a b c : nat) :
  bcast_dim a b = Some c ->
  bcast_dim a c = Some c /\ bcast_dim c a = Some c /\
  bcast_dim b c = Some c /\ bcast_dim c b = Some c.
Proof.
  unfold bcast_dim. intros H. eqb_cases; try discriminate;
    inversion H; subst; clear H; repeat split; eqb_cases;
    try reflexivity; try lia; try congruence.
Qed.

Lemma shape_normal {A} (z : grid A) : normal (shape z).
Proof. unfold normal, shape. destruct z; simpl; [reflexivity|discriminate]. Qed.

Lemma bcast_dim_zero (a b : nat) :
  bcast_dim a b = Some 0 -> (a = 0 \/ a = 1) /\ (b = 0 \/ b = 1).
Proof.
  unfold bcast_dim. intros H. eqb_cases; try discriminate;
    inversion H; subst; lia.
Qed.

Lemma bcast_dim_succ (a b k : nat) :
  bcast_dim a b = Some (S k) -> a <> 0 /\ b <> 0.
Proof.
  unfold bcast_dim. intros H. eqb_cases; try discriminate;
    inversion H; subst; lia.
Qed.

Lemma bcast_shape_absorb (s1 s2 b : nat * nat) :
  normal s1 -> normal s2 ->
  bcast_shape s1 s2 = Some b ->
  bcast_shape s1 b = Some b /\ bcast_shape b s1 = Some b /\
  bcast_shape s2 b = Some b /\ bcast_shape b s2 = Some b.
Proof.
  destruct s1 as [n1 m1], s2 as [n2 m2]. unfold normal, bcast_shape. cbn [fst snd].
  intros N1 N2 H.
  destruct (bcast_dim n1 n2) as [[|k]|] eqn:En; [| |discriminate].
  - injection H as <-. cbn [fst snd].
    destruct (@bcast_dim_absorb _ _ _ En) as (E1 & E2 & E3 & E4).
    now rewrite E1, E2, E3, E4.
  - destruct (bcast_dim m1 m2) as [m|] eqn:Em; [|discriminate].
    injection H as <-. cbn [fst snd].
    destruct (@bcast_dim_absorb _ _ _ En) as (E1 & E2 & E3 & E4).
    destruct (@bcast_dim_absorb _ _ _ Em) as (F1 & F2 & F3 & F4).
    now rewrite E1, E2, E3, E4, F1, F2, F3, F4.
Qed.

Lemma has_shape_normal {A} (n m : nat) (z : grid A) :
  has_shape n m z -> (n = 0 -> m = 0) -> rect z /\ shape z = (n, m).
Proof.
  intros Hz Hn. destruct n as [|n]; [|now apply has_shape_rect].
  destruct Hz as [Hl _]. destruct z; [|discriminate].
  rewrite (Hn eq_refl). apply rect_nil.
Qed.

Lemma rect_shape_of {A B} (a : grid A) (c : grid B) :
  rect a -> has_shape (length a) (ncols a) c -> rect c /\ shape c = shape a.
Proof.
  intros Ha Hc. apply has_shape_normal; [exact Hc|].
  intros H0. now destruct a.
Qed.

Lemma ew1_rect {A B} (f : A -> B) (a : grid A) :
  rect a -> rect (ew1 f a) /\ shape (ew1 f a) = shape a.
Proof.
  intros Ha. apply rect_shape_of; [exact Ha|]. now apply ew1_shape.
Qed.

Lemma shape_eqb_spec {A B} (c : grid A) (a : grid B) :
  (length c =? length a) && (ncols c =? ncols a) = true <-> shape c = shape a.
Proof.
  unfold shape. rewrite andb_true_iff, !Nat.eqb_eq. split.
  - intros [-> ->]. reflexivity.
  - intros [= -> ->]. now split.
Qed.

(** In-place arithmetic on rectangular arrays. *)
Lemma inplace_shape {A B} (f : A -> B -> A) (a : grid A) (b : grid B) :
  rect a -> rect b ->
  match bcast_shape (shape a) (shape b) with
  | Some sh =>
      (sh = shape a ->
       exists c, inplace f a b = Ok c /\ rect c /\ shape c = shape a) /\
      (sh <> shape a -> inplace f a b = Raise ValueError)
  | None => inplace f a b = Raise ValueError
  end.
Proof.
  intros Ha Hb. pose proof (ew_shape f Ha Hb) as H. unfold inplace.
  destruct (bcast_shape (shape a) (shape b)) as [sh|]; [|now rewrite H].
  destruct H as (c & -> & Hc & Hsh). cbn [rbind]. split.
  - intros E. rewrite E in Hsh.
    rewrite (proj2 (shape_eqb_spec c a) Hsh). now exists c.
  - intros E. destruct ((length c =? length a) && (ncols c =? ncols a)) eqn:Eb;
      [|reflexivity].
    apply shape_eqb_spec in Eb. congruence.
Qed.

(** *** Broadcasting by stretching *)

Lemma zip_with_repeat_r {A B C} (f : A -> B -> C) (xs : list A) (y : B) :
  zip_with f xs (repeat y (length xs)) = map (fun x => f x y) xs.
Proof. induction xs as [|x xs IH]; simpl; [reflexivity|now rewrite IH]. Qed.

Lemma zip_with_map_r {A B B' C} (f : A -> B' -> C) (h : B -> B')
    (xs : list A) (ys : list B) :
  zip_with (fun x y => f x (h y)) xs ys = zip_with f xs (map h ys).
Proof.
  revert ys. induction xs as [|x xs IH]; intros [|y ys]; simpl; try reflexivity.
  now rewrite IH.
Qed.

Lemma zip_with_diag {A C} (f : A -> A -> C) (xs : list A) :
  zip_with f xs xs = map (fun x => f x x) xs.
Proof. induction xs as [|x xs IH]; simpl; [reflexivity|now rewrite IH]. Qed.

Lemma stretch1_map {A B} (h : A -> B) (n : nat) (l : list A) :
  stretch1 n (map h l) = map h (stretch1 n l).
Proof.
  destruct l as [|x [|x' l]]; simpl; try reflexivity.
  now rewrite map_repeat.
Qed.

Lemma stretch1_length {A} (n : nat) (l : list A) :
  bcast_dim n (length l) = Some n -> length (stretch1 n l) = n.
Proof.
  unfold bcast_dim. intros H.
  destruct l as [|x [|x' l]]; simpl in *.
  - destruct n as [|[|n]]; simpl in H; congruence.
  - apply repeat_length.
  - destruct (Nat.eqb_spec n (S (S (length l)))) as [->|Hn]; [reflexivity|].
    destruct (Nat.eqb_spec n 1); [injection H as H; lia|discriminate].
Qed.

Lemma sequence_zip_with_Ok {A B C} (h : A -> B -> result C) (f : A -> B -> C)
    (xs : list A) (ys : list B) :
  (forall x y, In x xs -> In y ys -> h x y = Ok (f x y)) ->
  sequence (zip_with h xs ys) = Ok (zip_with f xs ys).
Proof.
  revert ys. induction xs as [|x xs IH]; intros [|y ys] H; simpl; try reflexivity.
  rewrite (H x y (or_introl eq_refl) (or_introl eq_refl)).
  rewrite IH; [reflexivity|].
  intros x' y' Hx Hy. apply H; now right.
Qed.

Lemma sequence_map_Ok_on {A C} (h : A -> result C) (f : A -> C) (xs : list A) :
  (forall x, In x xs -> h x = Ok (f x)) ->
  sequence (map h xs) = Ok (map f xs).
Proof.
  induction xs as [|x xs IH]; intros H; simpl; [reflexivity|].
  rewrite (H x (or_introl eq_refl)), IH; [reflexivity|].
  intros x' Hx. apply H. now right.
Qed.

(** One axis, when the second operand is stretched to the first. *)
Lemma broadcast1_stretch {A B C} (h : A -> B -> result C) (f : A -> B -> C)
    (xs : list A) (ys : list B) :
  (forall x y, In x xs -> In y ys -> h x y = Ok (f x y)) ->
  bcast_dim (length xs) (length ys) = Some (length xs) ->
  broadcast1 h xs ys = Ok (zip_with f xs (stretch1 (length xs) ys)).
Proof.
  intros H Hb. unfold broadcast1, bcast_dim in *.
  destruct (Nat.eqb_spec (length xs) (length ys)) as [E|E].
  - rewrite (sequence_zip_with_Ok h f xs ys H). do 2 f_equal.
    destruct ys as [|y [|y' ys]]; simpl in *; try reflexivity.
    now rewrite E.
  - destruct (Nat.eqb_spec (length xs) 1) as [E1|E1];
      [injection Hb as Hb; lia|].
    destruct (Nat.eqb_spec (length ys) 1) as [E2|E2]; [|discriminate].
    destruct ys as [|y [|y' ys]]; simpl in E2; try lia.
    destruct xs as [|x [|x' xs]]; [reflexivity|simpl in E1; lia|].
    set (l := x :: x' :: xs) in *. cbn [stretch1].
    rewrite zip_with_repeat_r.
    apply sequence_map_Ok_on. intros a Ha. apply H; [exact Ha|now left].
Qed.

Lemma bcast_shape_to_first (sa sb : nat * nat) :
  bcast_shape sa sb = Some sa ->
  bcast_dim (fst sa) (fst sb) = Some (fst sa) /\
  (0 < fst sa -> bcast_dim (snd sa) (snd sb) = Some (snd sa)).
Proof.
  destruct sa as [n m], sb as [n' m']. unfold bcast_shape. cbn [fst snd].
  destruct (bcast_dim n n') as [[|k]|] eqn:En; [| |discriminate].
  - intros [= <- <-]. split; [reflexivity|lia].
  - destruct (bcast_dim m m') as [m0|] eqn:Em; [|discriminate].
    intros [= <- <-]. split; [reflexivity|]. intros _. reflexivity.
Qed.

(** Two arrays, when the second is stretched to the shape of the first. *)
Lemma ew_stretch {A B C} (f : A -> B -> C) (a : grid A) (b : grid B) :
  rect a -> rect b ->
  bcast_shape (shape a) (shape b) = Some (shape a) ->
  ew f a b = Ok (zip_with (zip_with f) a (broadcast_to (length a) (ncols a) b)).
Proof.
  intros [_ Ha] [_ Hb] Hs. rewrite Forall_forall in Ha, Hb.
  destruct (@bcast_shape_to_first _ _ Hs) as [Hn Hm]. unfold shape in Hn, Hm.
  cbn [fst snd] in Hn, Hm.
  unfold ew, broadcast_to.
  rewrite (@broadcast1_stretch _ _ _ _
             (fun ra rb => zip_with f ra (stretch1 (ncols a) rb)) a b).
  - now rewrite zip_with_map_r, stretch1_map.
  - intros ra rb Hra Hrb.
    assert (Hpos : 0 < length a) by (destruct a; [destruct Hra|simpl; lia]).
    rewrite (@broadcast1_stretch _ _ _ _ f ra rb).
    + now rewrite (Ha ra Hra).
    + reflexivity.
    + rewrite (Ha ra Hra), (Hb rb Hrb). now apply Hm.
  - exact Hn.
Qed.

Lemma broadcast_to_shape {A} (n m : nat) (z : grid A) :
  rect z ->
  bcast_dim n (length z) = Some n ->
  (0 < n -> bcast_dim m (ncols z) = Some m) ->
  has_shape n m (broadcast_to n m z).
Proof.
  intros [_ Hz] Hn Hm. rewrite Forall_forall in Hz. unfold broadcast_to.
  split.
  - apply stretch1_length. now rewrite length_map.
  - destruct n as [|n].
    + pose proof (@stretch1_length _ 0 (map (stretch1 m) z)) as H0.
      rewrite length_map in H0. specialize (H0 Hn).
      destruct (stretch1 0 (map (stretch1 m) z)); [constructor|discriminate].
    + specialize (Hm ltac:(lia)).
      assert (Hrows : Forall (fun row => length row = m) (map (stretch1 m) z)).
      { apply Forall_forall. intros row Hrow. apply in_map_iff in Hrow.
        destruct Hrow as (rb & <- & Hin). apply stretch1_length.
        now rewrite (Hz rb Hin). }
      destruct (map (stretch1 m) z) as [|row [|row' t]] eqn:E; cbn [stretch1].
      * constructor.
      * inversion Hrows; subst. apply Forall_forall. intros x Hx.
        apply repeat_spec in Hx. now subst.
      * exact Hrows.
Qed.

Lemma broadcast_to_ew1 {A B} (h : A -> B) (n m : nat) (z : grid A) :
  broadcast_to n m (ew1 h z) = ew1 h (broadcast_to n m z).
Proof.
  unfold broadcast_to, ew1.
  rewrite <- stretch1_map. f_equal. rewrite !map_map.
  apply map_ext. intros row. apply stretch1_map.
Qed.

Lemma zip_with_grid_diag {A C} (f : A -> A -> C) (z : grid A) :
  zip_with (zip_with f) z z = ew1 (fun x => f x x) z.
Proof.
  unfold ew1. rewrite zip_with_diag. apply map_ext. intros row.
  apply zip_with_diag.
Qed.

(** ** The model on small inputs *)

Module Examples.

Import Inputs.

Example roll_forward : roll1 [1; 2; 3; 4] 1 = [4; 1; 2; 3].
Proof. reflexivity. Qed.

Example roll_backward : roll1 [1; 2; 3; 4] (-1) = [2; 3; 4; 1].
Proof. reflexivity. Qed.

Example roll_more_than_length : roll1 [1; 2; 3; 4] 6 = [3; 4; 1; 2].
Proof. reflexivity. Qed.

Example roll_rows : roll [[1; 2]; [3; 4]; [5; 6]] 1 axis0 = [[5; 6]; [1; 2]; [3; 4]].
Proof. reflexivity. Qed.

Example roll_columns : roll [[1; 2; 3]; [4; 5; 6]] (-1) axis1 = [[2; 3; 1]; [5; 6; 4]].
Proof. reflexivity. Qed.

Example block_assignment :
  set_block (full 4 4 0) 1 3 7
  = [[0; 0; 0; 0]; [0; 7; 7; 0]; [0; 7; 7; 0]; [0; 0; 0; 0]].
Proof. reflexivity. Qed.

(** A negative start counts from the end: [z[-1:3, -1:3]] is empty here. *)
Example block_negative_start : set_block (full 4 4 0) (-1) 3 7 = full 4 4 0.
Proof. reflexivity. Qed.

Example broadcast_row : ew Nat.add [[1; 2]; [3; 4]] [[10; 20]] = Ok [[11; 22]; [13; 24]].
Proof. reflexivity. Qed.

Example broadcast_column : ew Nat.add [[1; 2]; [3; 4]] [[10]; [20]] = Ok [[11; 12]; [23; 24]].
Proof. reflexivity. Qed.

Example broadcast_fails : ew Nat.add [[1; 2]; [3; 4]] [[10; 20; 30]] = Raise ValueError.
Proof. reflexivity. Qed.

Example inplace_cannot_grow : inplace Nat.add [[1; 2]] [[10; 20]; [30; 40]] = Raise ValueError.
Proof. reflexivity. Qed.

(** The Laplacian of [[1, 2], [3, 4]] on the 2 x 2 torus, in binary32. *)
Example laplacian_z22 :
  laplacian (AR := F32.ieee) z22
  = Ok [[f32_of_Z 6; f32_of_Z 2]; [f32_of_Z (-2); f32_of_Z (-6)]].
Proof. vm_compute. reflexivity. Qed.

(** The literals of the script, rounded as Python and numpy round them. *)
Example diff_g_as_float32 :
  @cast F32.ieee (lit (16 # 100)) = S754_finite false 10737418 (-26).
Proof. vm_compute. reflexivity. Qed.

Example feed_plus_kill_as_float32 :
  @cast F32.ieee (py_add (lit (40 # 1000)) (lit (60 # 1000)))
  = S754_finite false 13421773 (-27).
Proof. vm_compute. reflexivity. Qed.

End Examples.

(** ** The periodic Laplacian *)

Section LaplacianFacts.

Context {AR : Arith}.

(** On an [n x m] array the four rolls and the scaled copy all have the
    shape of the input, so no broadcast ever fails. *)
Lemma laplacian_Ok (n m : nat) (z : grid f32) :
  has_shape n m z ->
  laplacian z =
  Ok (zip_with (zip_with sub)
        (zip_with (zip_with add)
           (zip_with (zip_with add)
              (zip_with (zip_with add) (roll z 1 axis0) (roll z (-1) axis0))
              (roll z 1 axis1))
           (roll z (-1) axis1))
        (ew1 (mul (cast (lit 4))) z)).
Proof.
  intros Hz. unfold laplacian.
  pose proof (roll_shape 1 axis0 Hz) as Hu.
  pose proof (roll_shape (-1) axis0 Hz) as Hd.
  pose proof (roll_shape 1 axis1 Hz) as Hl.
  pose proof (roll_shape (-1) axis1 Hz) as Hr.
  pose proof (ew1_shape (mul (cast (lit 4))) Hz) as H4.
  rewrite (ew_same_shape add Hu Hd). cbn [rbind].
  pose proof (zip_with_shape add Hu Hd) as H1.
  rewrite (ew_same_shape add H1 Hl). cbn [rbind].
  pose proof (zip_with_shape add H1 Hl) as H2.
  rewrite (ew_same_shape add H2 Hr). cbn [rbind].
  pose proof (zip_with_shape add H2 Hr) as H3.
  now rewrite (ew_same_shape sub H3 H4).
Qed.

(** Each output cell is the stencil read on the input array. *)
Lemma laplacian_spec (n m : nat) (z : grid f32) :
  has_shape n m z ->
  exists L, laplacian z = Ok L /\ has_shape n m L /\
    forall i j, i < n -> j < m -> at_ L i j = stencil n m z i j.
Proof.
  intros Hz. rewrite (laplacian_Ok Hz).
  pose proof (roll_shape 1 axis0 Hz) as Hu.
  pose proof (roll_shape (-1) axis0 Hz) as Hd.
  pose proof (roll_shape 1 axis1 Hz) as Hl.
  pose proof (roll_shape (-1) axis1 Hz) as Hr.
  pose proof (ew1_shape (mul (cast (lit 4))) Hz) as H4.
  pose proof (zip_with_shape add Hu Hd) as H1.
  pose proof (zip_with_shape add H1 Hl) as H2.
  pose proof (zip_with_shape add H2 Hr) as H3.
  eexists. split; [reflexivity|]. split; [now apply zip_with_shape|].
  intros i j Hi Hj. unfold at_, stencil.
  rewrite (cell_zip_with sub zero zero zero H3 H4 Hi Hj).
  rewrite (cell_zip_with add zero zero zero H2 Hr Hi Hj).
  rewrite (cell_zip_with add zero zero zero H1 Hl Hi Hj).
  rewrite (cell_zip_with add zero zero zero Hu Hd Hi Hj).
  rewrite (cell_ew1 (mul (cast (lit 4))) zero zero Hz Hi Hj).
  rewrite (cell_roll0 zero 1 j Hz Hi), (cell_roll0 zero (-1) j Hz Hi).
  rewrite (cell_roll1 zero 1 Hz Hi Hj), (cell_roll1 zero (-1) Hz Hi Hj).
  unfold at_. repeat f_equal; lia.
Qed.

(** C2. For every N x N array [Z], [laplacian Z] returns (never raises) a
    new N x N array [L] with
    [L[i,j] = Z[(i-1) mod N, j] + Z[(i+1) mod N, j] + Z[i, (j-1) mod N]
              + Z[i, (j+1) mod N] - 4*Z[i,j]]
    at every cell, all five terms being cells of the input [Z]; the model
    is a pure function of [Z], which is therefore left as it was. *)
Theorem laplacian_periodic_stencil (n : nat) (Z : grid f32) :
  has_shape n n Z ->
  exists L, laplacian Z = Ok L /\ has_shape n n L /\
    forall i j, i < n -> j < n ->
      at_ L i j =
      sub (add (add (add (at_ Z (wrap n (Z.of_nat i - 1)) j)
                         (at_ Z (wrap n (Z.of_nat i + 1)) j))
                    (at_ Z i (wrap n (Z.of_nat j - 1))))
               (at_ Z i (wrap n (Z.of_nat j + 1))))
          (mul (cast (lit 4)) (at_ Z i j)).
Proof.
  intros HZ. exact (laplacian_spec HZ).
Qed.

End LaplacianFacts.

(** ** One tick of the integrator *)

Lemma ncols_same {A B} (n m : nat) (a : grid A) (b : grid B) :
  has_shape n m a -> has_shape n m b -> ncols a = ncols b.
Proof.
  intros [Ha1 Ha2] [Hb1 Hb2].
  destruct a as [|ra a], b as [|rb b]; simpl in *; try lia.
  inversion Ha2; inversion Hb2; congruence.
Qed.

(** In-place addition of an array of the same shape succeeds. *)
Lemma inplace_same_shape {A B} (f : A -> B -> A) (n m : nat)
    (a : grid A) (b : grid B) :
  has_shape n m a -> has_shape n m b ->
  inplace f a b = Ok (zip_with (zip_with f) a b).
Proof.
  intros Ha Hb. unfold inplace. rewrite (ew_same_shape f Ha Hb). cbn [rbind].
  pose proof (zip_with_shape f Ha Hb) as Hc.
  rewrite (ncols_same Hc Ha).
  destruct Hc as [Hc _], Ha as [Ha _]. rewrite Hc, Ha.
  now rewrite !Nat.eqb_refl.
Qed.

Section TickFacts.

Context {AR : Arith}.

Variable map_coordinates : grid f32 -> coords -> result (grid f32).
Variable p : Config.params.

(** The loop body on well-shaped fields: it never raises, and its effect
    is one synchronous sub-step. *)
Lemma reaction_step_spec (n : nat) (s : fields) :
  has_shape n n (g s) -> has_shape n n (r s) ->
  exists s', reaction_step p s = (Ok tt, s') /\ substep p n s s'.
Proof.
  intros Hg Hr.
  destruct (laplacian_spec Hg) as (Lg & ELg & SLg & CLg).
  destruct (laplacian_spec Hr) as (Lr & ELr & SLr & CLr).
  unfold reaction_step, bind, get_g, get_r, lift, set_g, set_r.
  rewrite ELg, ELr.
  (* gr2 *)
  rewrite (ew_same_shape mul Hr Hr). cbn [rbind].
  pose proof (zip_with_shape mul Hr Hr) as Hrr.
  pose proof (ew1_shape (mul (cast (Config.ETA p))) Hg) as Heg.
  rewrite (ew_same_shape mul Heg Hrr).
  pose proof (zip_with_shape mul Heg Hrr) as Hgr2.
  set (gr2 := zip_with (zip_with mul) (ew1 _ (g s)) _) in *.
  (* delta_g *)
  pose proof (ew1_shape (mul (cast (Config.DIFF_G p))) SLg) as Hdg.
  rewrite (ew_same_shape sub Hdg Hgr2). cbn [rbind].
  pose proof (zip_with_shape sub Hdg Hgr2) as Ha.
  pose proof (ew1_shape (mul (cast (Config.FEED p)))
                (ew1_shape (sub (cast (lit 1))) Hg)) as Hfg.
  rewrite (ew_same_shape add Ha Hfg). cbn [rbind].
  pose proof (zip_with_shape add Ha Hfg) as Hb.
  pose proof (ew1_shape (fun x => mul x (cast (Config.DT p))) Hb) as Hdelta_g.
  set (delta_g := ew1 _ (zip_with (zip_with add) _ _)) in *.
  (* delta_r *)
  pose proof (ew1_shape (mul (cast (Config.DIFF_R p))) SLr) as Hdr.
  rewrite (ew_same_shape add Hdr Hgr2). cbn [rbind].
  pose proof (zip_with_shape add Hdr Hgr2) as Ha'.
  pose proof (ew1_shape
                (mul (cast (py_add (Config.FEED p) (Config.KILL p)))) Hr) as Hkr.
  rewrite (ew_same_shape sub Ha' Hkr). cbn [rbind].
  pose proof (zip_with_shape sub Ha' Hkr) as Hb'.
  pose proof (ew1_shape (fun x => mul x (cast (Config.DT p))) Hb') as Hdelta_r.
  set (delta_r := ew1 _ (zip_with (zip_with sub) _ _)) in *.
  (* the two in-place additions *)
  rewrite (inplace_same_shape add Hg Hdelta_g).
  cbn [g r].
  rewrite (inplace_same_shape add Hr Hdelta_r).
  eexists. split; [reflexivity|].
  unfold substep. cbn [g r].
  split; [now apply zip_with_shape|]. split; [now apply zip_with_shape|].
  intros i j Hi Hj. unfold at_ at 1 3.
  rewrite (cell_zip_with add zero zero zero Hg Hdelta_g Hi Hj).
  rewrite (cell_zip_with add zero zero zero Hr Hdelta_r Hi Hj).
  fold (at_ (g s) i j) (at_ (r s) i j).
  assert (Egr2 : cell zero gr2 i j = gr2_at p (g s) (r s) i j).
  { unfold gr2, gr2_at.
    rewrite (cell_zip_with mul zero zero zero Heg Hrr Hi Hj).
    rewrite (cell_ew1 (mul (cast (Config.ETA p))) zero zero Hg Hi Hj).
    rewrite (cell_zip_with mul zero zero zero Hr Hr Hi Hj). reflexivity. }
  split; f_equal.
  - unfold delta_g, delta_G_at.
    rewrite (cell_ew1 (fun x => mul x (cast (Config.DT p))) zero zero Hb Hi Hj).
    rewrite (cell_zip_with add zero zero zero Ha Hfg Hi Hj).
    rewrite (cell_zip_with sub zero zero zero Hdg Hgr2 Hi Hj).
    rewrite (cell_ew1 (mul (cast (Config.DIFF_G p))) zero zero SLg Hi Hj).
    rewrite (cell_ew1 (mul (cast (Config.FEED p))) zero zero
               (ew1_shape (sub (cast (lit 1))) Hg) Hi Hj).
    rewrite (cell_ew1 (sub (cast (lit 1))) zero zero Hg Hi Hj).
    rewrite Egr2. fold (at_ Lg i j). rewrite (CLg i j Hi Hj). reflexivity.
  - unfold delta_r, delta_R_at.
    rewrite (cell_ew1 (fun x => mul x (cast (Config.DT p))) zero zero Hb' Hi Hj).
    rewrite (cell_zip_with sub zero zero zero Ha' Hkr Hi Hj).
    rewrite (cell_zip_with add zero zero zero Hdr Hgr2 Hi Hj).
    rewrite (cell_ew1 (mul (cast (Config.DIFF_R p))) zero zero SLr Hi Hj).
    rewrite (cell_ew1 (mul (cast (py_add (Config.FEED p) (Config.KILL p))))
               zero zero Hr Hi Hj).
    rewrite Egr2. fold (at_ Lr i j). rewrite (CLr i j Hi Hj). reflexivity.
Qed.

Lemma substep_shapes (n : nat) (s s' : fields) :
  substep p n s s' -> has_shape n n (g s') /\ has_shape n n (r s').
Proof.
  intros (Hg & Hr & _). now split.
Qed.

(** Sub-steps keep the shape of the fields. *)
Lemma substeps_keep_shape (n k : nat) (s s' : fields) :
  substeps p n k s s' ->
  has_shape n n (g s) -> has_shape n n (r s) ->
  has_shape n n (g s') /\ has_shape n n (r s').
Proof.
  induction 1 as [s|k s s1 s2 H1 _ IH]; intros Hg Hr; [now split|].
  destruct (substep_shapes H1) as [Hg1 Hr1]. now apply IH.
Qed.

(** The [for] loop on well-shaped fields performs exactly as many
    sub-steps as its bound. *)
Lemma for_range_substeps (n k : nat) (s : fields) :
  has_shape n n (g s) -> has_shape n n (r s) ->
  exists s', for_range k (reaction_step p) s = (Ok tt, s') /\
             substeps p n k s s'.
Proof.
  revert s. induction k as [|k IH]; intros s Hg Hr.
  - exists s. split; [reflexivity|constructor].
  - destruct (reaction_step_spec s Hg Hr) as (s1 & E1 & H1).
    destruct (substep_shapes H1) as [Hg1 Hr1].
    destruct (IH s1 Hg1 Hr1) as (s2 & E2 & H2).
    exists s2. split.
    + cbn [for_range]. unfold bind. now rewrite E1.
    + now apply substeps_S with s1.
Qed.

(** The advection pass, when both resamplings succeed. *)
Lemma advection_advected (cs : option coords) (s s0 : fields) :
  advected map_coordinates cs s s0 ->
  advection map_coordinates cs s = (Ok tt, s0).
Proof.
  destruct cs as [c|]; simpl.
  - intros [Eg Er]. unfold bind, get_g, get_r, lift, set_g, set_r.
    rewrite Eg. cbn [g r]. rewrite Er. now destruct s0.
  - now intros ->.
Qed.

Lemma update_spec (n : nat) (cs : option coords) (s s0 : fields) :
  advected map_coordinates cs s s0 ->
  has_shape n n (g s0) -> has_shape n n (r s0) ->
  exists s', update map_coordinates p cs s = (Ok tt, s') /\
             substeps p n (Config.STEPS_PER_FRAME p) s0 s'.
Proof.
  intros Ha Hg Hr.
  destruct (for_range_substeps (Config.STEPS_PER_FRAME p) s0 Hg Hr)
    as (s' & E & H).
  exists s'. split; [|exact H].
  unfold update, bind. now rewrite (@advection_advected cs s s0 Ha).
Qed.

(** C1. One tick is the advection pass, performed once, before every
    sub-step (each field resampled once through the map when a map is
    given, nothing otherwise), followed by the loop, which performs exactly
    [STEPS_PER_FRAME] sub-steps.  Each sub-step sets every cell to
    [G + delta_G] and [R + delta_R] where
    [gr2 = eta*G*R^2],
    [delta_G = (diff_G*laplacian(G) - gr2 + feed*(1-G))*dt],
    [delta_R = (diff_R*laplacian(R) + gr2 - (feed+kill)*R)*dt]
    are all computed from the pair [(G, R)] the sub-step started from. *)
Theorem tick_advects_once_then_substeps (n : nat) (cs : option coords)
    (s s0 : fields) :
  advected map_coordinates cs s s0 ->
  has_shape n n (g s0) -> has_shape n n (r s0) ->
  exists s',
    advection map_coordinates cs s = (Ok tt, s0) /\
    for_range (Config.STEPS_PER_FRAME p) (reaction_step p) s0 = (Ok tt, s') /\
    update map_coordinates p cs s = (Ok tt, s') /\
    substeps p n (Config.STEPS_PER_FRAME p) s0 s'.
Proof.
  intros Ha Hg Hr.
  pose proof (@advection_advected cs s s0 Ha) as Eadv.
  destruct (for_range_substeps (Config.STEPS_PER_FRAME p) s0 Hg Hr)
    as (s' & Eloop & Hsub).
  exists s'. split; [exact Eadv|]. split; [exact Eloop|]. split; [|exact Hsub].
  unfold update, bind. rewrite Eadv. exact Eloop.
Qed.

End TickFacts.

(** ** Initial fields *)

(** Membership in the seed block, when the block fits in the grid. *)
Lemma in_seed_centered (n : nat) (seed_radius : Z) (i : nat) :
  (0 < 2 * seed_radius < Z.of_nat n)%Z ->
  in_seed n seed_radius i = true <->
  (Z.of_nat n / 2 - seed_radius <= Z.of_nat i < Z.of_nat n / 2 + seed_radius)%Z.
Proof.
  intros H. unfold in_seed.
  pose proof (Z.div_mod (Z.of_nat n) 2 ltac:(lia)) as E.
  pose proof (Z.mod_pos_bound (Z.of_nat n) 2 ltac:(lia)) as B.
  apply in_slice_inside; lia.
Qed.

Section InitFacts.

Context {AR : Arith}.

(** [initialize_fields] never raises on an [n x n] sample, and its cells
    are the seeded values, plus the scaled sample for [R]. *)
Lemma initialize_fields_spec (n : nat) (seed_radius : Z) (noise_level : pyfloat)
    (u : grid pyfloat) :
  has_shape n n u ->
  exists G R, initialize_fields n seed_radius noise_level u = Ok (G, R) /\
    has_shape n n G /\ has_shape n n R /\
    forall i j, i < n -> j < n ->
      at_ G i j = (if in_seed n seed_radius i && in_seed n seed_radius j
                   then cast (lit (1 # 2)) else cast (lit 1)) /\
      at_ R i j = add (if in_seed n seed_radius i && in_seed n seed_radius j
                       then cast (lit (1 # 4)) else cast (lit 0))
                      (mul (cast (cell (lit 0) u i j)) (cast noise_level)).
Proof.
  intros Hu. unfold initialize_fields.
  set (lo := (Z.of_nat n / 2 - seed_radius)%Z).
  set (hi := (Z.of_nat n / 2 + seed_radius)%Z).
  pose proof (set_block_shape lo hi (cast (lit (1 # 2)))
                (full_shape n n (cast (lit 1)))) as HG.
  pose proof (set_block_shape lo hi (cast (lit (1 # 4)))
                (full_shape n n (cast (lit 0)))) as HR.
  pose proof (ew1_shape (fun x => mul x (cast noise_level))
                (ew1_shape cast Hu)) as HN.
  rewrite (inplace_same_shape add HR HN). cbn [rbind].
  eexists. eexists. split; [reflexivity|].
  split; [exact HG|]. split; [now apply zip_with_shape|].
  intros i j Hi Hj. unfold at_, in_seed. fold lo hi. split.
  - rewrite (cell_set_block zero lo hi (cast (lit (1 # 2)))
               (full_shape n n (cast (lit 1))) Hi Hj).
    now rewrite (cell_full zero (cast (lit 1)) Hi Hj).
  - rewrite (cell_zip_with add zero zero zero HR HN Hi Hj).
    rewrite (cell_set_block zero lo hi (cast (lit (1 # 4)))
               (full_shape n n (cast (lit 0))) Hi Hj).
    rewrite (cell_full zero (cast (lit 0)) Hi Hj).
    rewrite (cell_ew1 (fun x => mul x (cast noise_level)) zero zero
               (ew1_shape cast Hu) Hi Hj).
    now rewrite (cell_ew1 cast (lit 0) zero Hu Hi Hj).
Qed.


End InitFacts.

(** ** Locality of the sub-step *)

Section Locality.

Context {AR : Arith}.

Variable p : Config.params.

Lemma wrap_pred (n i : nat) : 1 <= i -> i < n -> wrap n (Z.of_nat i - 1) = i - 1.
Proof.
  intros H1 H2. unfold wrap. rewrite Z.mod_small by lia. lia.
Qed.

Lemma wrap_succ (n i : nat) : i + 1 < n -> wrap n (Z.of_nat i + 1) = i + 1.
Proof.
  intros H. unfold wrap. rewrite Z.mod_small by lia. lia.
Qed.

(** A sub-step reads only the four neighbours of a cell: a window on which
    the fields are constant shrinks by one cell on each side and follows
    the scalar recurrence [cell_step]. *)
Lemma substep_uniform (n c w : nat) (s s' : fields) (a b : f32) :
  substep p n s s' ->
  S w <= c -> c + S w < n ->
  uniform_on c (S w) s a b ->
  uniform_on c w s' (fst (cell_step p (a, b))) (snd (cell_step p (a, b))).
Proof.
  intros (_ & _ & Hs) Hlo Hhi Hu i j Hi Hj.
  destruct (Hs i j ltac:(lia) ltac:(lia)) as [Eg Er].
  assert (Hst : forall z v,
            (forall i' j', c - S w <= i' <= c + S w ->
                           c - S w <= j' <= c + S w -> at_ z i' j' = v) ->
            stencil n n z i j
            = sub (add (add (add v v) v) v) (mul (cast (lit 4)) v)).
  { intros z v Hz. unfold stencil.
    rewrite (@wrap_pred n i), (@wrap_succ n i) by lia.
    rewrite (@wrap_pred n j), (@wrap_succ n j) by lia.
    rewrite !Hz by lia. reflexivity. }
  destruct (Hu i j ltac:(lia) ltac:(lia)) as [Ea Eb].
  rewrite Eg, Er. unfold delta_G_at, delta_R_at, gr2_at.
  rewrite (Hst (g s) a) by (intros; now apply Hu).
  rewrite (Hst (r s) b) by (intros; now apply Hu).
  rewrite Ea, Eb. split; reflexivity.
Qed.

Lemma substeps_uniform (n c k : nat) (s s' : fields) :
  substeps p n k s s' ->
  forall w a b,
    k + w <= c -> c + (k + w) < n ->
    uniform_on c (k + w) s a b ->
    uniform_on c w s' (fst (Nat.iter k (cell_step p) (a, b)))
                      (snd (Nat.iter k (cell_step p) (a, b))).
Proof.
  intros H. induction H as [s|k s s1 s2 H1 H2 IH]; intros w a b Hlo Hhi Hu.
  - exact Hu.
  - rewrite Nat.iter_succ_r.
    pose proof (@substep_uniform n c (k + w) s s1 a b H1
                  ltac:(lia) ltac:(lia) Hu) as Hu1.
    destruct (cell_step p (a, b)) as [a1 b1] eqn:E1. simpl in Hu1.
    apply IH; [lia|lia|exact Hu1].
Qed.

End Locality.

(** ** Fields of different shapes *)

Section Mismatch.

Context {AR : Arith}.

Variable map_coordinates : grid f32 -> coords -> result (grid f32).
Variable p : Config.params.

Lemma laplacian_rect (z : grid f32) :
  rect z -> exists L, laplacian z = Ok L /\ rect L /\ shape L = shape z.
Proof.
  intros Hz. destruct (laplacian_spec Hz) as (L & E & HL & _).
  exists L. split; [exact E|]. now apply rect_shape_of.
Qed.

Lemma shape_inj {A B} (a : grid A) (b : grid B) :
  shape a = shape b -> length a = length b /\ ncols a = ncols b.
Proof. unfold shape. intros [= H1 H2]. now split. Qed.

(** When the coupling term cannot be broadcast, or [g += delta_g] cannot
    store its result, the sub-step raises before any assignment. *)
Lemma reaction_step_mismatch_untouched (s : fields) :
  rect (g s) -> rect (r s) ->
  bcast_shape (shape (g s)) (shape (r s)) <> Some (shape (g s)) ->
  reaction_step p s = (Raise ValueError, s).
Proof.
  intros Hg Hr Hne.
  destruct (laplacian_rect Hg) as (Lg & ELg & HLg & SLg).
  destruct (laplacian_rect Hr) as (Lr & ELr & HLr & SLr).
  unfold reaction_step, bind, get_g, get_r, lift, set_g, set_r.
  rewrite ELg, ELr.
  rewrite (ew_same_shape mul Hr Hr). cbn [rbind].
  destruct (rect_shape_of Hr (zip_with_shape mul Hr Hr)) as [Hrr Srr].
  destruct (ew1_rect (mul (cast (Config.ETA p))) Hg) as [Heg Seg].
  pose proof (ew_shape mul Heg Hrr) as X. rewrite Seg, Srr in X.
  destruct (bcast_shape (shape (g s)) (shape (r s))) as [b|] eqn:Eb;
    [|rewrite X; reflexivity].
  destruct X as (gr2 & -> & Hgr2 & Sgr2).
  destruct (bcast_shape_absorb (shape_normal (g s)) (shape_normal (r s)) Eb)
    as (B1 & B2 & B3 & B4).
  destruct (ew1_rect (mul (cast (Config.DIFF_G p))) HLg) as [Hdg Sdg].
  pose proof (ew_shape sub Hdg Hgr2) as X. rewrite Sdg, SLg, Sgr2, B1 in X.
  destruct X as (a & -> & Ha & Sa). cbn [rbind].
  destruct (ew1_rect (sub (cast (lit 1))) Hg) as [H1g S1g].
  destruct (ew1_rect (mul (cast (Config.FEED p))) H1g) as [Hfg Sfg].
  pose proof (ew_shape add Ha Hfg) as X. rewrite Sa, Sfg, S1g, B2 in X.
  destruct X as (a' & -> & Ha' & Sa'). cbn [rbind].
  destruct (ew1_rect (fun x => mul x (cast (Config.DT p))) Ha') as [Hdeltag Sdeltag].
  destruct (ew1_rect (mul (cast (Config.DIFF_R p))) HLr) as [Hdr Sdr].
  pose proof (ew_shape add Hdr Hgr2) as X. rewrite Sdr, SLr, Sgr2, B3 in X.
  destruct X as (c & -> & Hc & Sc). cbn [rbind].
  destruct (ew1_rect (mul (cast (py_add (Config.FEED p) (Config.KILL p)))) Hr)
    as [Hkr Skr].
  pose proof (ew_shape sub Hc Hkr) as X. rewrite Sc, Skr, B4 in X.
  destruct X as (c' & -> & Hc' & Sc'). cbn [rbind].
  pose proof (inplace_shape add Hg Hdeltag) as Xg.
  rewrite Sdeltag, Sa', B1 in Xg. destruct Xg as [_ Xko].
  rewrite Xko; [reflexivity|]. intros ->. now apply Hne.
Qed.

(** When [R] broadcasts to the shape of [G], the sub-step raises at
    [r += delta_r]: [G] has been advanced, [R] has not. *)
Lemma reaction_step_mismatch_advanced (s : fields) :
  rect (g s) -> rect (r s) -> shape (g s) <> shape (r s) ->
  bcast_shape (shape (g s)) (shape (r s)) = Some (shape (g s)) ->
  exists G', reaction_step p s = (Raise ValueError, {| g := G'; r := r s |}) /\
    has_shape (length (g s)) (ncols (g s)) G' /\
    forall i j, i < length (g s) -> j < ncols (g s) ->
      at_ G' i j =
      add (at_ (g s) i j)
          (delta_G_on p (length (g s)) (ncols (g s)) (g s)
             (broadcast_to (length (g s)) (ncols (g s)) (r s)) i j).
Proof.
  intros Hg Hr Hne Eb.
  set (n := length (g s)) in *. set (m := ncols (g s)) in *.
  assert (Hgs : has_shape n m (g s)) by exact Hg.
  destruct (laplacian_spec Hgs) as (Lg & ELg & SLg & CLg).
  destruct (laplacian_rect Hr) as (Lr & ELr & HLr & SLr).
  destruct (@bcast_shape_to_first _ _ Eb) as [Bn Bm].
  unfold shape in Bn, Bm. cbn [fst snd] in Bn, Bm. fold n m in Bn, Bm.
  pose proof (@broadcast_to_shape _ n m (r s) Hr Bn Bm) as HRb.
  set (Rb := broadcast_to n m (r s)) in *.
  unfold reaction_step, bind, get_g, get_r, lift, set_g, set_r.
  rewrite ELg, ELr.
  (* gr2 *)
  rewrite (ew_same_shape mul Hr Hr). cbn [rbind].
  rewrite zip_with_grid_diag.
  destruct (ew1_rect (fun x => mul x x) Hr) as [Hrr Srr].
  destruct (ew1_rect (mul (cast (Config.ETA p))) Hg) as [Heg Seg].
  assert (Ebc : bcast_shape (shape (ew1 (mul (cast (Config.ETA p))) (g s)))
                  (shape (ew1 (fun x => mul x x) (r s)))
                = Some (shape (ew1 (mul (cast (Config.ETA p))) (g s))))
    by now rewrite Seg, Srr.
  rewrite (ew_stretch mul Heg Hrr Ebc).
  destruct (shape_inj Seg) as [El Ec]. rewrite El, Ec. fold n m.
  rewrite broadcast_to_ew1. fold Rb.
  pose proof (ew1_shape (mul (cast (Config.ETA p))) Hgs) as Heg'.
  pose proof (ew1_shape (fun x => mul x x) HRb) as Hrr'.
  pose proof (zip_with_shape mul Heg' Hrr') as Hgr2.
  set (gr2 := zip_with (zip_with mul) (ew1 _ (g s)) _) in *.
  (* delta_g *)
  pose proof (ew1_shape (mul (cast (Config.DIFF_G p))) SLg) as Hdg.
  rewrite (ew_same_shape sub Hdg Hgr2). cbn [rbind].
  pose proof (zip_with_shape sub Hdg Hgr2) as Ha.
  pose proof (ew1_shape (mul (cast (Config.FEED p)))
                (ew1_shape (sub (cast (lit 1))) Hgs)) as Hfg.
  rewrite (ew_same_shape add Ha Hfg). cbn [rbind].
  pose proof (zip_with_shape add Ha Hfg) as Hb.
  pose proof (ew1_shape (fun x => mul x (cast (Config.DT p))) Hb) as Hdelta_g.
  set (delta_g := ew1 _ (zip_with (zip_with add) _ _)) in *.
  (* delta_r *)
  destruct (rect_shape_of Hg Hgr2) as [Rgr2 Sgr2].
  destruct (bcast_shape_absorb (shape_normal (g s)) (shape_normal (r s)) Eb)
    as (B1 & B2 & B3 & B4).
  destruct (ew1_rect (mul (cast (Config.DIFF_R p))) HLr) as [Hdr Sdr].
  pose proof (ew_shape add Hdr Rgr2) as X. rewrite Sdr, SLr, Sgr2, B3 in X.
  destruct X as (c & -> & Hc & Sc). cbn [rbind].
  destruct (ew1_rect (mul (cast (py_add (Config.FEED p) (Config.KILL p)))) Hr)
    as [Hkr Skr].
  pose proof (ew_shape sub Hc Hkr) as X. rewrite Sc, Skr, B4 in X.
  destruct X as (c' & -> & Hc' & Sc'). cbn [rbind].
  destruct (ew1_rect (fun x => mul x (cast (Config.DT p))) Hc') as [Hdeltar Sdeltar].
  (* the two in-place additions *)
  rewrite (inplace_same_shape add Hgs Hdelta_g). cbn [g r].
  pose proof (inplace_shape add Hr Hdeltar) as Xr.
  rewrite Sdeltar, Sc', B3 in Xr. destruct Xr as [_ Xr].
  rewrite Xr by congruence.
  eexists. split; [reflexivity|]. split; [now apply zip_with_shape|].
  intros i j Hi Hj. unfold at_ at 1.
  rewrite (cell_zip_with add zero zero zero Hgs Hdelta_g Hi Hj).
  fold (at_ (g s) i j). f_equal.
  unfold delta_g, delta_G_on, gr2_at.
  rewrite (cell_ew1 (fun x => mul x (cast (Config.DT p))) zero zero Hb Hi Hj).
  rewrite (cell_zip_with add zero zero zero Ha Hfg Hi Hj).
  rewrite (cell_zip_with sub zero zero zero Hdg Hgr2 Hi Hj).
  rewrite (cell_ew1 (mul (cast (Config.DIFF_G p))) zero zero SLg Hi Hj).
  rewrite (cell_ew1 (mul (cast (Config.FEED p))) zero zero
             (ew1_shape (sub (cast (lit 1))) Hgs) Hi Hj).
  rewrite (cell_ew1 (sub (cast (lit 1))) zero zero Hgs Hi Hj).
  unfold gr2.
  rewrite (cell_zip_with mul zero zero zero Heg' Hrr' Hi Hj).
  rewrite (cell_ew1 (mul (cast (Config.ETA p))) zero zero Hgs Hi Hj).
  rewrite (cell_ew1 (fun x => mul x x) zero zero HRb Hi Hj).
  fold (at_ Lg i j). rewrite (CLg i j Hi Hj). reflexivity.
Qed.

(** The state in which a sub-step on fields of different shapes stops. *)
Lemma reaction_step_failure_spec (s : fields) :
  rect (g s) -> rect (r s) -> shape (g s) <> shape (r s) ->
  exists s1, reaction_step p s = (Raise ValueError, s1) /\
    r s1 = r s /\
    shape (g s1) = shape (g s) /\
    (bcast_shape (shape (g s)) (shape (r s)) <> Some (shape (g s)) -> s1 = s) /\
    (bcast_shape (shape (g s)) (shape (r s)) = Some (shape (g s)) ->
       has_shape (length (g s)) (ncols (g s)) (g s1) /\
       forall i j, i < length (g s) -> j < ncols (g s) ->
         at_ (g s1) i j =
         add (at_ (g s) i j)
             (delta_G_on p (length (g s)) (ncols (g s)) (g s)
                (broadcast_to (length (g s)) (ncols (g s)) (r s)) i j)).
Proof.
  intros Hg Hr Hne.
  assert (D : {bcast_shape (shape (g s)) (shape (r s)) = Some (shape (g s))}
              + {bcast_shape (shape (g s)) (shape (r s)) <> Some (shape (g s))})
    by (repeat decide equality).
  destruct D as [Eb|Eb].
  - destruct (@reaction_step_mismatch_advanced s Hg Hr Hne Eb)
      as (G' & E & HG' & CG').
    exists {| g := G'; r := r s |}. cbn [g r].
    split; [exact E|]. split; [reflexivity|].
    split; [now apply (rect_shape_of Hg HG')|].
    split; [intros H; now destruct (H Eb)|].
    intros _. split; [exact HG'|exact CG'].
  - exists s. split; [now apply reaction_step_mismatch_untouched|].
    split; [reflexivity|]. split; [reflexivity|].
    split; [reflexivity|]. intros H. now destruct (Eb H).
Qed.

(** C9, as amended.  The script checks no shape; the only faults are
    numpy's own.
    (1) With advection disabled and at least one sub-step, a tick on
    rectangular fields [G] and [R] of different shapes raises [ValueError]
    in its first sub-step.  [R] is left as it was.  [G] is left as it was
    too, unless the shape of [R] broadcasts to that of [G] ([R] has one row
    or one column where [G] has more): then the fault is raised by
    [r += delta_r], after [g += delta_g] has run, and every cell of [G]
    holds [G + delta_g] computed from [R] stretched to the shape of [G].
    (2) A mismatch with the advection map is not detected: provided
    [map_coordinates] returns one value per cell of the map, a tick with a
    non-empty [n x n] map on non-empty fields of any shapes succeeds and
    leaves two [n x n] fields. *)
Theorem tick_shape_mismatch_outcomes :
  (forall s : fields,
     1 <= Config.STEPS_PER_FRAME p ->
     rect (g s) -> rect (r s) -> shape (g s) <> shape (r s) ->
     exists s1, update map_coordinates p None s = (Raise ValueError, s1) /\
       r s1 = r s /\
       shape (g s1) = shape (g s) /\
       (bcast_shape (shape (g s)) (shape (r s)) <> Some (shape (g s)) ->
          s1 = s) /\
       (bcast_shape (shape (g s)) (shape (r s)) = Some (shape (g s)) ->
          forall i j, i < length (g s) -> j < ncols (g s) ->
            at_ (g s1) i j =
            add (at_ (g s) i j)
                (delta_G_on p (length (g s)) (ncols (g s)) (g s)
                   (broadcast_to (length (g s)) (ncols (g s)) (r s)) i j))) /\
  (forall (s : fields) (c : coords) (n a b a' b' : nat),
     resamples_onto_map map_coordinates ->
     0 < n -> has_shape n n (row_src c) -> has_shape n n (col_src c) ->
     0 < a -> 0 < b -> has_shape a b (g s) ->
     0 < a' -> 0 < b' -> has_shape a' b' (r s) ->
     exists s', update map_coordinates p (Some c) s = (Ok tt, s') /\
       has_shape n n (g s') /\ has_shape n n (r s')).
Proof.
  split.
  - intros s Hk Hg Hr Hne.
    destruct (@reaction_step_failure_spec s Hg Hr Hne)
      as (s1 & E & Er & Es & Hu & Ha).
    exists s1. split.
    + unfold update, bind. cbn [advection ret].
      destruct (Config.STEPS_PER_FRAME p) as [|k]; [lia|].
      cbn [for_range]. unfold bind. now rewrite E.
    + split; [exact Er|]. split; [exact Es|]. split; [exact Hu|].
      intros Eb. now destruct (Ha Eb).
  - intros s c n a b a' b' Hmap Hn Hrow Hcol Ha Hb Hg Ha' Hb' Hr.
    destruct (Hmap (g s) c a b n Ha Hb Hn Hg Hrow Hcol) as (g0 & Eg & Hg0).
    destruct (Hmap (r s) c a' b' n Ha' Hb' Hn Hr Hrow Hcol) as (r0 & Er & Hr0).
    destruct (@update_spec AR map_coordinates p n (Some c) s
                {| g := g0; r := r0 |} (conj Eg Er) Hg0 Hr0) as (s' & E & Hs).
    exists s'. split; [exact E|].
    exact (@substeps_keep_shape AR p n _ _ _ Hs Hg0 Hr0).
Qed.

End Mismatch.

(** ** Exact arithmetic: sums over the grid *)

Module ExactFacts.

Import Exact ExactSpec Inputs.
Local Open Scope R_scope.

(** Unfold the class operations at the real instance. *)
Ltac reals_norm :=
  cbn [f32 pyfloat add sub mul cast lit py_add reals] in *.

Lemma sum_list_app (l1 l2 : list R) :
  sum_list (l1 ++ l2) = sum_list l1 + sum_list l2.
Proof.
  induction l1 as [|x l1 IH]; simpl; [ring|]. rewrite IH. ring.
Qed.

(** Rolling an axis permutes its entries. *)
Lemma sum_list_roll1 (l : list R) (s : Z) : sum_list (roll1 l s) = sum_list l.
Proof.
  destruct l as [|a t]; [reflexivity|]. unfold roll1.
  rewrite sum_list_app, Rplus_comm, <- sum_list_app.
  now rewrite firstn_skipn.
Qed.

Lemma total_app (z1 z2 : grid R) : total (z1 ++ z2) = total z1 + total z2.
Proof.
  unfold total. now rewrite map_app, sum_list_app.
Qed.

Lemma total_roll (z : grid R) (s : Z) (ax : axis) : total (roll z s ax) = total z.
Proof.
  destruct ax; simpl.
  - destruct z as [|a t]; [reflexivity|]. unfold roll1.
    rewrite total_app, Rplus_comm, <- total_app.
    now rewrite firstn_skipn.
  - unfold total. rewrite map_map. f_equal.
    apply map_ext. intros row. apply sum_list_roll1.
Qed.

Section Linear.

Variables (alpha beta : R) (f : R -> R -> R).
Hypothesis f_linear : forall x y, f x y = alpha * x + beta * y.

Lemma sum_list_zip_linear (xs ys : list R) :
  length xs = length ys ->
  sum_list (zip_with f xs ys) = alpha * sum_list xs + beta * sum_list ys.
Proof.
  revert ys. induction xs as [|x xs IH]; intros [|y ys] H; simpl in *;
    try discriminate; [ring|].
  rewrite IH by lia. rewrite f_linear. ring.
Qed.

Lemma total_zip_linear (n m : nat) (a b : grid R) :
  has_shape n m a -> has_shape n m b ->
  total (zip_with (zip_with f) a b) = alpha * total a + beta * total b.
Proof.
  intros [Ha1 Ha2] [Hb1 Hb2]. assert (Hl : length a = length b) by congruence.
  clear Ha1 Hb1. revert b Hl Hb2.
  induction a as [|ra a IH]; intros [|rb b] Hl Hb2; simpl in *;
    try discriminate; unfold total in *; simpl; [ring|].
  inversion Ha2; subst. inversion Hb2; subst.
  rewrite IH by (auto; lia).
  rewrite sum_list_zip_linear by congruence. ring.
Qed.

End Linear.

Lemma sum_list_scale (c : R) (l : list R) :
  sum_list (map (Rmult c) l) = c * sum_list l.
Proof.
  induction l as [|x l IH]; simpl; [ring|]. rewrite IH. ring.
Qed.

Lemma total_scale (c : R) (z : grid R) : total (ew1 (Rmult c) z) = c * total z.
Proof.
  unfold total, ew1. induction z as [|row z IH]; simpl; [ring|].
  rewrite IH, sum_list_scale. ring.
Qed.

(** The discrete Laplacian of a periodic field has zero mean. *)
Lemma laplacian_total (n m : nat) (z : grid R) :
  has_shape n m z ->
  exists L, laplacian z = Ok L /\ has_shape n m L /\
    (forall i j, (i < n)%nat -> (j < m)%nat -> at_ L i j = stencil n m z i j) /\
    total L = 0.
Proof.
  intros Hz. destruct (laplacian_spec (AR := reals) Hz) as (L & EL & SL & CL).
  exists L. split; [assumption|]. split; [assumption|]. split; [assumption|].
  rewrite (laplacian_Ok (AR := reals) Hz) in EL.
  apply Ok_inj in EL. rewrite <- EL. clear EL CL SL.
  pose proof (roll_shape 1 axis0 Hz) as Hu.
  pose proof (roll_shape (-1) axis0 Hz) as Hd.
  pose proof (roll_shape 1 axis1 Hz) as Hl.
  pose proof (roll_shape (-1) axis1 Hz) as Hr.
  pose proof (ew1_shape (Rmult (Q2R 4)) Hz) as H4.
  pose proof (zip_with_shape Rplus Hu Hd) as H1.
  pose proof (zip_with_shape Rplus H1 Hl) as H2.
  pose proof (zip_with_shape Rplus H2 Hr) as H3.
  assert (Hsub : forall x y : R, Rminus x y = 1 * x + -1 * y) by (intros; ring).
  assert (Hadd : forall x y : R, Rplus x y = 1 * x + 1 * y) by (intros; ring).
  reals_norm.
  rewrite (@total_zip_linear 1 (-1) Rminus Hsub n m _ _ H3 H4).
  rewrite (@total_zip_linear 1 1 Rplus Hadd n m _ _ H2 Hr).
  rewrite (@total_zip_linear 1 1 Rplus Hadd n m _ _ H1 Hl).
  rewrite (@total_zip_linear 1 1 Rplus Hadd n m _ _ Hu Hd).
  rewrite !total_roll, total_scale.
  replace (Q2R 4) with 4 by (unfold Q2R; simpl; lra).
  ring.
Qed.

(** C7. In exact arithmetic, for every input field [Z] (an array of any
    shape [n x m]) [laplacian Z] is defined and the sum of its cells over
    the whole grid is 0. *)
Theorem laplacian_sum_zero (n m : nat) (Z : grid R) :
  has_shape n m Z ->
  exists L, laplacian Z = Ok L /\ total L = 0.
Proof.
  intros HZ. destruct (laplacian_total HZ) as (L & EL & _ & _ & HL).
  now exists L.
Qed.

(** An array whose cells are those of [b] plus [c] times those of [L]
    has total [total b + c * total L]. *)
Lemma total_of_cells (n m : nat) (c : R) (a b L : grid R) :
  has_shape n m a -> has_shape n m b -> has_shape n m L ->
  (forall i j, (i < n)%nat -> (j < m)%nat ->
     at_ a i j = at_ b i j + c * at_ L i j) ->
  total a = total b + c * total L.
Proof.
  intros Ha Hb HL H.
  assert (E : a = zip_with (zip_with (fun x y => x + c * y)) b L).
  { apply (@grid_ext R (@zero reals) n m); [assumption|now apply zip_with_shape|].
    intros i j Hi Hj.
    rewrite (cell_zip_with (fun x y => x + c * y)
               (@zero reals) (@zero reals) (@zero reals) Hb HL Hi Hj).
    now apply H. }
  assert (Hlin : forall x y : R, (fun x y => x + c * y) x y = 1 * x + c * y)
    by (intros; ring).
  rewrite E, (@total_zip_linear 1 c _ Hlin n m _ _ Hb HL).
  ring.
Qed.

(** ** Pure diffusion conserves each field's total *)

Section Diffusion.

Variable p : Config.params.
Hypothesis feed0 : Config.FEED p = 0.
Hypothesis kill0 : Config.KILL p = 0.
Hypothesis eta0 : Config.ETA p = 0.

Lemma substep_conserves (n : nat) (s s' : fields) :
  has_shape n n (g s) -> has_shape n n (r s) ->
  substep p n s s' ->
  total (g s') = total (g s) /\ total (r s') = total (r s).
Proof.
  intros Hg Hr (Hg' & Hr' & Hc).
  destruct (laplacian_total Hg) as (Lg & _ & SLg & CLg & TLg).
  destruct (laplacian_total Hr) as (Lr & _ & SLr & CLr & TLr).
  split.
  - rewrite (@total_of_cells n n (Config.DIFF_G p * Config.DT p)
               (g s') (g s) Lg Hg' Hg SLg).
    + rewrite TLg. ring.
    + intros i j Hi Hj. destruct (Hc i j Hi Hj) as [-> _].
      rewrite (CLg i j Hi Hj).
      unfold delta_G_at, gr2_at. rewrite feed0, eta0. reals_norm. ring.
  - rewrite (@total_of_cells n n (Config.DIFF_R p * Config.DT p)
               (r s') (r s) Lr Hr' Hr SLr).
    + rewrite TLr. ring.
    + intros i j Hi Hj. destruct (Hc i j Hi Hj) as [_ ->].
      rewrite (CLr i j Hi Hj).
      unfold delta_R_at, gr2_at. rewrite feed0, kill0, eta0. reals_norm. ring.
Qed.

Lemma substeps_conserve (n k : nat) (s s' : fields) :
  has_shape n n (g s) -> has_shape n n (r s) ->
  substeps p n k s s' ->
  total (g s') = total (g s) /\ total (r s') = total (r s).
Proof.
  intros Hg Hr H. induction H as [s|k s s1 s2 H1 H2 IH]; [now split|].
  destruct (substep_conserves Hg Hr H1) as [E1 E2].
  destruct (substep_shapes H1) as [Hg1 Hr1].
  destruct (IH Hg1 Hr1) as [E3 E4]. split; congruence.
Qed.

(** C5, as amended.  With [feed = kill = 0] and [eta = 0], in exact
    arithmetic, a tick with advection disabled leaves the grid total of
    [G + R] unchanged (indeed the total of each field). *)
Theorem diffusion_tick_conserves_mass (n : nat) (s : fields) :
  has_shape n n (g s) -> has_shape n n (r s) ->
  exists s', update map_coordinates p None s = (Ok tt, s') /\
             total (g s') + total (r s') = total (g s) + total (r s).
Proof.
  intros Hg Hr.
  destruct (@update_spec reals map_coordinates p n None s s eq_refl Hg Hr)
    as (s' & E & H).
  exists s'. split; [exact E|].
  destruct (substeps_conserve Hg Hr H) as [-> ->]. reflexivity.
Qed.

End Diffusion.

(** ** Initial fields in exact arithmetic *)

Lemma Q2R_half : Q2R (1 # 2) = 1 / 2.
Proof. unfold Q2R; simpl; lra. Qed.

Lemma Q2R_quarter : Q2R (1 # 4) = 1 / 4.
Proof. unfold Q2R; simpl; lra. Qed.

Lemma Q2R_one : Q2R 1 = 1.
Proof. unfold Q2R; simpl; lra. Qed.

Lemma Q2R_zero : Q2R 0 = 0.
Proof. unfold Q2R; simpl; lra. Qed.

Lemma cell_default {A} (d d' : A) (n m : nat) (z : grid A) (i j : nat) :
  has_shape n m z -> (i < n)%nat -> (j < m)%nat -> cell d z i j = cell d' z i j.
Proof.
  intros Hz Hi Hj. unfold cell. apply nth_indep.
  now rewrite (has_shape_row Hz Hi).
Qed.

(** In exact arithmetic, and for a sample with values in [[0, 1)], the
    noise term of every cell lies in [[0, noise_level)] when
    [noise_level > 0] and is 0 when [noise_level = 0]. *)
Lemma initialize_fields_noise_range_exact (n : nat) (seed_radius : Z)
    (noise_level : R) (u : grid R) :
  (0 < 2 * seed_radius < Z.of_nat n)%Z ->
  0 <= noise_level ->
  has_shape n n u ->
  (forall i j, (i < n)%nat -> (j < n)%nat -> 0 <= cell 0 u i j < 1) ->
  exists G R, initialize_fields n seed_radius noise_level u = Ok (G, R) /\
    has_shape n n G /\ has_shape n n R /\
    forall i j, (i < n)%nat -> (j < n)%nat ->
      let c := (Z.of_nat n / 2)%Z in
      let inside :=
        ((c - seed_radius <= Z.of_nat i < c + seed_radius)%Z /\
         (c - seed_radius <= Z.of_nat j < c + seed_radius)%Z) in
      (inside ->
         at_ G i j = 1 / 2 /\
         exists e, noise_term noise_level e /\ at_ R i j = 1 / 4 + e) /\
      (~ inside ->
         at_ G i j = 1 /\
         exists e, noise_term noise_level e /\ at_ R i j = 0 + e).
Proof.
  intros Hsr Hnl Hu Hrange.
  destruct (initialize_fields_spec (AR := reals) seed_radius noise_level Hu)
    as (G & Rr & E & HG & HR & Hc).
  exists G, Rr. split; [exact E|]. split; [exact HG|]. split; [exact HR|].
  intros i j Hi Hj c inside.
  destruct (Hc i j Hi Hj) as [EG ER]. reals_norm.
  rewrite (cell_default (Q2R 0) 0 Hu Hi Hj) in ER.
  assert (Hn : noise_term noise_level (cell 0 u i j * noise_level)).
  { destruct (Hrange i j Hi Hj) as [H0 H1]. unfold noise_term.
    split; [nra|]. split; [intros; nra|intros ->; ring]. }
  pose proof (@in_seed_centered n seed_radius i Hsr) as Ii.
  pose proof (@in_seed_centered n seed_radius j Hsr) as Ij.
  fold c in Ii, Ij.
  split.
  - intros [Hin_i Hin_j].
    apply Ii in Hin_i. apply Ij in Hin_j. rewrite Hin_i, Hin_j in EG, ER.
    simpl in EG, ER. rewrite EG, ER, Q2R_half, Q2R_quarter.
    split; [reflexivity|]. eexists. split; [exact Hn|reflexivity].
  - intros Hout.
    assert (Hb : in_seed n seed_radius i && in_seed n seed_radius j = false).
    { apply andb_false_iff.
      destruct (in_seed n seed_radius i) eqn:Bi;
        destruct (in_seed n seed_radius j) eqn:Bj; auto.
      exfalso. apply Hout. split; [now apply Ii|now apply Ij]. }
    rewrite Hb in EG, ER. rewrite EG, ER, Q2R_one, Q2R_zero.
    split; [reflexivity|]. eexists. split; [exact Hn|reflexivity].
Qed.

(** ** The advection map *)

Lemma arange_length (n : nat) : length (arange n) = n.
Proof. unfold arange. now rewrite length_map, length_seq. Qed.

Lemma nth_arange (n i : nat) (d : R) : (i < n)%nat -> nth i (arange n) d = INR i.
Proof.
  intros Hi. unfold arange.
  rewrite (@nth_map_lt _ _ INR (seq 0 n) i 0%nat d) by (rewrite length_seq; lia).
  now rewrite seq_nth by lia.
Qed.

Lemma meshgrid_shape (a b : list R) :
  has_shape (length a) (length b) (fst (meshgrid_ij a b)) /\
  has_shape (length a) (length b) (snd (meshgrid_ij a b)).
Proof.
  unfold meshgrid_ij; simpl. split; split; try apply length_map;
    apply Forall_forall; intros row Hrow; apply in_map_iff in Hrow;
    destruct Hrow as (v & <- & _); [apply length_map|reflexivity].
Qed.

Lemma cell_meshgrid (a b : list R) (d : R) (i j : nat) :
  (i < length a)%nat -> (j < length b)%nat ->
  cell d (fst (meshgrid_ij a b)) i j = nth i a d /\
  cell d (snd (meshgrid_ij a b)) i j = nth j b d.
Proof.
  intros Hi Hj. unfold meshgrid_ij, cell; simpl. split.
  - rewrite (@nth_map_lt _ _ (fun v => map (fun _ => v) b) a i d [] Hi).
    now rewrite (@nth_map_lt _ _ (fun _ => nth i a d) b j d d Hj).
  - now rewrite (@nth_map_lt _ _ (fun _ => b) a i d [] Hi).
Qed.

Lemma build_keplerian_coords_spec (n : nat) (rs : R) :
  exists c, build_keplerian_coords n rs = Ok c /\
    has_shape n n (row_src c) /\ has_shape n n (col_src c) /\
    forall i j, (i < n)%nat -> (j < n)%nat ->
      let t := warp_angle n rs i j in
      let ctr := IZR (Z.of_nat n / 2) in
      cell 0 (row_src c) i j = offset n j * sin t + offset n i * cos t + ctr /\
      cell 0 (col_src c) i j = offset n j * cos t - offset n i * sin t + ctr.
Proof.
  unfold build_keplerian_coords.
  destruct (meshgrid_shape (arange n) (arange n)) as [Hy Hx].
  rewrite arange_length in Hy, Hx.
  pose proof (cell_meshgrid (arange n) (arange n) 0) as Hcm.
  destruct (meshgrid_ij (arange n) (arange n)) as [y x]. simpl in Hy, Hx, Hcm.
  set (ctr := IZR (Z.of_nat n / 2)).
  pose proof (ew1_shape (fun v => v - ctr) Hx) as Hdx.
  pose proof (ew1_shape (fun v => v - ctr) Hy) as Hdy.
  set (dx := ew1 (fun v => v - ctr) x) in *.
  set (dy := ew1 (fun v => v - ctr) y) in *.
  rewrite (ew_same_shape Rmult Hdx Hdx). cbn [rbind].
  pose proof (zip_with_shape Rmult Hdx Hdx) as Hxx.
  rewrite (ew_same_shape Rmult Hdy Hdy). cbn [rbind].
  pose proof (zip_with_shape Rmult Hdy Hdy) as Hyy.
  rewrite (ew_same_shape Rplus Hxx Hyy). cbn [rbind].
  pose proof (zip_with_shape Rplus Hxx Hyy) as Hrr.
  pose proof (ew1_shape sqrt Hrr) as Hr0.
  pose proof (ew1_shape (fun v => if Req_dec_T v 0 then 1 else v) Hr0) as Hr.
  pose proof (ew1_shape (fun v => rs * (1 / v)) Hr) as Hth.
  set (theta := ew1 (fun v => rs * (1 / v)) _) in *.
  pose proof (ew1_shape cos Hth) as Hcos.
  pose proof (ew1_shape sin Hth) as Hsin.
  rewrite (ew_same_shape Rmult Hdx Hcos). cbn [rbind].
  pose proof (zip_with_shape Rmult Hdx Hcos) as Hxc.
  rewrite (ew_same_shape Rmult Hdy Hsin). cbn [rbind].
  pose proof (zip_with_shape Rmult Hdy Hsin) as Hys.
  rewrite (ew_same_shape Rminus Hxc Hys). cbn [rbind].
  pose proof (zip_with_shape Rminus Hxc Hys) as Hxw.
  rewrite (ew_same_shape Rmult Hdx Hsin). cbn [rbind].
  pose proof (zip_with_shape Rmult Hdx Hsin) as Hxs.
  rewrite (ew_same_shape Rmult Hdy Hcos). cbn [rbind].
  pose proof (zip_with_shape Rmult Hdy Hcos) as Hyc.
  rewrite (ew_same_shape Rplus Hxs Hyc). cbn [rbind].
  pose proof (zip_with_shape Rplus Hxs Hyc) as Hyw.
  eexists. split; [reflexivity|]. cbn [row_src col_src].
  split; [now apply ew1_shape|]. split; [now apply ew1_shape|].
  intros i j Hi Hj. set (t := warp_angle n rs i j).
  assert (Hi' : (i < length (arange n))%nat) by (now rewrite arange_length).
  assert (Hj' : (j < length (arange n))%nat) by (now rewrite arange_length).
  destruct (Hcm i j Hi' Hj') as [Ey Ex].
  rewrite nth_arange in Ey, Ex by assumption.
  assert (Edx : cell 0 dx i j = offset n j).
  { unfold dx. rewrite (cell_ew1 (fun v => v - ctr) 0 0 Hx Hi Hj).
    now rewrite Ex. }
  assert (Edy : cell 0 dy i j = offset n i).
  { unfold dy. rewrite (cell_ew1 (fun v => v - ctr) 0 0 Hy Hi Hj).
    now rewrite Ey. }
  assert (Eth : cell 0 theta i j = t).
  { unfold theta.
    rewrite (cell_ew1 (fun v => rs * (1 / v)) 0 0 Hr Hi Hj).
    rewrite (cell_ew1 (fun v => if Req_dec_T v 0 then 1 else v) 0 0 Hr0 Hi Hj).
    rewrite (cell_ew1 sqrt 0 0 Hrr Hi Hj).
    rewrite (cell_zip_with Rplus 0 0 0 Hxx Hyy Hi Hj).
    rewrite (cell_zip_with Rmult 0 0 0 Hdx Hdx Hi Hj).
    rewrite (cell_zip_with Rmult 0 0 0 Hdy Hdy Hi Hj).
    rewrite Edx, Edy. reflexivity. }
  split.
  - rewrite (cell_ew1 (fun v => v + ctr) 0 0 Hyw Hi Hj).
    rewrite (cell_zip_with Rplus 0 0 0 Hxs Hyc Hi Hj).
    rewrite (cell_zip_with Rmult 0 0 0 Hdx Hsin Hi Hj).
    rewrite (cell_zip_with Rmult 0 0 0 Hdy Hcos Hi Hj).
    rewrite (cell_ew1 sin 0 0 Hth Hi Hj), (cell_ew1 cos 0 0 Hth Hi Hj).
    now rewrite Edx, Edy, Eth.
  - rewrite (cell_ew1 (fun v => v + ctr) 0 0 Hxw Hi Hj).
    rewrite (cell_zip_with Rminus 0 0 0 Hxc Hys Hi Hj).
    rewrite (cell_zip_with Rmult 0 0 0 Hdx Hcos Hi Hj).
    rewrite (cell_zip_with Rmult 0 0 0 Hdy Hsin Hi Hj).
    rewrite (cell_ew1 sin 0 0 Hth Hi Hj), (cell_ew1 cos 0 0 Hth Hi Hj).
    now rewrite Edx, Edy, Eth.
Qed.

Lemma sin_cos_square (t : R) : sin t * sin t + cos t * cos t = 1.
Proof. exact (sin2_cos2 t). Qed.

Lemma INR_half (n : nat) : INR (n / 2) = IZR (Z.of_nat n / 2).
Proof. now rewrite INR_IZR_INZ, Nat2Z.inj_div. Qed.

(** C10. For every [n >= 1] and every rotation strength, in exact real
    arithmetic, the source coordinate stored for a cell lies at the same
    Euclidean distance from the centre [(n // 2, n // 2)] as the cell
    itself, and the source coordinate of the centre cell is the centre. *)
Theorem warp_preserves_distance_from_center (n : nat) (rotation_strength : R) :
  (1 <= n)%nat ->
  exists c, build_keplerian_coords n rotation_strength = Ok c /\
    (forall i j, (i < n)%nat -> (j < n)%nat ->
       dist_center n (cell 0 (row_src c) i j) (cell 0 (col_src c) i j)
       = dist_center n (INR i) (INR j)) /\
    cell 0 (row_src c) (n / 2) (n / 2) = IZR (Z.of_nat n / 2) /\
    cell 0 (col_src c) (n / 2) (n / 2) = IZR (Z.of_nat n / 2).
Proof.
  intros Hn.
  destruct (build_keplerian_coords_spec n rotation_strength)
    as (c & E & _ & _ & Hc).
  exists c. split; [exact E|]. split.
  - intros i j Hi Hj. destruct (Hc i j Hi Hj) as [-> ->].
    unfold dist_center. f_equal.
    set (t := warp_angle n rotation_strength i j).
    pose proof (sin_cos_square t) as Ht.
    fold (offset n i) (offset n j).
    transitivity (offset n j * offset n j * (sin t * sin t + cos t * cos t)
                  + offset n i * offset n i * (sin t * sin t + cos t * cos t));
      [ring|rewrite Ht; ring].
  - assert (Hk : (n / 2 < n)%nat) by (apply Nat.div_lt; lia).
    destruct (Hc (n / 2)%nat (n / 2)%nat Hk Hk) as [-> ->].
    unfold offset. rewrite INR_half. split; ring.
Qed.

(** Sampling at a grid point returns the value stored there. *)
Lemma bilinear_at_node (n m : nat) (z : grid R) (i j : nat) :
  has_shape n m z -> (i < n)%nat -> (j < m)%nat ->
  bilinear z (INR i) (INR j) = cell 0 z i j.
Proof.
  intros Hz Hi Hj. unfold bilinear.
  rewrite (ncols_shape Hz ltac:(lia)). destruct Hz as [-> _].
  rewrite !INR_IZR_INZ, !ZfloorZ, !wrap_small by assumption.
  ring.
Qed.

(** C6. With [rotation_strength = 0] the map is the identity: the source
    coordinate stored for cell [(i, j)] is [(i, j)], and advecting an
    [n x n] field through the map returns the field. *)
Theorem zero_rotation_identity_map (n : nat) :
  exists c, build_keplerian_coords n 0 = Ok c /\
    (forall i j, (i < n)%nat -> (j < n)%nat ->
       cell 0 (row_src c) i j = INR i /\ cell 0 (col_src c) i j = INR j) /\
    (forall z, has_shape n n z -> map_coordinates z c = Ok z).
Proof.
  destruct (build_keplerian_coords_spec n 0) as (c & E & Hr & Hcl & Hc).
  assert (Hid : forall i j, (i < n)%nat -> (j < n)%nat ->
            cell 0 (row_src c) i j = INR i /\ cell 0 (col_src c) i j = INR j).
  { intros i j Hi Hj. destruct (Hc i j Hi Hj) as [-> ->].
    assert (Ht : warp_angle n 0 i j = 0) by (unfold warp_angle; ring).
    rewrite Ht, sin_0, cos_0. unfold offset. split; ring. }
  exists c. split; [exact E|]. split; [exact Hid|].
  intros z Hz. unfold map_coordinates.
  assert (Ez : zip_with (zip_with (bilinear z)) (row_src c) (col_src c) = z).
  { apply (@grid_ext R 0 n n); [now apply zip_with_shape|exact Hz|].
    intros i j Hi Hj.
    rewrite (cell_zip_with (bilinear z) 0 0 0 Hr Hcl Hi Hj).
    destruct (Hid i j Hi Hj) as [-> ->].
    now apply bilinear_at_node with (n := n) (m := n). }
  now rewrite Ez.
Qed.

(** ** Advection does not conserve mass *)

Lemma total_22 (z : grid R) :
  has_shape 2 2 z ->
  total z = cell 0 z 0 0 + cell 0 z 0 1 + cell 0 z 1 0 + cell 0 z 1 1.
Proof.
  intros [H1 H2].
  destruct z as [|r0 [|r1 [|r2 z]]]; simpl in H1; try lia.
  inversion H2 as [|? ? Hr0 H3]; subst. inversion H3 as [|? ? Hr1 H4]; subst.
  destruct r0 as [|a [|b [|c r0]]]; simpl in Hr0; try lia.
  destruct r1 as [|a' [|b' [|c' r1]]]; simpl in Hr1; try lia.
  unfold total, cell; simpl. ring.
Qed.

Lemma bilinear_at_integer (z : grid R) (a b : Z) :
  bilinear z (IZR a) (IZR b) = cell 0 z (wrap (length z) a) (wrap (ncols z) b).
Proof.
  unfold bilinear. rewrite !ZfloorZ. ring.
Qed.

Lemma r_zero_cell (a b : nat) : cell 0 r_zero a b = 0.
Proof.
  unfold cell, r_zero.
  destruct a as [|[|[|a]]]; destruct b as [|[|[|b]]]; reflexivity.
Qed.

Lemma bilinear_r_zero (y x : R) : bilinear r_zero y x = 0.
Proof.
  unfold bilinear. rewrite !r_zero_cell. ring.
Qed.

Lemma wrap2_cases (k : Z) : wrap 2 k = 0%nat \/ wrap 2 k = 1%nat.
Proof.
  pose proof (@wrap_lt 2 k ltac:(lia)). lia.
Qed.

(** Sampling [g_dent] between row -1 (that is row 1, all ones) and row 0. *)
Lemma bilinear_g_dent_pos (y x : R) :
  -1 < y < 0 -> 0 < bilinear g_dent y x.
Proof.
  intros Hy. unfold bilinear.
  assert (Ey : Zfloor y = (-1)%Z) by (apply Zfloor_eq; simpl; lra).
  rewrite Ey. change (wrap (length g_dent) (-1)) with 1%nat.
  change (wrap (length g_dent) (-1 + 1)) with 0%nat.
  pose proof (Zfloor_bound x) as Hx.
  set (fx := x - IZR (Zfloor x)) in *.
  assert (Hfx : 0 <= fx < 1) by (unfold fx; lra).
  set (fy := y - IZR (-1)).
  assert (Hfy : 0 < fy < 1) by (unfold fy; simpl; lra).
  change (ncols g_dent) with 2%nat.
  destruct (wrap2_cases (Zfloor x)) as [-> | ->];
    destruct (wrap2_cases (Zfloor x + 1)) as [-> | ->];
    unfold cell, g_dent; simpl; nra.
Qed.

Lemma sqrt2_gt_1 : 1 < sqrt 2.
Proof.
  rewrite <- sqrt_1 at 1. apply sqrt_lt_1; lra.
Qed.

Lemma quarter_turn_angle : 0 < PI / 2 * (1 / sqrt 2) < PI / 2.
Proof.
  pose proof sqrt2_gt_1 as H2. pose proof PI2_RGT_0 as HP.
  assert (H : 0 < 1 / sqrt 2 < 1).
  { split.
    - apply Rdiv_lt_0_compat; lra.
    - apply (Rmult_lt_reg_r (sqrt 2)); [lra|]. field_simplify; lra. }
  nra.
Qed.

Lemma sin_plus_cos_bounds (t : R) :
  0 < t < PI / 2 -> 1 < sin t + cos t < 2.
Proof.
  intros [H0 H1]. pose proof PI2_RGT_0 as HP.
  assert (Hs : 0 < sin t) by (apply sin_gt_0; lra).
  assert (Hc : 0 < cos t) by (apply cos_gt_0; lra).
  pose proof (sin_cos_square t) as Hq.
  assert (Hp : 0 < sin t * cos t) by (apply Rmult_lt_0_compat; assumption).
  assert (Hsq : (sin t + cos t) * (sin t + cos t) = 1 + 2 * (sin t * cos t))
    by (rewrite <- Hq; ring).
  assert (Hd : 0 <= (sin t - cos t) * (sin t - cos t)) by apply Rle_0_sqr.
  split.
  - destruct (Rle_or_lt (sin t + cos t) 1) as [Hle|Hlt]; [|exact Hlt].
    exfalso. assert ((sin t + cos t) * (sin t + cos t) <= 1 * 1)
      by (apply Rmult_le_compat; lra). lra.
  - destruct (Rle_or_lt 2 (sin t + cos t)) as [Hle|Hlt]; [|exact Hlt].
    exfalso. assert (2 * 2 <= (sin t + cos t) * (sin t + cos t))
      by (apply Rmult_le_compat; lra).
    assert ((sin t - cos t) * (sin t - cos t) = 1 - 2 * (sin t * cos t))
      by (rewrite <- Hq; ring).
    lra.
Qed.

Lemma offset_2_0 : offset 2 0 = -1.
Proof. unfold offset. change (Z.of_nat 2 / 2)%Z with 1%Z. simpl. lra. Qed.

Lemma offset_2_1 : offset 2 1 = 0.
Proof. unfold offset. change (Z.of_nat 2 / 2)%Z with 1%Z. simpl. lra. Qed.

Lemma warp_angle_edge (rs : R) :
  warp_angle 2 rs 0 1 = rs /\ warp_angle 2 rs 1 0 = rs.
Proof.
  unfold warp_angle. rewrite offset_2_0, offset_2_1.
  replace (0 * 0 + -1 * -1) with 1 by ring.
  replace (-1 * -1 + 0 * 0) with 1 by ring.
  rewrite sqrt_1. destruct (Req_dec_T 1 0); [lra|]. split; field.
Qed.

Lemma warp_angle_corner (rs : R) :
  warp_angle 2 rs 0 0 = rs * (1 / sqrt 2).
Proof.
  unfold warp_angle. rewrite offset_2_0.
  replace (-1 * -1 + -1 * -1) with 2 by ring.
  pose proof sqrt2_gt_1. destruct (Req_dec_T (sqrt 2) 0); [lra|]. reflexivity.
Qed.

Lemma warp_angle_center (rs : R) : warp_angle 2 rs 1 1 = rs.
Proof.
  unfold warp_angle. rewrite offset_2_1.
  replace (0 * 0 + 0 * 0) with 0 by ring.
  rewrite sqrt_0. destruct (Req_dec_T 0 0); [field|contradiction].
Qed.

Lemma g_dent_shape : has_shape 2 2 g_dent.
Proof. split; [reflexivity|repeat constructor]. Qed.

Lemma r_zero_shape : has_shape 2 2 r_zero.
Proof. split; [reflexivity|repeat constructor]. Qed.

(** C5 as stated does not hold when advection is enabled.  On the 2 x 2
    grid, with the map built for [rotation_strength = PI / 2] and
    [feed = kill = eta = 0], the field [g_dent] (total 3) has total
    [3 + b] with [b > 0] after one tick: the resampling pass creates mass. *)
Lemma advected_tick_changes_mass :
  Config.FEED diffusion_only = 0 /\ Config.KILL diffusion_only = 0 /\
  Config.ETA diffusion_only = 0 /\
  exists c s',
    build_keplerian_coords (Config.N diffusion_only)
      (Config.ROTATION_STRENGTH diffusion_only) = Ok c /\
    update map_coordinates diffusion_only (Some c) {| g := g_dent; r := r_zero |}
    = (Ok tt, s') /\
    total (g s') + total (r s') <> total g_dent + total r_zero.
Proof.
  split; [reflexivity|]. split; [reflexivity|]. split; [reflexivity|].
  cbn [Config.N Config.ROTATION_STRENGTH diffusion_only].
  destruct (build_keplerian_coords_spec 2 (PI / 2)) as (c & E & Hr & Hcl & Hc).
  exists c.
  set (g0 := zip_with (zip_with (bilinear g_dent)) (row_src c) (col_src c)).
  set (r0 := zip_with (zip_with (bilinear r_zero)) (row_src c) (col_src c)).
  pose proof (zip_with_shape (bilinear g_dent) Hr Hcl) as Hg0.
  pose proof (zip_with_shape (bilinear r_zero) Hr Hcl) as Hr0.
  fold g0 in Hg0. fold r0 in Hr0.
  destruct (@update_spec reals map_coordinates diffusion_only 2 (Some c)
              (@Build_fields reals g_dent r_zero) (@Build_fields reals g0 r0)
              (conj eq_refl eq_refl) Hg0 Hr0) as (s' & Es & Hs).
  exists s'. split; [exact E|]. split; [exact Es|].
  destruct (@substeps_conserve diffusion_only eq_refl eq_refl eq_refl 2 _
              (@Build_fields reals g0 r0) s' Hg0 Hr0 Hs) as [Tg Tr].
  cbn [g r] in Tg, Tr. rewrite Tg, Tr.
  rewrite (@total_22 _ Hg0), (@total_22 _ Hr0).
  rewrite (@total_22 _ g_dent_shape), (@total_22 _ r_zero_shape).
  unfold g0, r0.
  rewrite !(fun i j Hi Hj => cell_zip_with (bilinear r_zero) 0 0 0 Hr Hcl
                               (i := i) (j := j) Hi Hj) by lia.
  rewrite !bilinear_r_zero.
  rewrite !(fun i j Hi Hj => cell_zip_with (bilinear g_dent) 0 0 0 Hr Hcl
                               (i := i) (j := j) Hi Hj) by lia.
  destruct (Hc 0%nat 0%nat ltac:(lia) ltac:(lia)) as [-> ->].
  destruct (Hc 0%nat 1%nat ltac:(lia) ltac:(lia)) as [-> ->].
  destruct (Hc 1%nat 0%nat ltac:(lia) ltac:(lia)) as [-> ->].
  destruct (Hc 1%nat 1%nat ltac:(lia) ltac:(lia)) as [-> ->].
  destruct (warp_angle_edge (PI / 2)) as [-> ->].
  rewrite warp_angle_corner, warp_angle_center.
  rewrite offset_2_0, offset_2_1, sin_PI2, cos_PI2.
  change (Z.of_nat 2 / 2)%Z with 1%Z.
  set (t := PI / 2 * (1 / sqrt 2)).
  pose proof (@sin_plus_cos_bounds _ quarter_turn_angle) as Hsc. fold t in Hsc.
  replace (0 * 1 + -1 * 0 + 1) with (IZR 1) by (simpl; ring).
  replace (0 * 0 - -1 * 1 + 1) with (IZR 2) by (simpl; ring).
  replace (-1 * 1 + 0 * 0 + 1) with (IZR 0) by (simpl; ring).
  replace (-1 * 0 - 0 * 1 + 1) with (IZR 1) by (simpl; ring).
  replace (0 * 1 + 0 * 0 + 1) with (IZR 1) by (simpl; ring).
  replace (0 * 0 - 0 * 1 + 1) with (IZR 1) by (simpl; ring).
  rewrite !bilinear_at_integer.
  assert (Hpos : 0 < bilinear g_dent (-1 * sin t + -1 * cos t + 1)
                       (-1 * cos t - -1 * sin t + 1))
    by (apply bilinear_g_dent_pos; lra).
  unfold cell, g_dent, r_zero; simpl. 
  change (wrap 2 1) with 1%nat. change (wrap 2 2) with 0%nat.
  change (wrap 2 0) with 0%nat. simpl.
  unfold g_dent in Hpos. lra.
Qed.

(** ** A map of another shape is not rejected *)

Lemma substeps_shapes (p : Config.params) (n k : nat) (s s' : fields) :
  substeps p n k s s' ->
  has_shape n n (g s) -> has_shape n n (r s) ->
  has_shape n n (g s') /\ has_shape n n (r s').
Proof.
  intros H. induction H as [s|k s s1 s2 H1 H2 IH]; intros Hg Hr; [now split|].
  destruct (substep_shapes H1) as [Hg1 Hr1]. now apply IH.
Qed.

(** C9 as stated does not hold.  With a 2 x 2 gas field, a 3 x 3 radiation
    field and the 1 x 1 map [build_keplerian_coords 1 0.05], the tick
    raises nothing: it returns two 1 x 1 fields. *)
Lemma mismatched_map_tick_succeeds :
  exists c s',
    build_keplerian_coords 1 (Q2R (5 # 100)) = Ok c /\
    shape r22 = (2, 2)%nat /\ shape r33 = (3, 3)%nat /\
    shape (row_src c) = (1, 1)%nat /\ shape (col_src c) = (1, 1)%nat /\
    update map_coordinates Config.default (Some c)
      (@Build_fields reals r22 r33) = (Ok tt, s') /\
    shape (g s') = (1, 1)%nat /\ shape (r s') = (1, 1)%nat.
Proof.
  destruct (build_keplerian_coords_spec 1 (Q2R (5 # 100)))
    as (c & E & Hr & Hcl & _).
  set (g0 := zip_with (zip_with (bilinear r22)) (row_src c) (col_src c)).
  set (r0 := zip_with (zip_with (bilinear r33)) (row_src c) (col_src c)).
  pose proof (zip_with_shape (bilinear r22) Hr Hcl) as Hg0.
  pose proof (zip_with_shape (bilinear r33) Hr Hcl) as Hr0.
  fold g0 in Hg0. fold r0 in Hr0.
  destruct (@update_spec reals map_coordinates Config.default 1 (Some c)
              (@Build_fields reals r22 r33) (@Build_fields reals g0 r0)
              (conj eq_refl eq_refl) Hg0 Hr0) as (s' & Es & Hs).
  destruct (@substeps_shapes Config.default 1 _ (@Build_fields reals g0 r0) s'
              Hs Hg0 Hr0) as [Hg' Hr'].
  exists c, s'. split; [exact E|]. split; [reflexivity|]. split; [reflexivity|].
  split; [now apply has_shape_rect|]. split; [now apply has_shape_rect|].
  split; [exact Es|].
  split; now apply has_shape_rect.
Qed.

(** The model of [map_coordinates] returns one value per cell of the
    map. *)
Lemma map_coordinates_resamples : resamples_onto_map map_coordinates.
Proof.
  intros z c a b n _ _ _ _ Hrow Hcol. unfold map_coordinates.
  eexists. split; [reflexivity|]. now apply zip_with_shape.
Qed.

End ExactFacts.

(** ** The power spectrum of a real field *)

Module SpectrumFacts.

Import Exact ExactSpec ExactFacts.
Local Open Scope R_scope.

(** Termwise equal (or opposite) summands give equal (or opposite) sums. *)
Lemma sum_imap_from_ext {A} (f h : nat -> A -> R) (l : list A) (k : nat) :
  (forall i x, f i x = h i x) ->
  sum_list (imap_from k f l) = sum_list (imap_from k h l).
Proof.
  intros E. revert k. induction l as [|x l IH]; intros k; simpl; [reflexivity|].
  now rewrite E, IH.
Qed.

Lemma sum_imap_from_opp {A} (f h : nat -> A -> R) (l : list A) (k : nat) :
  (forall i x, f i x = - h i x) ->
  sum_list (imap_from k f l) = - sum_list (imap_from k h l).
Proof.
  intros E. revert k. induction l as [|x l IH]; intros k; simpl; [ring|].
  rewrite E, IH. ring.
Qed.

(** Two frequencies that add up to a multiple of [n] on each axis have
    conjugate Fourier kernels. *)
Lemma dft_angle_conj (n k k' l l' ek el a b : nat) :
  (0 < n)%nat ->
  (k + k' = ek * n)%nat -> (l + l' = el * n)%nat ->
  cos (dft_angle n n k' l' a b) = cos (dft_angle n n k l a b) /\
  sin (dft_angle n n k' l' a b) = - sin (dft_angle n n k l a b).
Proof.
  intros Hn Hk Hl.
  assert (Hn' : INR n <> 0) by (apply not_0_INR; lia).
  assert (E : dft_angle n n k' l' a b
              = - dft_angle n n k l a b + 2 * INR (ek * a + el * b) * PI).
  { unfold dft_angle.
    assert (Ek : INR k' = INR ek * INR n - INR k)
      by (rewrite <- mult_INR, <- Hk, plus_INR; ring).
    assert (El : INR l' = INR el * INR n - INR l)
      by (rewrite <- mult_INR, <- Hl, plus_INR; ring).
    rewrite Ek, El, plus_INR, !mult_INR. field. exact Hn'. }
  rewrite E, cos_period, sin_period, cos_neg, sin_neg. split; reflexivity.
Qed.

Lemma fft2_shape (n : nat) (z : grid R) :
  has_shape n n z -> has_shape n n (fft2 z).
Proof.
  intros Hz. unfold fft2. split.
  - rewrite length_map, length_seq. now destruct Hz.
  - apply Forall_forall. intros row Hrow. apply in_map_iff in Hrow.
    destruct Hrow as (k & <- & _). rewrite length_map, length_seq.
    destruct n as [|n]; [destruct Hz as [Hz _]; destruct z; [reflexivity|discriminate]|].
    apply (ncols_shape Hz). lia.
Qed.

Lemma cell_fft2 (n : nat) (z : grid R) (k l : nat) :
  has_shape n n z -> (k < n)%nat -> (l < n)%nat ->
  cell (0, 0) (fft2 z) k l = (dft_re n z k l, dft_im n z k l).
Proof.
  intros Hz Hk Hl. unfold cell, fft2.
  rewrite (ncols_shape Hz ltac:(lia)). destruct Hz as [Hlen _]. rewrite Hlen.
  rewrite (@nth_map_lt _ _ _ (seq 0 n) k 0%nat []) by (rewrite length_seq; lia).
  rewrite (@nth_map_lt _ _ _ (seq 0 n) l 0%nat (0, 0)) by (rewrite length_seq; lia).
  rewrite !seq_nth by lia. reflexivity.
Qed.

Lemma dft_conj (n : nat) (z : grid R) (k k' l l' ek el : nat) :
  (0 < n)%nat ->
  (k + k' = ek * n)%nat -> (l + l' = el * n)%nat ->
  dft_re n z k' l' = dft_re n z k l /\ dft_im n z k' l' = - dft_im n z k l.
Proof.
  intros Hn Hk Hl. unfold dft_re, dft_im, imap. split.
  - apply sum_imap_from_ext. intros a row.
    apply sum_imap_from_ext. intros b v.
    destruct (@dft_angle_conj n k k' l l' ek el a b Hn Hk Hl) as [-> _].
    reflexivity.
  - rewrite <- (Ropp_involutive (sum_list (imap_from 0 _ z))) at 1.
    f_equal. symmetry. apply sum_imap_from_opp. intros a row.
    apply sum_imap_from_opp. intros b v.
    destruct (@dft_angle_conj n k k' l l' ek el a b Hn Hk Hl) as [_ ->].
    ring.
Qed.

Lemma reflect_lt (n i : nat) : (0 < n)%nat -> (reflect n i < n)%nat.
Proof. intros Hn. now apply wrap_lt. Qed.

Lemma freq_reflect (n i : nat) :
  (0 < n)%nat ->
  exists e, (freq n i + freq n (reflect n i) = e * n)%nat.
Proof.
  intros Hn. unfold freq, reflect, wrap.
  set (c := (Z.of_nat n / 2)%Z). set (N := Z.of_nat n).
  assert (HN : (0 < N)%Z) by (unfold N; lia).
  rewrite Z2Nat.id by (apply Z.mod_pos_bound; lia).
  rewrite Zminus_mod_idemp_l.
  replace (2 * c - Z.of_nat i - c)%Z with (- (Z.of_nat i - c))%Z by lia.
  pose proof (Z.mod_pos_bound (Z.of_nat i - c) N HN) as HA.
  destruct (Z.eq_dec ((Z.of_nat i - c) mod N) 0) as [E0|E0].
  - exists 0%nat. rewrite Z.mod_opp_l_z by (try lia; exact E0).
    rewrite E0. reflexivity.
  - exists 1%nat. rewrite Z.mod_opp_l_nz by (try lia; exact E0).
    unfold N in *. lia.
Qed.

Lemma fftshift_shape {A} (n : nat) (z : grid A) :
  has_shape n n z -> has_shape n n (fftshift z).
Proof.
  intros Hz. unfold fftshift. now apply roll_shape, roll_shape.
Qed.

Lemma cell_fftshift {A} (d : A) (n : nat) (z : grid A) (i j : nat) :
  has_shape n n z -> (i < n)%nat -> (j < n)%nat ->
  cell d (fftshift z) i j = cell d z (freq n i) (freq n j).
Proof.
  intros Hz Hi Hj. unfold fftshift, freq.
  rewrite (ncols_shape Hz ltac:(lia)). pose proof Hz as [Hlen _]. rewrite Hlen.
  rewrite (cell_roll1 d (Z.of_nat n / 2)
             (roll_shape (Z.of_nat n / 2) axis0 Hz) Hi Hj).
  now rewrite (cell_roll0 d (Z.of_nat n / 2) (wrap n (Z.of_nat j - Z.of_nat n / 2)) Hz Hi).
Qed.

Lemma cell_spectrum (n : nat) (z : grid R) (i j : nat) :
  has_shape n n z -> (i < n)%nat -> (j < n)%nat ->
  cell 0 (get_power_spectrum z) i j
  = ln (cabs (dft_re n z (freq n i) (freq n j), dft_im n z (freq n i) (freq n j))
        + Q2R (1 # 1000000000)).
Proof.
  intros Hz Hi Hj. unfold get_power_spectrum.
  pose proof (@fft2_shape n z Hz) as HF.
  rewrite (cell_ew1 _ (0, 0) 0 (@fftshift_shape _ n _ HF) Hi Hj).
  rewrite (@cell_fftshift _ (0, 0) n _ i j HF Hi Hj).
  rewrite (@cell_fft2 n z _ _ Hz) by (apply wrap_lt; lia).
  reflexivity.
Qed.

(** Where the reflected index lies on the axis, the periodic reflection is
    the literal one. *)
Lemma reflect_literal (n i : nat) :
  (0 <= 2 * (Z.of_nat n / 2) - Z.of_nat i < Z.of_nat n)%Z ->
  Z.of_nat (reflect n i) = (2 * (Z.of_nat n / 2) - Z.of_nat i)%Z.
Proof.
  intros H. unfold reflect, wrap. rewrite Z.mod_small by lia. lia.
Qed.

(** C8. For every real-valued [n x n] field [Z], the array returned by
    [get_power_spectrum] is symmetric under point reflection through the
    centre cell [(n // 2, n // 2)]: the value at the reflection of a cell
    equals the value at the cell, reflected indices being taken on the
    periodic axis (for even [n] row 0 and column 0 reflect onto
    themselves). *)
Theorem spectrum_point_symmetric (n : nat) (Z : grid R) :
  has_shape n n Z ->
  forall i j, (i < n)%nat -> (j < n)%nat ->
    cell 0 (get_power_spectrum Z) (reflect n i) (reflect n j)
    = cell 0 (get_power_spectrum Z) i j.
Proof.
  intros HZ i j Hi Hj.
  assert (Hn : (0 < n)%nat) by lia.
  rewrite (@cell_spectrum n Z _ _ HZ (@reflect_lt n i Hn) (@reflect_lt n j Hn)).
  rewrite (@cell_spectrum n Z i j HZ Hi Hj).
  destruct (@freq_reflect n i Hn) as (ek & Hk).
  destruct (@freq_reflect n j Hn) as (el & Hl).
  destruct (@dft_conj n Z _ _ _ _ ek el Hn Hk Hl) as [-> ->].
  unfold cabs. cbn [fst snd]. do 3 f_equal. ring.
Qed.

End SpectrumFacts.

(** ** The default scenario in IEEE arithmetic *)

Module F32Facts.

Import F32.

Lemma sample32_times_zero (x : spec_float) :
  sample32 x = true -> mul x (cast (lit 0)) = S754_zero false.
Proof.
  destruct x as [[|]|[|]| |[|] m e]; simpl; intros H; try discriminate;
    reflexivity.
Qed.

Lemma in_seed_200 (i : nat) : 92 <= i <= 108 -> in_seed 200 10 i = true.
Proof.
  intros Hi. unfold in_seed. change (Z.of_nat 200 / 2)%Z with 100%Z.
  apply in_slice_inside; lia.
Qed.

Lemma eight_steps :
  lt32 (fst (Nat.iter 8 (cell_step Config.default)
               (cast (lit (1 # 2)), cast (lit (1 # 4)))))
       (cast (lit (1 # 2))) = true.
Proof. vm_compute. reflexivity. Qed.

Section Scenario.

Variable map_coordinates : grid f32 -> coords -> result (grid f32).

(** C3. With the default parameters, advection disabled, and the
    noise-free initial state ([noise_level = 0], whatever the random sample:
    [G = 0.5], [R = 0.25] on the centred 20 x 20 block), one tick (8
    sub-steps) in binary32 arithmetic returns two 200 x 200 fields, and
    leaves at the centre cell a value of [G] strictly below its initial
    value 0.5. *)
Theorem default_tick_lowers_center (u : grid pyfloat) :
  has_shape 200 200 u ->
  (forall i j, i < 200 -> j < 200 -> sample32 (cast (cell (lit 0) u i j)) = true) ->
  exists G R s',
    initialize_fields 200 10 (lit 0) u = Ok (G, R) /\
    at_ G 100 100 = cast (lit (1 # 2)) /\
    update map_coordinates Config.default None {| g := G; r := R |} = (Ok tt, s') /\
    has_shape 200 200 (g s') /\ has_shape 200 200 (r s') /\
    lt32 (at_ (g s') 100 100) (cast (lit (1 # 2))) = true.
Proof.
  intros Hu Hs.
  destruct (initialize_fields_spec 10 (lit 0) Hu) as (G & R & E & HG & HR & Hc).
  assert (U0 : uniform_on 100 8 {| g := G; r := R |}
                 (cast (lit (1 # 2))) (cast (lit (1 # 4)))).
  { intros i j Hi Hj. cbn [g r].
    destruct (Hc i j ltac:(lia) ltac:(lia)) as [-> ->].
    rewrite !in_seed_200 by lia. cbn [andb].
    rewrite sample32_times_zero by (apply Hs; lia).
    split; reflexivity. }
  destruct (@update_spec ieee map_coordinates Config.default 200 None
              {| g := G; r := R |} {| g := G; r := R |} eq_refl HG HR)
    as (s' & Es & Hsub).
  exists G, R, s'. split; [exact E|]. split.
  - destruct (Hc 100 100 ltac:(lia) ltac:(lia)) as [-> _].
    now rewrite !in_seed_200 by lia.
  - split; [exact Es|].
    destruct (@substeps_keep_shape ieee Config.default 200 8 _ _ Hsub HG HR)
      as [HG' HR'].
    split; [exact HG'|]. split; [exact HR'|].
    pose proof (@substeps_uniform ieee Config.default 200 100 8 _ _ Hsub 0
                  _ _ ltac:(lia) ltac:(lia) U0) as U8.
    destruct (U8 100 100 ltac:(lia) ltac:(lia)) as [-> _].
    exact eight_steps.
Qed.

End Scenario.

Import Inputs.




End F32Facts.

(* ================================================================== *)
(** * Part III: further properties of the kernels *)

(** ** Index arithmetic on a periodic axis *)

Lemma wrap_wrap_add (n : nat) (a b : Z) :
  0 < n -> wrap n (Z.of_nat (wrap n a) + b) = wrap n (a + b).
Proof.
  intros Hn. unfold wrap.
  rewrite Z2Nat.id by (apply Z.mod_pos_bound; lia).
  now rewrite Zplus_mod_idemp_l.
Qed.

Lemma wrap_shift (n : nat) (i : nat) (s d : Z) :
  0 < n ->
  wrap n (Z.of_nat (wrap n (Z.of_nat i + d)) - s)
  = wrap n (Z.of_nat (wrap n (Z.of_nat i - s)) + d).
Proof.
  intros Hn. unfold Z.sub. rewrite !wrap_wrap_add by assumption.
  f_equal. lia.
Qed.

Lemma half_bounds (n : nat) :
  (2 * (Z.of_nat n / 2) <= Z.of_nat n < 2 * (Z.of_nat n / 2) + 2)%Z.
Proof.
  pose proof (Z.div_mod (Z.of_nat n) 2 ltac:(lia)).
  pose proof (Z.mod_pos_bound (Z.of_nat n) 2 ltac:(lia)). lia.
Qed.

(** A seed radius that is not positive selects no index. *)
Lemma in_seed_nonpositive (n : nat) (seed_radius : Z) (i : nat) :
  (seed_radius <= 0)%Z -> in_seed n seed_radius i = false.
Proof.
  intros H. pose proof (half_bounds n) as Hh.
  unfold in_seed, in_slice, slice_bound.
  apply andb_false_iff.
  destruct (Nat.leb_spec (slice_bound n (Z.of_nat n / 2 - seed_radius)) i) as [Hl|Hl];
    [right|left; now apply Nat.leb_gt].
  apply Nat.ltb_ge. unfold slice_bound in *.
  destruct (Z.ltb_spec (Z.of_nat n / 2 - seed_radius) 0);
    destruct (Z.ltb_spec (Z.of_nat n / 2 + seed_radius) 0); lia.
Qed.

(** A seed radius above [n // 2] makes the first bound negative: Python
    counts it from the end, and the block is the trailing one. *)
Lemma in_seed_oversize (n : nat) (seed_radius : Z) (i : nat) :
  (Z.of_nat n / 2 < seed_radius)%Z -> i < n ->
  in_seed n seed_radius i
  = (Z.of_nat n + Z.of_nat n / 2 - seed_radius <=? Z.of_nat i)%Z.
Proof.
  intros H Hi. pose proof (half_bounds n) as Hh.
  unfold in_seed, in_slice, slice_bound.
  destruct (Z.ltb_spec (Z.of_nat n / 2 - seed_radius) 0); [|lia].
  destruct (Z.ltb_spec (Z.of_nat n / 2 + seed_radius) 0); [lia|].
  rewrite Z.min_r by lia. rewrite Nat2Z.id.
  replace (i <? n) with true by (symmetry; apply Nat.ltb_lt; lia).
  rewrite andb_true_r.
  destruct (Z.leb_spec (Z.of_nat n + Z.of_nat n / 2 - seed_radius) (Z.of_nat i));
    [apply Nat.leb_le|apply Nat.leb_gt]; lia.
Qed.

(** ** Homogeneous states *)

Section Homogeneous.

Context {AR : Arith}.
Variable map_coordinates : grid f32 -> coords -> result (grid f32).
Variable p : Config.params.

Lemma at_full (n i j : nat) (v : f32) : i < n -> j < n -> at_ (full n n v) i j = v.
Proof. intros Hi Hj. unfold at_. now apply cell_full. Qed.

Lemma stencil_full (n i j : nat) (v : f32) :
  i < n -> j < n ->
  stencil n n (full n n v) i j
  = sub (add (add (add v v) v) v) (mul (cast (lit 4)) v).
Proof.
  intros Hi Hj. unfold stencil.
  rewrite !at_full; try assumption; try (apply wrap_lt; lia). reflexivity.
Qed.

Lemma reaction_step_homogeneous (n : nat) (ab : f32 * f32) :
  reaction_step p (homogeneous n ab) = (Ok tt, homogeneous n (cell_step p ab)).
Proof.
  destruct ab as [a b].
  destruct (@reaction_step_spec AR p n (homogeneous n (a, b))
              (full_shape n n a) (full_shape n n b)) as (s' & E & Hg & Hr & Hc).
  rewrite E. f_equal. destruct s' as [g' r'].
  unfold homogeneous in *. cbn [g r fst snd] in *. f_equal.
  - apply (@grid_ext _ zero n n); [exact Hg|apply full_shape|].
    intros i j Hi Hj. fold (at_ g' i j).
    destruct (Hc i j Hi Hj) as [-> _].
    unfold delta_G_at, gr2_at.
    rewrite stencil_full, !at_full by assumption.
    fold (at_ (full n n (fst (cell_step p (a, b)))) i j).
    rewrite at_full by assumption. reflexivity.
  - apply (@grid_ext _ zero n n); [exact Hr|apply full_shape|].
    intros i j Hi Hj. fold (at_ r' i j).
    destruct (Hc i j Hi Hj) as [_ ->].
    unfold delta_R_at, gr2_at.
    rewrite stencil_full, !at_full by assumption.
    fold (at_ (full n n (snd (cell_step p (a, b)))) i j).
    rewrite at_full by assumption. reflexivity.
Qed.

Lemma for_range_homogeneous (n k : nat) (ab : f32 * f32) :
  for_range k (reaction_step p) (homogeneous n ab)
  = (Ok tt, homogeneous n (Nat.iter k (cell_step p) ab)).
Proof.
  revert ab. induction k as [|k IH]; intros ab; [reflexivity|].
  cbn [for_range]. unfold bind. rewrite reaction_step_homogeneous, IH.
  now rewrite Nat.iter_succ_r.
Qed.

(** X4. A tick without advection keeps constant fields constant, whatever
    the arithmetic: on fields that hold [a] and [b] everywhere it succeeds
    and leaves the fields that hold everywhere what [STEPS_PER_FRAME]
    single-cell steps make of [(a, b)]. *)
Theorem tick_homogeneous (n : nat) (a b : f32) :
  update map_coordinates p None (homogeneous n (a, b))
  = (Ok tt, homogeneous n
              (Nat.iter (Config.STEPS_PER_FRAME p) (cell_step p) (a, b))).
Proof.
  unfold update, bind. cbn [advection ret]. apply for_range_homogeneous.
Qed.

End Homogeneous.

(** ** Periodic translations *)

Section Translation.

Context {AR : Arith}.

(** The stencil of a rolled array is the stencil of the array, read at the
    rolled position. *)
Lemma stencil_roll0 (n m : nat) (z : grid f32) (s : Z) (i j : nat) :
  has_shape n m z -> i < n -> j < m ->
  stencil n m (roll z s axis0) i j = stencil n m z (wrap n (Z.of_nat i - s)) j.
Proof.
  intros Hz Hi Hj. assert (Hn : 0 < n) by lia. unfold stencil, at_.
  rewrite !(fun k Hk c => @cell_roll0 _ zero n m z s k c Hz Hk)
    by (assumption || (apply wrap_lt; lia)).
  change (Z.of_nat i - 1)%Z with (Z.of_nat i + - (1))%Z.
  rewrite !wrap_shift by assumption. reflexivity.
Qed.

Lemma stencil_roll1 (n m : nat) (z : grid f32) (s : Z) (i j : nat) :
  has_shape n m z -> i < n -> j < m ->
  stencil n m (roll z s axis1) i j = stencil n m z i (wrap m (Z.of_nat j - s)).
Proof.
  intros Hz Hi Hj. assert (Hn : 0 < n) by lia. assert (Hm : 0 < m) by lia.
  unfold stencil, at_.
  rewrite !(fun a b Ha Hb => @cell_roll1 _ zero n m z s a b Hz Ha Hb)
    by (assumption || (apply wrap_lt; lia)).
  change (Z.of_nat j - 1)%Z with (Z.of_nat j + - (1))%Z.
  rewrite !wrap_shift by assumption. reflexivity.
Qed.

Lemma cell_roll {A} (d : A) (n m : nat) (z : grid A) (s : Z) (ax : axis) (i j : nat) :
  has_shape n m z -> i < n -> j < m ->
  cell d (roll z s ax) i j
  = cell d z (fst (rolled_index n m s ax i j)) (snd (rolled_index n m s ax i j)).
Proof.
  intros Hz Hi Hj. destruct ax; cbn [rolled_index fst snd].
  - now apply cell_roll0 with (m := m).
  - now apply cell_roll1 with (n := n).
Qed.

Lemma rolled_index_lt (n m : nat) (s : Z) (ax : axis) (i j : nat) :
  i < n -> j < m ->
  fst (rolled_index n m s ax i j) < n /\ snd (rolled_index n m s ax i j) < m.
Proof.
  intros Hi Hj. destruct ax; cbn [rolled_index fst snd]; split;
    try assumption; apply wrap_lt; lia.
Qed.

Lemma stencil_roll (n m : nat) (z : grid f32) (s : Z) (ax : axis) (i j : nat) :
  has_shape n m z -> i < n -> j < m ->
  stencil n m (roll z s ax) i j
  = stencil n m z (fst (rolled_index n m s ax i j)) (snd (rolled_index n m s ax i j)).
Proof.
  intros Hz Hi Hj. destruct ax; cbn [rolled_index fst snd].
  - now apply stencil_roll0.
  - now apply stencil_roll1.
Qed.

(** X1. The Laplacian commutes with periodic translations: rolling the
    array by any amount along either axis and then taking the Laplacian
    gives the Laplacian of the array, rolled the same way. *)
Theorem laplacian_commutes_with_roll (n m : nat) (z : grid f32) (s : Z) (ax : axis) :
  has_shape n m z ->
  exists L, laplacian z = Ok L /\ laplacian (roll z s ax) = Ok (roll L s ax).
Proof.
  intros Hz.
  destruct (laplacian_spec Hz) as (L & EL & HL & CL).
  destruct (laplacian_spec (roll_shape s ax Hz)) as (L' & EL' & HL' & CL').
  exists L. split; [exact EL|]. rewrite EL'. f_equal.
  apply (@grid_ext _ zero n m); [exact HL'|now apply roll_shape|].
  intros i j Hi Hj. fold (at_ L' i j). rewrite (CL' i j Hi Hj).
  rewrite (@stencil_roll n m z s ax i j Hz Hi Hj), (@cell_roll _ zero n m L s ax i j HL Hi Hj).
  destruct (rolled_index_lt s ax Hi Hj) as [Hi' Hj'].
  symmetry. now apply CL.
Qed.

Variable map_coordinates : grid f32 -> coords -> result (grid f32).
Variable p : Config.params.

Lemma substep_roll (n : nat) (s : Z) (ax : axis) (st st' : fields) :
  has_shape n n (g st) -> has_shape n n (r st) ->
  substep p n st st' ->
  substep p n (roll_fields s ax st) (roll_fields s ax st').
Proof.
  intros Hg Hr (Hg' & Hr' & Hc). unfold roll_fields, substep. cbn [g r].
  split; [now apply roll_shape|]. split; [now apply roll_shape|].
  intros i j Hi Hj.
  destruct (rolled_index_lt s ax Hi Hj) as [Hi' Hj'].
  destruct (Hc _ _ Hi' Hj') as [Eg Er].
  unfold delta_G_at, delta_R_at, gr2_at, at_ in *.
  rewrite (@stencil_roll n n (g st) s ax i j Hg Hi Hj).
  rewrite (@stencil_roll n n (r st) s ax i j Hr Hi Hj).
  rewrite !(@cell_roll _ zero n n (g st) s ax i j Hg Hi Hj).
  rewrite !(@cell_roll _ zero n n (r st) s ax i j Hr Hi Hj).
  rewrite (@cell_roll _ zero n n (g st') s ax i j Hg' Hi Hj).
  rewrite (@cell_roll _ zero n n (r st') s ax i j Hr' Hi Hj).
  now rewrite Eg, Er.
Qed.

Lemma substep_functional (n : nat) (st s1 s2 : fields) :
  substep p n st s1 -> substep p n st s2 -> s1 = s2.
Proof.
  intros (G1 & R1 & C1) (G2 & R2 & C2).
  destruct s1 as [g1 r1], s2 as [g2 r2]. cbn [g r] in *. f_equal.
  - apply (@grid_ext _ zero n n); try assumption. intros i j Hi Hj.
    destruct (C1 i j Hi Hj) as [E1 _], (C2 i j Hi Hj) as [E2 _].
    unfold at_ in *. congruence.
  - apply (@grid_ext _ zero n n); try assumption. intros i j Hi Hj.
    destruct (C1 i j Hi Hj) as [_ E1], (C2 i j Hi Hj) as [_ E2].
    unfold at_ in *. congruence.
Qed.

Lemma reaction_step_roll (n : nat) (s : Z) (ax : axis) (st : fields) :
  has_shape n n (g st) -> has_shape n n (r st) ->
  exists st', reaction_step p st = (Ok tt, st') /\
              has_shape n n (g st') /\ has_shape n n (r st') /\
              reaction_step p (roll_fields s ax st) = (Ok tt, roll_fields s ax st').
Proof.
  intros Hg Hr.
  destruct (@reaction_step_spec AR p n st Hg Hr) as (st' & E & H).
  destruct (@reaction_step_spec AR p n (roll_fields s ax st)
              (roll_shape s ax Hg) (roll_shape s ax Hr)) as (st2 & E2 & H2).
  exists st'. split; [exact E|].
  destruct (substep_shapes H) as [Hg' Hr'].
  split; [exact Hg'|]. split; [exact Hr'|].
  rewrite E2. f_equal.
  apply (@substep_functional n (roll_fields s ax st)); [exact H2|].
  now apply substep_roll.
Qed.

Lemma for_range_roll (n k : nat) (s : Z) (ax : axis) (st : fields) :
  has_shape n n (g st) -> has_shape n n (r st) ->
  exists st', for_range k (reaction_step p) st = (Ok tt, st') /\
              for_range k (reaction_step p) (roll_fields s ax st)
              = (Ok tt, roll_fields s ax st').
Proof.
  revert st. induction k as [|k IH]; intros st Hg Hr.
  - exists st. split; reflexivity.
  - destruct (@reaction_step_roll n s ax st Hg Hr) as (s1 & E1 & Hg1 & Hr1 & E1').
    destruct (IH s1 Hg1 Hr1) as (s2 & E2 & E2').
    exists s2. cbn [for_range]. unfold bind. rewrite E1, E1'. now split.
Qed.

(** X3. A tick without advection commutes with periodic translations:
    rolling both fields alike before the tick gives the result of the
    tick, rolled the same way. *)
Theorem tick_commutes_with_roll (n : nat) (s : Z) (ax : axis) (st : fields) :
  has_shape n n (g st) -> has_shape n n (r st) ->
  exists st', update map_coordinates p None st = (Ok tt, st') /\
              update map_coordinates p None (roll_fields s ax st)
              = (Ok tt, roll_fields s ax st').
Proof.
  intros Hg Hr. unfold update, bind. cbn [advection ret].
  now apply for_range_roll with (n := n).
Qed.

End Translation.

(** ** Edge cases of the seed block *)

Section InitEdges.

Context {AR : Arith}.

(** X8. A seed radius that is zero or negative seeds nothing: [G] is 1.0
    everywhere and [R] is the noise alone. *)
Theorem initialize_fields_without_seed (n : nat) (seed_radius : Z)
    (noise_level : pyfloat) (u : grid pyfloat) :
  (seed_radius <= 0)%Z -> has_shape n n u ->
  exists R, initialize_fields n seed_radius noise_level u
            = Ok (full n n (cast (lit 1)), R) /\
    has_shape n n R /\
    forall i j, i < n -> j < n ->
      at_ R i j = add (cast (lit 0)) (mul (cast (cell (lit 0) u i j)) (cast noise_level)).
Proof.
  intros Hs Hu.
  destruct (initialize_fields_spec seed_radius noise_level Hu)
    as (G & R & E & HG & HR & Hc).
  exists R. split; [|split; [exact HR|]].
  - rewrite E. do 2 f_equal.
    apply (@grid_ext _ zero n n); [exact HG|apply full_shape|].
    intros i j Hi Hj. destruct (Hc i j Hi Hj) as [EG _]. unfold at_ in EG.
    rewrite EG, (in_seed_nonpositive n i Hs), (cell_full zero _ Hi Hj).
    reflexivity.
  - intros i j Hi Hj. destruct (Hc i j Hi Hj) as [_ ER].
    now rewrite ER, (in_seed_nonpositive n i Hs).
Qed.

(** X9. With [seed_radius > n // 2] the seeded block is not centred: it is
    the square of the last rows and columns, from index
    [n + n // 2 - seed_radius] on (the whole grid when that is negative). *)
Theorem initialize_fields_oversize_seed (n : nat) (seed_radius : Z)
    (noise_level : pyfloat) (u : grid pyfloat) :
  (Z.of_nat n / 2 < seed_radius)%Z -> has_shape n n u ->
  exists G R, initialize_fields n seed_radius noise_level u = Ok (G, R) /\
    forall i j, i < n -> j < n ->
      at_ G i j =
      if ((Z.of_nat n + Z.of_nat n / 2 - seed_radius <=? Z.of_nat i)
          && (Z.of_nat n + Z.of_nat n / 2 - seed_radius <=? Z.of_nat j))%Z
      then cast (lit (1 # 2)) else cast (lit 1).
Proof.
  intros Hs Hu.
  destruct (initialize_fields_spec seed_radius noise_level Hu)
    as (G & R & E & HG & HR & Hc).
  exists G, R. split; [exact E|].
  intros i j Hi Hj. destruct (Hc i j Hi Hj) as [-> _].
  now rewrite (in_seed_oversize Hs Hi), (in_seed_oversize Hs Hj).
Qed.

End InitEdges.

(** ** The state a failing sub-step leaves *)

Section FailureState.

Context {AR : Arith}.
Variable p : Config.params.

(** X7. What a failing sub-step leaves behind, on rectangular fields of
    different shapes: it raises [ValueError], [R] is never modified and [G]
    keeps its shape.  [G] is not modified either, unless the shape of [R]
    broadcasts to that of [G]: then [g += delta_g] has already run when
    [r += delta_r] raises, and every cell of [G] holds [G + delta_g], with
    [delta_g] computed from [R] stretched to the shape of [G]. *)
Theorem reaction_step_failure_state (s : fields) :
  rect (g s) -> rect (r s) -> shape (g s) <> shape (r s) ->
  exists s1, reaction_step p s = (Raise ValueError, s1) /\
    r s1 = r s /\
    shape (g s1) = shape (g s) /\
    (bcast_shape (shape (g s)) (shape (r s)) <> Some (shape (g s)) -> s1 = s) /\
    (bcast_shape (shape (g s)) (shape (r s)) = Some (shape (g s)) ->
       forall i j, i < length (g s) -> j < ncols (g s) ->
         at_ (g s1) i j =
         add (at_ (g s) i j)
             (delta_G_on p (length (g s)) (ncols (g s)) (g s)
                (broadcast_to (length (g s)) (ncols (g s)) (r s)) i j)).
Proof.
  intros Hg Hr Hne.
  destruct (@reaction_step_failure_spec AR p s Hg Hr Hne)
    as (s1 & E & Er & Es & Hu & Ha).
  exists s1. split; [exact E|]. split; [exact Er|]. split; [exact Es|].
  split; [exact Hu|]. intros Eb. now destruct (Ha Eb).
Qed.

End FailureState.

(** ** Exact arithmetic: balances, bounds and symmetries *)

Module ExactExtra.

Import Exact ExactSpec ExactFacts SpectrumFacts Run.
Local Open Scope R_scope.

Lemma sum_list_repeat (c : R) (m : nat) : sum_list (repeat c m) = INR m * c.
Proof.
  induction m as [|m IH]; [simpl; ring|].
  rewrite S_INR. simpl. rewrite IH. ring.
Qed.

Lemma total_full (n m : nat) (c : R) : total (full n m c) = INR n * INR m * c.
Proof.
  unfold total, full. induction n as [|n IH]; [simpl; ring|].
  rewrite S_INR. simpl. rewrite IH, sum_list_repeat. ring.
Qed.

(** X2. In exact arithmetic the Laplacian of a constant field is zero in
    every cell, whatever the shape of the array. *)
Theorem laplacian_constant (n m : nat) (v : R) :
  laplacian (full n m v) = Ok (full n m 0).
Proof.
  destruct (laplacian_spec (AR := reals) (full_shape n m v)) as (L & E & HL & CL).
  rewrite E. f_equal.
  apply (@grid_ext R (Q2R 0) n m); [exact HL|apply full_shape|].
  intros i j Hi Hj. pose proof (CL i j Hi Hj) as C.
  unfold stencil, at_, zero in C. reals_norm. rewrite C.
  rewrite !cell_full; try assumption; try (apply wrap_lt; lia).
  replace (Q2R 4) with 4 by (unfold Q2R; simpl; lra). ring.
Qed.

Section Balance.

Variable p : Config.params (AR := reals).

(** X6. Mass balance of one sub-step: the coupling term moves mass from
    [G] to [R] and diffusion moves it around, so the grid total of
    [G + R] changes only through feed and kill. *)
Theorem reaction_step_mass_balance (n : nat) (s : fields) :
  has_shape n n (g s) -> has_shape n n (r s) ->
  exists s', reaction_step p s = (Ok tt, s') /\
    total (g s') + total (r s')
    = total (g s) + total (r s)
      + Config.DT p * (Config.FEED p * (INR n * INR n - total (g s))
                       - (Config.FEED p + Config.KILL p) * total (r s)).
Proof.
  intros Hg Hr.
  destruct (@reaction_step_spec reals p n s Hg Hr) as (s' & E & Hg' & Hr' & Hc).
  exists s'. split; [exact E|].
  destruct (laplacian_total Hg) as (Lg & _ & SLg & CLg & TLg).
  destruct (laplacian_total Hr) as (Lr & _ & SLr & CLr & TLr).
  set (dt := Config.DT p). set (f := Config.FEED p). set (k := Config.KILL p).
  set (f1 := fun x y : R => (1 - dt * f) * x + (1 - dt * (f + k)) * y).
  set (f2 := fun x y : R => dt * Config.DIFF_G p * x + dt * Config.DIFF_R p * y).
  set (pl := fun x y : R => 1 * x + 1 * y).
  set (X := zip_with (zip_with pl)
              (zip_with (zip_with f1) (g s) (r s))
              (zip_with (zip_with pl)
                 (zip_with (zip_with f2) Lg Lr) (full n n (dt * f)))).
  pose proof (zip_with_shape f1 Hg Hr) as H1.
  pose proof (zip_with_shape f2 SLg SLr) as H2.
  pose proof (zip_with_shape pl H2 (full_shape n n (dt * f))) as H3.
  assert (EX : zip_with (zip_with pl) (g s') (r s') = X).
  { apply (@grid_ext R (Q2R 0) n n);
      [now apply zip_with_shape|now apply zip_with_shape|].
    intros i j Hi Hj. unfold X.
    rewrite (cell_zip_with pl (Q2R 0) (Q2R 0) (Q2R 0) Hg' Hr' Hi Hj).
    rewrite (cell_zip_with pl (Q2R 0) (Q2R 0) (Q2R 0) H1 H3 Hi Hj).
    rewrite (cell_zip_with f1 (Q2R 0) (Q2R 0) (Q2R 0) Hg Hr Hi Hj).
    rewrite (cell_zip_with pl (Q2R 0) (Q2R 0) (Q2R 0) H2
               (full_shape n n (dt * f)) Hi Hj).
    rewrite (cell_zip_with f2 (Q2R 0) (Q2R 0) (Q2R 0) SLg SLr Hi Hj).
    rewrite (cell_full (Q2R 0) (dt * f) Hi Hj).
    destruct (Hc i j Hi Hj) as [Eg Er].
    pose proof (CLg i j Hi Hj) as Cg. pose proof (CLr i j Hi Hj) as Cr.
    unfold delta_G_at, delta_R_at, gr2_at, at_, zero in Eg, Er, Cg, Cr.
    reals_norm. rewrite Eg, Er, Cg, Cr.
    unfold pl, f1, f2, dt, f, k. rewrite Q2R_one. ring. }
  assert (Hpl : forall x y : R, pl x y = 1 * x + 1 * y) by reflexivity.
  assert (Hf1 : forall x y : R, f1 x y = (1 - dt * f) * x + (1 - dt * (f + k)) * y)
    by reflexivity.
  assert (Hf2 : forall x y : R,
             f2 x y = dt * Config.DIFF_G p * x + dt * Config.DIFF_R p * y)
    by reflexivity.
  transitivity (total (zip_with (zip_with pl) (g s') (r s'))).
  { rewrite (@total_zip_linear 1 1 pl Hpl n n _ _ Hg' Hr'). ring. }
  rewrite EX. unfold X.
  rewrite (@total_zip_linear 1 1 pl Hpl n n _ _ H1 H3).
  rewrite (@total_zip_linear _ _ f1 Hf1 n n _ _ Hg Hr).
  rewrite (@total_zip_linear 1 1 pl Hpl n n _ _ H2 (full_shape n n (dt * f))).
  rewrite (@total_zip_linear _ _ f2 Hf2 n n _ _ SLg SLr).
  rewrite TLg, TLr, total_full. ring.
Qed.

End Balance.

Lemma PI_gt_1 : 1 < PI.
Proof. pose proof pi2_int as [H _]. unfold PI. lra. Qed.

Lemma sin_sqr_le (x : R) : sin x * sin x <= x * x.
Proof.
  assert (Hpos : forall y, 0 < y -> sin y * sin y <= y * y).
  { intros y Hy. destruct (Rle_or_lt 1 y) as [H1|H1].
    - pose proof (SIN_bound y) as [Hl Hu]. nra.
    - pose proof PI_gt_1.
      assert (0 <= sin y) by (apply sin_ge_0; lra).
      pose proof (@sin_lt_x y Hy). nra. }
  destruct (Rtotal_order x 0) as [H|[->|H]].
  - specialize (Hpos (- x) ltac:(lra)). rewrite sin_neg in Hpos. nra.
  - rewrite sin_0. lra.
  - now apply Hpos.
Qed.

Lemma one_minus_cos_le (t : R) : 2 - 2 * cos t <= t * t.
Proof.
  replace t with (2 * (t / 2)) at 1 by field.
  rewrite cos_2a_sin. pose proof (sin_sqr_le (t / 2)). nra.
Qed.

(** X10. No source coordinate is farther than [|rotation_strength|] from
    its destination cell. *)
Theorem warp_displacement_bounded (n : nat) (rotation_strength : R) :
  exists c, build_keplerian_coords n rotation_strength = Ok c /\
    forall i j, (i < n)%nat -> (j < n)%nat ->
      (cell 0 (row_src c) i j - INR i) * (cell 0 (row_src c) i j - INR i)
      + (cell 0 (col_src c) i j - INR j) * (cell 0 (col_src c) i j - INR j)
      <= rotation_strength * rotation_strength.
Proof.
  destruct (build_keplerian_coords_spec n rotation_strength)
    as (c & E & _ & _ & Hc).
  exists c. split; [exact E|]. intros i j Hi Hj.
  destruct (Hc i j Hi Hj) as [-> ->].
  set (t := warp_angle n rotation_strength i j).
  set (ctr := IZR (Z.of_nat n / 2)).
  set (dx := offset n j). set (dy := offset n i).
  assert (Ei : INR i = dy + ctr) by (unfold dy, offset, ctr; ring).
  assert (Ej : INR j = dx + ctr) by (unfold dx, offset, ctr; ring).
  rewrite Ei, Ej.
  pose proof (sin_cos_square t) as Hsc.
  pose proof (one_minus_cos_le t) as Hcos.
  assert (Hsq : (dx * sin t + dy * cos t + ctr - (dy + ctr))
                * (dx * sin t + dy * cos t + ctr - (dy + ctr))
                + (dx * cos t - dy * sin t + ctr - (dx + ctr))
                  * (dx * cos t - dy * sin t + ctr - (dx + ctr))
                = (dx * dx + dy * dy) * (2 - 2 * cos t)).
  { transitivity ((dx * dx + dy * dy) * (sin t * sin t + cos t * cos t)
                  + (dx * dx + dy * dy) * (1 - 2 * cos t)); [ring|].
    rewrite Hsc. ring. }
  rewrite Hsq.
  assert (Hd : 0 <= dx * dx + dy * dy) by nra.
  unfold t, warp_angle. fold dx dy.
  destruct (Req_dec_T (sqrt (dx * dx + dy * dy)) 0) as [E0|E0].
  - apply sqrt_eq_0 in E0; [|exact Hd]. rewrite E0. nra.
  - set (rad := sqrt (dx * dx + dy * dy)) in *.
    assert (Hrad : rad * rad = dx * dx + dy * dy) by (apply sqrt_sqrt; exact Hd).
    pose proof (one_minus_cos_le (rotation_strength * (1 / rad))) as Hb.
    rewrite <- Hrad.
    apply Rle_trans with
      (rad * rad * (rotation_strength * (1 / rad) * (rotation_strength * (1 / rad)))).
    + apply Rmult_le_compat_l; [nra|exact Hb].
    + right. field. exact E0.
Qed.

(** X11. The map is point-symmetric about the centre: cells that are
    mirror images of each other through [(n // 2, n // 2)] have mirror-image
    source coordinates. *)
Theorem warp_point_symmetric (n : nat) (rotation_strength : R) :
  exists c, build_keplerian_coords n rotation_strength = Ok c /\
    forall i j i' j', (i < n)%nat -> (j < n)%nat -> (i' < n)%nat -> (j' < n)%nat ->
      (i + i' = 2 * (n / 2))%nat -> (j + j' = 2 * (n / 2))%nat ->
      let ctr := IZR (Z.of_nat n / 2) in
      cell 0 (row_src c) i' j' - ctr = - (cell 0 (row_src c) i j - ctr) /\
      cell 0 (col_src c) i' j' - ctr = - (cell 0 (col_src c) i j - ctr).
Proof.
  destruct (build_keplerian_coords_spec n rotation_strength)
    as (c & E & _ & _ & Hc).
  exists c. split; [exact E|]. intros i j i' j' Hi Hj Hi' Hj' Ei Ej ctr.
  destruct (Hc i j Hi Hj) as [-> ->]. destruct (Hc i' j' Hi' Hj') as [-> ->].
  assert (Oi : offset n i' = - offset n i).
  { unfold offset. rewrite <- INR_half.
    replace (INR i') with (INR (i + i') - INR i) by (rewrite plus_INR; ring).
    rewrite Ei, mult_INR. simpl. ring. }
  assert (Oj : offset n j' = - offset n j).
  { unfold offset. rewrite <- INR_half.
    replace (INR j') with (INR (j + j') - INR j) by (rewrite plus_INR; ring).
    rewrite Ej, mult_INR. simpl. ring. }
  assert (Et : warp_angle n rotation_strength i' j'
               = warp_angle n rotation_strength i j).
  { unfold warp_angle. rewrite Oi, Oj.
    replace (- offset n j * - offset n j + - offset n i * - offset n i)
      with (offset n j * offset n j + offset n i * offset n i) by ring.
    reflexivity. }
  rewrite Et, Oi, Oj. fold ctr. split; ring.
Qed.

Lemma spectrum_shape (n : nat) (z : grid R) :
  has_shape n n z -> has_shape n n (get_power_spectrum z).
Proof.
  intros Hz. unfold get_power_spectrum.
  apply ew1_shape. apply (@fftshift_shape _ n). now apply fft2_shape.
Qed.

Lemma epsilon_pos : 0 < Q2R (1 # 1000000000).
Proof. unfold Q2R; simpl. apply Rmult_lt_0_compat; [lra|]. apply Rinv_0_lt_compat. lra. Qed.

Lemma cabs_nonneg (c : R * R) : 0 <= cabs c.
Proof. apply sqrt_pos. Qed.

(** X12. In exact arithmetic, the spectrum of a non-empty [N x N] array
    is an [N x N] array with no entry below [log(1e-9)]: the logarithm is
    never taken at 0. *)
Theorem spectrum_bounded_below (n : nat) (z : grid R) :
  (0 < n)%nat ->
  has_shape n n z ->
  has_shape n n (get_power_spectrum z) /\
  forall i j, (i < n)%nat -> (j < n)%nat ->
    ln (Q2R (1 # 1000000000)) <= cell 0 (get_power_spectrum z) i j.
Proof.
  intros _ Hz. split; [now apply spectrum_shape|].
  intros i j Hi Hj. rewrite (@cell_spectrum n z i j Hz Hi Hj).
  set (c := (dft_re n z (freq n i) (freq n j), dft_im n z (freq n i) (freq n j))).
  pose proof (cabs_nonneg c) as Hc. pose proof epsilon_pos as He.
  destruct (Req_dec (cabs c) 0) as [E|E].
  - rewrite E, Rplus_0_l. apply Rle_refl.
  - apply Rlt_le, ln_increasing; lra.
Qed.

Lemma sum_imap_from_id (l : list R) (k : nat) :
  sum_list (imap_from k (fun _ v => v) l) = sum_list l.
Proof.
  revert k. induction l as [|x l IH]; intros k; simpl; [reflexivity|].
  now rewrite IH.
Qed.

Lemma sum_imap_from_zero {A} (l : list A) (k : nat) :
  sum_list (imap_from k (fun _ _ => 0) l) = 0.
Proof.
  revert k. induction l as [|x l IH]; intros k; simpl; [reflexivity|].
  rewrite IH. ring.
Qed.

Lemma dft_angle_zero (n a b : nat) : dft_angle n n 0 0 a b = 0.
Proof. unfold dft_angle. simpl INR. unfold Rdiv. ring. Qed.

Lemma dft_zero_frequency (n : nat) (z : grid R) :
  dft_re n z 0 0 = total z /\ dft_im n z 0 0 = 0.
Proof.
  unfold dft_re, dft_im, total, imap. split.
  - transitivity (sum_list (imap_from 0 (fun _ row => sum_list row) z)).
    + apply sum_imap_from_ext. intros a row.
      rewrite <- (sum_imap_from_id row 0). apply sum_imap_from_ext.
      intros b v. rewrite dft_angle_zero, cos_0. ring.
    + generalize 0%nat. induction z as [|row z IH]; intros k; simpl;
        [reflexivity|]. now rewrite IH.
  - rewrite <- (sum_imap_from_zero z 0). apply sum_imap_from_ext. intros a row.
    rewrite <- (sum_imap_from_zero row 0). apply sum_imap_from_ext.
    intros b v. rewrite dft_angle_zero, sin_0. ring.
Qed.

Lemma freq_center (n : nat) : (0 < n)%nat -> freq n (n / 2) = 0%nat.
Proof.
  intros Hn. unfold freq, wrap. rewrite Nat2Z.inj_div. simpl Z.of_nat.
  rewrite Z.sub_diag, Z.mod_0_l by lia. reflexivity.
Qed.

(** X13. The centre cell of the spectrum is the zero-frequency term:
    [log(|sum of the field| + 1e-9)]. *)
Theorem spectrum_center_is_total (n : nat) (z : grid R) :
  has_shape n n z -> (0 < n)%nat ->
  cell 0 (get_power_spectrum z) (n / 2) (n / 2)
  = ln (Rabs (total z) + Q2R (1 # 1000000000)).
Proof.
  intros Hz Hn.
  assert (Hk : (n / 2 < n)%nat) by (apply Nat.div_lt; lia).
  rewrite (@cell_spectrum n z _ _ Hz Hk Hk), (freq_center Hn).
  destruct (dft_zero_frequency n z) as [-> ->].
  unfold cabs. cbn [fst snd]. do 2 f_equal.
  replace (total z * total z + 0 * 0) with (Rsqr (total z)) by (unfold Rsqr; ring).
  apply sqrt_Rsqr_abs.
Qed.

Lemma bilinear_full (n : nat) (v y x : R) :
  (0 < n)%nat -> bilinear (full n n v) y x = v.
Proof.
  intros Hn. unfold bilinear.
  pose proof (full_shape n n v) as Hs.
  rewrite (ncols_shape Hs Hn). destruct Hs as [-> _].
  rewrite !cell_full by (apply wrap_lt; lia). ring.
Qed.

Section Vacuum.

Variable p : Config.params (AR := reals).

Lemma cell_step_vacuum : cell_step p (1, 0) = (1, 0).
Proof.
  unfold cell_step. reals_norm. rewrite Q2R_one.
  replace (Q2R 4) with 4 by (unfold Q2R; simpl; lra).
  f_equal; ring.
Qed.

Lemma iter_cell_step_vacuum (k : nat) : Nat.iter k (cell_step p) (1, 0) = (1, 0).
Proof.
  induction k as [|k IH]; [reflexivity|].
  rewrite Nat.iter_succ, IH. apply cell_step_vacuum.
Qed.

Lemma advection_homogeneous (n : nat) (cs : option coords) (a b : R) :
  map_fits n cs ->
  advection map_coordinates cs (homogeneous n (a, b)) = (Ok tt, homogeneous n (a, b)).
Proof.
  intros Hcs. apply advection_advected.
  destruct cs as [c|]; [|reflexivity].
  destruct Hcs as [Hrow Hcol]. unfold homogeneous, map_coordinates.
  cbn [advected g r fst snd].
  assert (H : forall v : R,
             zip_with (zip_with (bilinear (full n n v))) (row_src c) (col_src c)
             = full n n v).
  { intros v. apply (@grid_ext R 0 n n);
      [now apply zip_with_shape|apply full_shape|].
    intros i j Hi Hj.
    rewrite (cell_zip_with (bilinear (full n n v)) 0 0 0 Hrow Hcol Hi Hj).
    rewrite (cell_full 0 v Hi Hj). apply bilinear_full. lia. }
  now rewrite !H.
Qed.

(** X5. In exact arithmetic the rest state [G = 1], [R = 0] is stationary
    for every choice of the constants: a tick, with or without advection,
    succeeds and returns it unchanged. *)
Theorem vacuum_state_stationary (n : nat) (cs : option coords) :
  map_fits n cs ->
  update map_coordinates p cs (homogeneous n (1, 0))
  = (Ok tt, homogeneous n (1, 0)).
Proof.
  intros Hcs. unfold update, bind.
  rewrite (@advection_homogeneous n cs 1 0 Hcs).
  rewrite for_range_homogeneous. now rewrite iter_cell_step_vacuum.
Qed.

End Vacuum.

Section Run.

Variable p : Config.params (AR := reals).

Lemma tick_keeps_shape (n : nat) (cs : option coords) (s : fields) :
  map_fits n cs ->
  has_shape n n (g s) -> has_shape n n (r s) ->
  exists s', update map_coordinates p cs s = (Ok tt, s') /\
             has_shape n n (g s') /\ has_shape n n (r s').
Proof.
  intros Hcs Hg Hr.
  assert (H0 : exists s0, advected map_coordinates cs s s0 /\
                 has_shape n n (g s0) /\ has_shape n n (r s0)).
  { destruct cs as [c|].
    - destruct Hcs as [Hrow Hcol].
      exists (@Build_fields reals
                (zip_with (zip_with (bilinear (g s))) (row_src c) (col_src c))
                (zip_with (zip_with (bilinear (r s))) (row_src c) (col_src c))).
      split; [split; reflexivity|]. cbn [g r].
      split; now apply zip_with_shape.
    - exists s. split; [reflexivity|now split]. }
  destruct H0 as (s0 & Ha & Hg0 & Hr0).
  destruct (@update_spec reals map_coordinates p n cs s s0 Ha Hg0 Hr0)
    as (s' & E & Hs).
  exists s'. split; [exact E|].
  exact (@substeps_shapes p n _ s0 s' Hs Hg0 Hr0).
Qed.

(** One frame: the tick, then the spectrum of the new [G]. *)
Lemma frame_keeps_shape (n : nat) (cs : option coords) (s : fields) :
  (0 < n)%nat -> map_fits n cs ->
  has_shape n n (g s) -> has_shape n n (r s) ->
  exists s', frame p cs s = (Ok (g s', get_power_spectrum (g s')), s') /\
             has_shape n n (g s') /\ has_shape n n (r s') /\
             has_shape n n (get_power_spectrum (g s')).
Proof.
  intros Hn Hcs Hg Hr.
  destruct (@tick_keeps_shape n cs s Hcs Hg Hr) as (s' & E & Hg' & Hr').
  exists s'. split.
  - unfold frame, bind. rewrite E. reflexivity.
  - split; [exact Hg'|]. split; [exact Hr'|]. now apply spectrum_shape.
Qed.

Lemma run_keeps_shape (n : nat) (cs : option coords) (frames : nat) (s : fields) :
  (0 < n)%nat -> map_fits n cs ->
  has_shape n n (g s) -> has_shape n n (r s) ->
  exists s', run_frames p cs frames s = (Ok tt, s') /\
             has_shape n n (g s') /\ has_shape n n (r s').
Proof.
  intros Hn Hcs. revert s. induction frames as [|k IH]; intros s Hg Hr.
  - exists s. split; [reflexivity|now split].
  - destruct (@frame_keeps_shape n cs s Hn Hcs Hg Hr)
      as (s1 & E1 & Hg1 & Hr1 & _).
    destruct (IH s1 Hg1 Hr1) as (s2 & E2 & H2).
    exists s2. split; [|exact H2].
    unfold run_frames in *. cbn [for_range]. unfold bind at 1 2.
    rewrite E1. cbn [ret]. exact E2.
Qed.

(** X14. In exact arithmetic and for [N >= 1], the numerical work of a
    simulation raises nothing.  The setup of [simulate] succeeds for every
    [N x N] sample, with or without advection.  After any number of frames
    both fields are still [N x N], and the next frame succeeds as well: it
    hands to the renderer an [N x N] field [G] and an [N x N] power
    spectrum.  (The calls into matplotlib, [make_figure], [set_array] and
    [FuncAnimation], are outside the model.) *)
Theorem simulate_numerics_keep_shape (with_advection : bool) (u : grid R)
    (frames : nat) :
  (0 < Config.N p)%nat ->
  has_shape (Config.N p) (Config.N p) u ->
  exists s0 cs s',
    simulate_setup p with_advection u = Ok (s0, cs) /\
    run_frames p cs frames s0 = (Ok tt, s') /\
    has_shape (Config.N p) (Config.N p) (g s') /\
    has_shape (Config.N p) (Config.N p) (r s') /\
    exists s'',
      frame p cs s' = (Ok (g s'', get_power_spectrum (g s'')), s'') /\
      has_shape (Config.N p) (Config.N p) (g s'') /\
      has_shape (Config.N p) (Config.N p) (get_power_spectrum (g s'')).
Proof.
  intros Hn Hu. set (n := Config.N p) in *.
  destruct (initialize_fields_spec (AR := reals) 10 (Q2R (5 # 100)) Hu)
    as (G & R0 & E & HG & HR & _).
  assert (Hcs : exists cs,
            (if with_advection
             then (c <~ build_keplerian_coords n (Config.ROTATION_STRENGTH p);
                   Ok (Some c))%np
             else Ok None) = Ok cs /\ map_fits n cs).
  { destruct with_advection.
    - destruct (build_keplerian_coords_spec n (Config.ROTATION_STRENGTH p))
        as (c & Ec & Hr & Hcl & _).
      exists (Some c). rewrite Ec. split; [reflexivity|now split].
    - exists None. split; [reflexivity|exact I]. }
  destruct Hcs as (cs & Ecs & Hfit).
  destruct (@run_keeps_shape n cs frames (@Build_fields reals G R0) Hn Hfit HG HR)
    as (s' & Er & Hg' & Hr').
  destruct (@frame_keeps_shape n cs s' Hn Hfit Hg' Hr')
    as (s'' & Ef & Hg'' & _ & Hsp).
  exists (@Build_fields reals G R0), cs, s'.
  split.
  - unfold simulate_setup. fold n. rewrite E. cbn [rbind]. rewrite Ecs.
    reflexivity.
  - split; [exact Er|]. split; [exact Hg'|]. split; [exact Hr'|].
    exists s''. split; [exact Ef|]. split; [exact Hg''|exact Hsp].
Qed.

End Run.

End ExactExtra.

(** ** binary32: the rest state *)

Module F32Extra.

Import F32.

(** Eight single-cell steps from [(1, 0)], with the constants of the
    script: every intermediate value is computed exactly. *)
Lemma default_rest_cell :
  Nat.iter (Config.STEPS_PER_FRAME Config.default) (cell_step Config.default)
    (@cast ieee (lit 1), @cast ieee (lit 0))
  = (@cast ieee (lit 1), @cast ieee (lit 0)).
Proof. vm_compute. reflexivity. Qed.

(** X15. In binary32 and with the constants of the script, rounding does
    not disturb the rest state: on a grid of any size, a tick without
    advection returns [G = 1], [R = 0] bit for bit. *)
Theorem default_rest_state_stationary
    (map_coordinates : grid (@f32 ieee) -> coords -> result (grid (@f32 ieee)))
    (n : nat) :
  update map_coordinates Config.default None
    (homogeneous n (@cast ieee (lit 1), @cast ieee (lit 0)))
  = (Ok tt, homogeneous n (@cast ieee (lit 1), @cast ieee (lit 0))).
Proof.
  unfold update, bind. cbn [advection ret].
  rewrite for_range_homogeneous, default_rest_cell. reflexivity.
Qed.

End F32Extra.

(** ** Concrete instances *)

Module Witnesses.

Import Inputs.

Lemma z22_shape : has_shape 2 2 z22.
Proof. split; [reflexivity|repeat constructor]. Qed.

Lemma r22_shape : has_shape 2 2 r22.
Proof. split; [reflexivity|repeat constructor]. Qed.

Lemma laplacian_periodic_stencil_witness :
  has_shape 2 2 z22 /\
  exists L, laplacian (AR := F32.ieee) z22 = Ok L /\ has_shape 2 2 L /\
    forall i j, i < 2 -> j < 2 ->
      at_ L i j =
      sub (add (add (add (at_ z22 (wrap 2 (Z.of_nat i - 1)) j)
                         (at_ z22 (wrap 2 (Z.of_nat i + 1)) j))
                    (at_ z22 i (wrap 2 (Z.of_nat j - 1))))
               (at_ z22 i (wrap 2 (Z.of_nat j + 1))))
          (mul (cast (lit 4)) (at_ z22 i j)).
Proof.
  split; [exact z22_shape|].
  apply (@laplacian_periodic_stencil F32.ieee 2 z22). exact z22_shape.
Defined.

Lemma tick_advects_once_then_substeps_witness :
  let s := {| g := z22; r := z22 |} in
  exists s', update (AR := F32.ieee) (fun z _ => Ok z) Config.default None s
             = (Ok tt, s') /\
             substeps Config.default 2 8 s s'.
Proof.
  intros s.
  destruct (@tick_advects_once_then_substeps F32.ieee (fun z _ => Ok z)
              Config.default 2 None s s eq_refl z22_shape z22_shape)
    as (s' & _ & _ & E & H).
  exists s'. split; [exact E|exact H].
Defined.

Lemma laplacian_sum_zero_witness :
  exists L, laplacian (AR := Exact.reals) r22 = Ok L /\ Exact.total L = 0%R.
Proof.
  apply (@ExactFacts.laplacian_sum_zero 2 2 r22). exact r22_shape.
Defined.


Lemma diffusion_tick_conserves_mass_witness :
  let s := {| g := r22; r := r22 |} in
  exists s', update (AR := Exact.reals) Exact.map_coordinates diffusion_only None s
             = (Ok tt, s') /\
             (Exact.total (g s') + Exact.total (r s')
              = Exact.total (g s) + Exact.total (r s))%R.
Proof.
  intros s.
  apply (@ExactFacts.diffusion_tick_conserves_mass diffusion_only
           eq_refl eq_refl eq_refl 2 s r22_shape r22_shape).
Defined.

Lemma warp_preserves_distance_from_center_witness :
  exists c, Exact.build_keplerian_coords 2 (1 / 20)%R = Ok c /\
    cell 0%R (row_src c) 1 1 = 1%R /\ cell 0%R (col_src c) 1 1 = 1%R.
Proof.
  destruct (@ExactFacts.warp_preserves_distance_from_center 2 (1 / 20)%R)
    as (c & E & _ & H1 & H2); [lia|].
  exists c. split; [exact E|]. split; [exact H1|exact H2].
Defined.

Lemma default_tick_lowers_center_witness :
  exists G R s',
    initialize_fields (AR := F32.ieee) 200 10 (lit 0) u200 = Ok (G, R) /\
    at_ G 100 100 = @cast F32.ieee (lit (1 # 2)) /\
    update (fun z _ => Ok z) Config.default None {| g := G; r := R |}
    = (Ok tt, s') /\
    has_shape 200 200 (g s') /\ has_shape 200 200 (r s') /\
    F32.lt32 (at_ (g s') 100 100) (@cast F32.ieee (lit (1 # 2))) = true.
Proof.
  apply (@F32Facts.default_tick_lowers_center (fun z _ => Ok z) u200).
  - apply full_shape.
  - intros i j Hi Hj. unfold u200. rewrite (cell_full _ _ Hi Hj). reflexivity.
Defined.

Lemma zero_rotation_identity_map_witness :
  exists c, Exact.build_keplerian_coords 2 0%R = Ok c /\
            Exact.map_coordinates r22 c = Ok r22.
Proof.
  destruct (ExactFacts.zero_rotation_identity_map 2) as (c & E & _ & H).
  exists c. split; [exact E|]. apply H. exact r22_shape.
Defined.

Lemma r33_skew_shape : has_shape 3 3 r33_skew.
Proof. split; [reflexivity|repeat constructor]. Qed.

(** On a 3 x 3 grid the centre is cell [(1, 1)]: the reflection of cell
    [(0, 1)] is cell [(2, 1)], that of cell [(0, 2)] is cell [(2, 0)]. *)
Lemma spectrum_point_symmetric_witness :
  (ExactSpec.reflect 3 0 = 2 /\ ExactSpec.reflect 3 1 = 1 /\
   ExactSpec.reflect 3 2 = 0) /\
  cell 0%R (Exact.get_power_spectrum r33_skew) 2 1
  = cell 0%R (Exact.get_power_spectrum r33_skew) 0 1 /\
  cell 0%R (Exact.get_power_spectrum r33_skew) 2 0
  = cell 0%R (Exact.get_power_spectrum r33_skew) 0 2.
Proof.
  split; [repeat split|]. split.
  - apply (@SpectrumFacts.spectrum_point_symmetric 3 r33_skew r33_skew_shape 0 1);
      lia.
  - apply (@SpectrumFacts.spectrum_point_symmetric 3 r33_skew r33_skew_shape 0 2);
      lia.
Defined.

Lemma r22_rect : rect r22.
Proof. split; [reflexivity|repeat constructor]. Qed.

Lemma r11_rect : rect r11.
Proof. split; [reflexivity|repeat constructor]. Qed.

(** A 2 x 2 gas field with a 1 x 1 radiation field: the tick raises when
    [G] has already been overwritten.  A 2 x 2 gas field, a 3 x 3
    radiation field and a 1 x 1 map: the tick returns two 1 x 1 fields. *)
Lemma tick_shape_mismatch_outcomes_witness :
  (exists s1,
     update (AR := Exact.reals) Exact.map_coordinates Config.default None
       (@Build_fields Exact.reals r22 r11) = (Raise ValueError, s1) /\
     r s1 = r11 /\
     shape (g s1) = (2, 2) /\
     forall i j, i < 2 -> j < 2 ->
       at_ (g s1) i j
       = add (at_ r22 i j)
             (delta_G_on Config.default 2 2 r22 (broadcast_to 2 2 r11) i j)) /\
  (exists s',
     update (AR := Exact.reals) Exact.map_coordinates Config.default
       (Some map11) (@Build_fields Exact.reals r22 r33) = (Ok tt, s') /\
     has_shape 1 1 (g s') /\ has_shape 1 1 (r s')).
Proof.
  destruct (@tick_shape_mismatch_outcomes Exact.reals Exact.map_coordinates
              Config.default) as [H1 H2].
  split.
  - destruct (H1 (@Build_fields Exact.reals r22 r11))
      as (s1 & E & Er & Es & _ & Hc).
    + simpl. lia.
    + exact r22_rect.
    + exact r11_rect.
    + discriminate.
    + exists s1. split; [exact E|]. split; [exact Er|]. split; [exact Es|].
      apply Hc. reflexivity.
  - apply (H2 (@Build_fields Exact.reals r22 r33) map11 1 2 2 3 3).
    + exact ExactFacts.map_coordinates_resamples.
    + lia.
    + split; [reflexivity|repeat constructor].
    + split; [reflexivity|repeat constructor].
    + lia.
    + lia.
    + exact r22_shape.
    + lia.
    + lia.
    + apply full_shape.
Defined.

(** *** Instances of the further properties *)

Lemma z22_rect : rect z22.
Proof. split; [reflexivity|repeat constructor]. Qed.

Lemma laplacian_commutes_with_roll_witness :
  exists L, laplacian (AR := F32.ieee) z22 = Ok L /\
            laplacian (roll z22 1 axis0) = Ok (roll L 1 axis0).
Proof.
  exact (@laplacian_commutes_with_roll F32.ieee 2 2 z22 1 axis0 z22_shape).
Defined.

Lemma tick_commutes_with_roll_witness :
  let st := {| g := z22; r := z22 |} in
  exists st',
    update (AR := F32.ieee) (fun z _ => Ok z) Config.default None st
    = (Ok tt, st') /\
    update (fun z _ => Ok z) Config.default None (roll_fields (-1) axis1 st)
    = (Ok tt, roll_fields (-1) axis1 st').
Proof.
  intros st.
  exact (@tick_commutes_with_roll F32.ieee (fun z _ => Ok z) Config.default
           2 (-1) axis1 st z22_shape z22_shape).
Defined.

Lemma vacuum_state_stationary_witness :
  let cs := Some (@Build_coords Exact.reals r22 r22) in
  update (AR := Exact.reals) Exact.map_coordinates Config.default cs
    (@homogeneous Exact.reals 2 (1%R, 0%R))
  = (Ok tt, @homogeneous Exact.reals 2 (1%R, 0%R)).
Proof.
  intros cs.
  exact (@ExactExtra.vacuum_state_stationary Config.default 2 cs
           (conj r22_shape r22_shape)).
Defined.

Lemma reaction_step_mass_balance_witness :
  let s := {| g := r22; r := r22 |} in
  let p := @Config.default Exact.reals in
  exists s', reaction_step p s = (Ok tt, s') /\
    (Exact.total (g s') + Exact.total (r s')
     = Exact.total (g s) + Exact.total (r s)
       + Config.DT p * (Config.FEED p * (INR 2 * INR 2 - Exact.total (g s))
                        - (Config.FEED p + Config.KILL p) * Exact.total (r s)))%R.
Proof.
  intros s p.
  exact (@ExactExtra.reaction_step_mass_balance p 2 s r22_shape r22_shape).
Defined.

Lemma z11_rect : rect z11.
Proof. split; [reflexivity|repeat constructor]. Qed.

(** A 2 x 2 gas field with a 1 x 1 radiation field, in binary32: the
    sub-step raises when [G] has already been advanced. *)
Lemma reaction_step_failure_state_witness :
  let s := {| g := z22; r := z11 |} in
  exists s1,
    reaction_step (AR := F32.ieee) Config.default s = (Raise ValueError, s1) /\
    r s1 = z11 /\
    shape (g s1) = (2, 2) /\
    forall i j, i < 2 -> j < 2 ->
      at_ (g s1) i j
      = add (at_ z22 i j)
            (delta_G_on Config.default 2 2 z22 (broadcast_to 2 2 z11) i j).
Proof.
  intros s.
  destruct (@reaction_step_failure_state F32.ieee Config.default s)
    as (s1 & E & Er & Es & _ & Hc).
  - exact z22_rect.
  - exact z11_rect.
  - discriminate.
  - exists s1. split; [exact E|]. split; [exact Er|]. split; [exact Es|].
    apply Hc. reflexivity.
Defined.

Lemma initialize_fields_without_seed_witness :
  exists R0,
    initialize_fields (AR := Exact.reals) 3 0 (1 / 20)%R ExactSpec.u33
    = Ok (full 3 3 (cast (lit 1)), R0) /\
    has_shape 3 3 R0.
Proof.
  destruct (@initialize_fields_without_seed Exact.reals 3 0 (1 / 20)%R
              ExactSpec.u33) as (R0 & E & HR & _).
  - lia.
  - apply full_shape.
  - exists R0. split; [exact E|exact HR].
Defined.

Lemma initialize_fields_oversize_seed_witness :
  exists G R0,
    initialize_fields (AR := Exact.reals) 3 2 (1 / 20)%R ExactSpec.u33
    = Ok (G, R0) /\
    at_ G 2 2 = cast (lit (1 # 2)) /\ at_ G 1 1 = cast (lit 1).
Proof.
  destruct (@initialize_fields_oversize_seed Exact.reals 3 2 (1 / 20)%R
              ExactSpec.u33) as (G & R0 & E & H).
  - reflexivity.
  - apply full_shape.
  - exists G, R0. split; [exact E|]. split.
    + apply (H 2 2); lia.
    + apply (H 1 1); lia.
Defined.

Lemma spectrum_bounded_below_witness :
  has_shape 3 3 (Exact.get_power_spectrum r33_skew) /\
  forall i j, i < 3 -> j < 3 ->
    (ln (Q2R (1 # 1000000000))
     <= cell 0 (Exact.get_power_spectrum r33_skew) i j)%R.
Proof.
  apply (@ExactExtra.spectrum_bounded_below 3 r33_skew).
  - lia.
  - exact r33_skew_shape.
Defined.

Lemma spectrum_center_is_total_witness :
  cell 0%R (Exact.get_power_spectrum r22) (2 / 2) (2 / 2)
  = ln (Rabs (Exact.total r22) + Q2R (1 # 1000000000)).
Proof.
  apply (@ExactExtra.spectrum_center_is_total 2 r22 r22_shape). lia.
Defined.

Lemma simulate_numerics_keep_shape_witness :
  exists (s0 : @fields Exact.reals) cs (s' : @fields Exact.reals),
    Run.simulate_setup diffusion_only true (full 2 2 0%R) = Ok (s0, cs) /\
    Run.run_frames diffusion_only cs 3 s0 = (Ok tt, s') /\
    has_shape 2 2 (g s') /\ has_shape 2 2 (r s') /\
    exists s'' : @fields Exact.reals,
      Run.frame diffusion_only cs s'
      = (Ok (g s'', Exact.get_power_spectrum (g s'')), s'') /\
      has_shape 2 2 (g s'') /\
      has_shape 2 2 (Exact.get_power_spectrum (g s'')).
Proof.
  apply (@ExactExtra.simulate_numerics_keep_shape diffusion_only true
           (full 2 2 0%R) 3).
  - simpl. lia.
  - apply full_shape.
Defined.

End Witnesses.
